(** * BongoCat fetching core: rate limiter, proxy rotation, session
    managers and batch fan-out.

    A shallow embedding of
    - [bongocat/core_scraper/rate_limiter.py]          ([RateLimiter]),
    - [bongocat/core_scraper/proxy_handler.py]         ([ProxyHandler]),
    - [bongocat/core_scraper/session_manager.py]       ([SessionManager]),
    - [bongocat-framework/core_scraper/async_session_manager.py]
                                                       ([AsyncSessionManager]),
    - [bongocat/core_scraper/async_scraper.py]         ([AsyncBongoCat]),
    with the properties of the design document stated over it.

    Conventions.
    - A Python [float] is an exact rational ([Q]); equalities between
      floats are stated up to [==].  A Python [int] is a [Z].
    - [time.time()] and [time.sleep] act on an explicit clock; where a
      method only stamps or compares the time, the reading is an argument.
    - A method that can raise returns a [result]; a method that mutates
      [self] returns the new object next to its outcome.
    - Network and randomness are oracles given per call. *)

From Stdlib Require Import ZArith QArith Qminmax Lqa Lia List Bool.
From stdpp Require Import base strings list gmap fin_maps pretty.
Import ListNotations.
Open Scope Q_scope.

(** ** Python basics *)

Inductive exn : Type :=
| Exception (msg : string)        (* any [Exception] with [str(e) = msg] *)
| TimeoutError                    (* [asyncio.TimeoutError] *)
| IndexError (msg : string)
| ValueError (msg : string).

(** [str(e)]; [str(asyncio.TimeoutError())] is the empty string. *)
Definition str (e : exn) : string :=
  match e with
  | Exception m | IndexError m | ValueError m => m
  | TimeoutError => ""
  end.

Inductive result (A : Type) : Type :=
| Ok (a : A)
| Raise (e : exn).
Arguments Ok {A} a.
Arguments Raise {A} e.

Definition raises {A} (r : result A) : Prop :=
  match r with Raise _ => True | Ok _ => False end.

(** The wall clock: [now] is what [time.time()] reads, [slept] records every
    [time.sleep(d)] in call order. *)
Record clock : Type := Clock { now : Q; slept : list Q }.

Definition time_sleep (d : Q) (c : clock) : clock :=
  {| now := now c + d; slept := slept c ++ [d] |}.

(** Time that passes without a [sleep] (scheduling, the caller's own work). *)
Definition elapse (d : Q) (c : clock) : clock :=
  {| now := now c + d; slept := slept c |}.

Definition total_sleep (c : clock) : Q := fold_right Qplus 0 (slept c).

(** ** rate_limiter.py *)

Module RateLimiter.

Record t : Type := Make {
  requests_per_second : Q;
  burst_limit : Z;
  min_interval : Q;
  last_request_time : Q;
  request_times : list Q;        (* deque(maxlen = burst_limit * 2) *)
  adaptive_mode : bool;
  current_delay : Q;
  success_count : Z;
  failure_count : Z
}.

(** [1.0 / requests_per_second if requests_per_second > 0 else 0] *)
Definition interval_of (rps : Q) : Q :=
  if Qlt_le_dec 0 rps then 1 / rps else 0.

(** The attributes set by [__init__]. *)
Definition fresh (rps : Q) (burst : Z) : t :=
  {| requests_per_second := rps;
     burst_limit := burst;
     min_interval := interval_of rps;
     last_request_time := 0;
     request_times := [];
     adaptive_mode := false;
     current_delay := interval_of rps;
     success_count := 0;
     failure_count := 0 |}.

(** [__init__]; [deque(maxlen=n)] raises [ValueError] for a negative [n]. *)
Definition __init__ (rps : Q) (burst : Z) : result t :=
  if (burst * 2 <? 0)%Z then Raise (ValueError "maxlen must be non-negative")
  else Ok (fresh rps burst).

(** [while self.request_times and current_time - self.request_times[0] >= 1.0:
       self.request_times.popleft()] *)
Fixpoint trim_old (current_time : Q) (dq : list Q) : list Q :=
  match dq with
  | [] => []
  | x :: rest =>
      if Qle_bool 1 (current_time - x) then trim_old current_time rest
      else dq
  end.

(** [deque.append] on a deque bounded by [maxlen]: a full deque drops its
    leftmost element, a deque of capacity 0 stays empty. *)
Definition deque_append (maxlen : Z) (x : Q) (dq : list Q) : list Q :=
  if (maxlen =? 0)%Z then []
  else if (maxlen <=? Z.of_nat (length dq))%Z then tl dq ++ [x]
  else dq ++ [x].

(** The three points of [wait] at which the clock is read, each reached
    after some non-negative latency. *)
Record latency : Type := Latency {
  before_read : Q;      (* until [current_time = time.time()] in [wait] *)
  before_track : Q;     (* until [time.time()] in [_update_burst_tracking] *)
  before_stamp : Q      (* until [self.last_request_time = time.time()] *)
}.

Definition latency_ok (l : latency) : Prop :=
  0 <= before_read l /\ 0 <= before_track l /\ 0 <= before_stamp l.

Definition no_latency : latency := Latency 0 0 0.

Definition set_request_times (rt : list Q) (s : t) : t :=
  {| requests_per_second := requests_per_second s;
     burst_limit := burst_limit s;
     min_interval := min_interval s;
     last_request_time := last_request_time s;
     request_times := rt;
     adaptive_mode := adaptive_mode s;
     current_delay := current_delay s;
     success_count := success_count s;
     failure_count := failure_count s |}.

Definition set_last_request_time (x : Q) (s : t) : t :=
  {| requests_per_second := requests_per_second s;
     burst_limit := burst_limit s;
     min_interval := min_interval s;
     last_request_time := x;
     request_times := request_times s;
     adaptive_mode := adaptive_mode s;
     current_delay := current_delay s;
     success_count := success_count s;
     failure_count := failure_count s |}.

Definition _update_burst_tracking (d : Q) (s : t) (c : clock) : t * clock :=
  let c1 := elapse d c in
  let current_time := now c1 in
  let rt := deque_append (burst_limit s * 2) current_time
              (trim_old current_time (request_times s)) in
  let c2 := if (burst_limit s <=? Z.of_nat (length rt))%Z
            then time_sleep (1 # 2) c1 else c1 in
  (set_request_times rt s, c2).

Definition wait (l : latency) (s : t) (c : clock) : t * clock :=
  let c1 := elapse (before_read l) c in
  let current_time := now c1 in
  let c2 :=
    if adaptive_mode s then time_sleep (current_delay s) c1
    else
      let time_since_last := current_time - last_request_time s in
      if Qlt_le_dec time_since_last (min_interval s)
      then time_sleep (min_interval s - time_since_last) c1
      else c1 in
  let '(s3, c3) := _update_burst_tracking (before_track l) s c2 in
  let c4 := elapse (before_stamp l) c3 in
  (set_last_request_time (now c4) s3, c4).

(** [N] sequential calls, one latency record per call. *)
Fixpoint wait_all (ls : list latency) (s : t) (c : clock) : t * clock :=
  match ls with
  | [] => (s, c)
  | l :: rest => let '(s1, c1) := wait l s c in wait_all rest s1 c1
  end.

Definition enable_adaptive_mode (s : t) : t :=
  {| requests_per_second := requests_per_second s;
     burst_limit := burst_limit s;
     min_interval := min_interval s;
     last_request_time := last_request_time s;
     request_times := request_times s;
     adaptive_mode := true;
     current_delay := current_delay s;
     success_count := success_count s;
     failure_count := failure_count s |}.

Definition disable_adaptive_mode (s : t) : t :=
  {| requests_per_second := requests_per_second s;
     burst_limit := burst_limit s;
     min_interval := min_interval s;
     last_request_time := last_request_time s;
     request_times := request_times s;
     adaptive_mode := false;
     current_delay := min_interval s;
     success_count := success_count s;
     failure_count := failure_count s |}.

Definition set_adaptive (delay : Q) (succ fail : Z) (s : t) : t :=
  {| requests_per_second := requests_per_second s;
     burst_limit := burst_limit s;
     min_interval := min_interval s;
     last_request_time := last_request_time s;
     request_times := request_times s;
     adaptive_mode := adaptive_mode s;
     current_delay := delay;
     success_count := succ;
     failure_count := fail |}.

Definition report_success (s : t) : t :=
  if adaptive_mode s then
    let sc := (success_count s + 1)%Z in
    if (5 <=? sc)%Z
    then set_adaptive (Qmax (min_interval s) (current_delay s * (9 # 10)))
                      0 (failure_count s) s
    else set_adaptive (current_delay s) sc (failure_count s) s
  else s.

(** The factor chosen by the [if]/[elif]/[else] on [status_code]
    ([None] when the caller passes no code). *)
Definition failure_factor (status_code : option Z) : Q :=
  match status_code with
  | Some code =>
      if (code =? 429)%Z then 2
      else if bool_decide (code ∈ [503; 502; 504]%Z) then 3 # 2
      else 12 # 10
  | None => 12 # 10
  end.

Definition report_failure (status_code : option Z) (s : t) : t :=
  if adaptive_mode s then
    set_adaptive (Qmin (current_delay s * failure_factor status_code) 30)
                 0 (failure_count s + 1)%Z s
  else s.

Definition set_rate (rps : Q) (s : t) : t :=
  {| requests_per_second := rps;
     burst_limit := burst_limit s;
     min_interval := interval_of rps;
     last_request_time := last_request_time s;
     request_times := request_times s;
     adaptive_mode := adaptive_mode s;
     current_delay := if adaptive_mode s then current_delay s
                      else interval_of rps;
     success_count := success_count s;
     failure_count := failure_count s |}.

End RateLimiter.

(** ** proxy_handler.py *)

Module ProxyHandler.

Record t : Type := Make {
  proxy_list : list string;
  working_proxies : list string;
  failed_proxies : list string;
  last_validation : Q;
  validation_interval : Q
}.

(** What [requests.get(test_url, proxies=..., timeout=...)] does for one
    probe: it answers with a status code or raises. *)
Inductive probe : Type :=
| Status (code : Z)
| ProbeError.

(** The network during one validation pass: the outcome of the [k]-th
    probe of the pass, issued through proxy [p]. *)
Definition network : Type := nat -> string -> probe.

(** The [for proxy in self.proxy_list] loop of [_validate_proxies]. *)
Fixpoint validate_loop (net : network) (k : nat) (ps working failed : list string)
  : list string * list string :=
  match ps with
  | [] => (working, failed)
  | p :: rest =>
      match net k p with
      | Status code =>
          if (code =? 200)%Z
          then validate_loop net (S k) rest (working ++ [p]) failed
          else validate_loop net (S k) rest working (failed ++ [p])
      | ProbeError => validate_loop net (S k) rest working (failed ++ [p])
      end
  end.

Definition _validate_proxies (net : network) (finished_at : Q) (s : t) : t :=
  let '(w, f) := validate_loop net 0 (proxy_list s) [] [] in
  {| proxy_list := proxy_list s;
     working_proxies := w;
     failed_proxies := f;
     last_validation := finished_at;
     validation_interval := validation_interval s |}.

(** [__init__]: [proxy_list or []], then a first validation pass when the
    list is not empty. *)
Definition __init__ (proxies : option (list string)) (net : network) (finished_at : Q) : t :=
  let pl := match proxies with Some l => l | None => [] end in
  let s0 := {| proxy_list := pl;
               working_proxies := [];
               failed_proxies := [];
               last_validation := 0;
               validation_interval := 300 |} in
  match pl with
  | [] => s0
  | _ :: _ => _validate_proxies net finished_at s0
  end.

Definition add_proxy (proxy : string) (s : t) : t :=
  if bool_decide (proxy ∈ proxy_list s) then s
  else {| proxy_list := proxy_list s ++ [proxy];
          working_proxies := working_proxies s;
          failed_proxies := failed_proxies s;
          last_validation := last_validation s;
          validation_interval := validation_interval s |}.

(** [list.remove(x)]: drops the first occurrence of [x]. *)
Fixpoint list_remove (x : string) (l : list string) : list string :=
  match l with
  | [] => []
  | y :: rest => if decide (x = y) then rest else y :: list_remove x rest
  end.

(** [if proxy in l: l.remove(proxy)] *)
Definition discard (proxy : string) (l : list string) : list string :=
  if bool_decide (proxy ∈ l) then list_remove proxy l else l.

Definition remove_proxy (proxy : string) (s : t) : t :=
  {| proxy_list := discard proxy (proxy_list s);
     working_proxies := discard proxy (working_proxies s);
     failed_proxies := discard proxy (failed_proxies s);
     last_validation := last_validation s;
     validation_interval := validation_interval s |}.

Definition force_validation (net : network) (finished_at : Q) (s : t) : t :=
  _validate_proxies net finished_at s.

(** [random.choice(seq)]: [IndexError] on an empty sequence, otherwise the
    element at the index drawn by the generator ([rnd], reduced below
    [len(seq)]). *)
Definition random_choice (rnd : nat) (l : list string) : result string :=
  match l with
  | [] => Raise (IndexError "Cannot choose from an empty sequence")
  | x :: _ => Ok (nth (rnd mod length l) l x)
  end.

(** The returned dictionary [{'http': proxy, 'https': proxy}]. *)
Record proxy_dict : Type := ProxyDict { http : string; https : string }.

Definition get_proxy (net : network) (current_time finished_at : Q) (rnd : nat) (s : t)
  : result (option proxy_dict) * t :=
  match working_proxies s with
  | [] => (Ok None, s)
  | _ :: _ =>
      let s1 :=
        if Qlt_le_dec (validation_interval s) (current_time - last_validation s)
        then _validate_proxies net finished_at s
        else s in
      match random_choice rnd (working_proxies s1) with
      | Ok proxy => (Ok (Some {| http := proxy; https := proxy |}), s1)
      | Raise e => (Raise e, s1)
      end
  end.

(** The operations a client can apply to a constructed handler. *)
Inductive op : Type :=
| AddProxy (proxy : string)
| RemoveProxy (proxy : string)
| ForceValidation (net : network) (finished_at : Q)
| GetProxy (net : network) (current_time finished_at : Q) (rnd : nat).

Definition apply (o : op) (s : t) : t :=
  match o with
  | AddProxy p => add_proxy p s
  | RemoveProxy p => remove_proxy p s
  | ForceValidation net at_ => force_validation net at_ s
  | GetProxy net ct at_ rnd => snd (get_proxy net ct at_ rnd s)
  end.

Definition run (ops : list op) (s : t) : t :=
  fold_left (fun acc o => apply o acc) ops s.

(** The base pool is the union of the two partitions. *)
Definition pool_is_union (s : t) : Prop :=
  forall p, p ∈ proxy_list s <-> p ∈ working_proxies s \/ p ∈ failed_proxies s.

Definition partitions_in_pool (s : t) : Prop :=
  forall p, p ∈ working_proxies s \/ p ∈ failed_proxies s -> p ∈ proxy_list s.

Definition purged (p : string) (s : t) : Prop :=
  (p ∉ proxy_list s) /\ (p ∉ working_proxies s) /\ (p ∉ failed_proxies s).

(** The dictionary returned by [get_proxy_stats]. *)
Record proxy_stats : Type := ProxyStats {
  total_proxies : nat;
  working_count : nat;
  failed_count : nat;
  stats_last_validation : Q;
  working_list : list string;
  failed_list : list string
}.

Definition get_proxy_stats (s : t) : proxy_stats :=
  {| total_proxies := length (proxy_list s);
     working_count := length (working_proxies s);
     failed_count := length (failed_proxies s);
     stats_last_validation := last_validation s;
     working_list := working_proxies s;
     failed_list := failed_proxies s |}.

End ProxyHandler.

(** ** Dictionaries of the session managers

    [self.sessions] is iterated by [close_all], so it keeps Python's
    insertion order: an association list with unique keys.
    [self.session_stats] is only looked up, updated and summed: a [gmap]. *)

Section Dict.
Context {V : Type}.

Fixpoint dict_get (k : string) (d : list (string * V)) : option V :=
  match d with
  | [] => None
  | (k', v) :: rest => if decide (k = k') then Some v else dict_get k rest
  end.

(** [d[k] = v] *)
Fixpoint dict_set (k : string) (v : V) (d : list (string * V)) : list (string * V) :=
  match d with
  | [] => [(k, v)]
  | (k', v') :: rest =>
      if decide (k = k') then (k, v) :: rest else (k', v') :: dict_set k v rest
  end.

(** [del d[k]] for a key that is present. *)
Fixpoint dict_del (k : string) (d : list (string * V)) : list (string * V) :=
  match d with
  | [] => []
  | (k', v') :: rest =>
      if decide (k = k') then rest else (k', v') :: dict_del k rest
  end.

Definition dict_values (d : list (string * V)) : list V := map snd d.
End Dict.

(** The per-session record built by the [defaultdict] factory. *)
Record stats : Type := Stats {
  requests_made : Z;
  failures : Z;
  avg_response_time : Q;
  last_failure_time : option Q;
  consecutive_failures : Z;
  created_at : Q
}.

Definition default_stats (at_ : Q) : stats :=
  {| requests_made := 0; failures := 0; avg_response_time := 0;
     last_failure_time := None; consecutive_failures := 0; created_at := at_ |}.

(** [self.session_stats[session_id]] on a [defaultdict]: a missing key is
    filled by the factory. *)
Definition stats_of (session_id : string) (at_ : Q) (d : gmap string stats) : stats :=
  match d !! session_id with
  | Some st => st
  | None => default_stats at_
  end.

(** [sum(stats[field] for stats in self.session_stats.values())] *)
Definition sum_field (field : stats -> Z) (d : gmap string stats) : Z :=
  foldr Z.add 0%Z (map (fun kv => field (snd kv)) (map_to_list d)).

(** [total_failures / total_requests if total_requests > 0 else 0] *)
Definition failure_rate_of (d : gmap string stats) : Q :=
  let total_requests := sum_field requests_made d in
  let total_failures := sum_field failures d in
  if (0 <? total_requests)%Z
  then inject_Z total_failures / inject_Z total_requests
  else 0.

(** The three tiers of [_calculate_adaptive_retries], the same in both
    managers. *)
Definition adaptive_retries (global_failure_rate : Q) (max_retries : Z) : Z :=
  if Qlt_le_dec global_failure_rate (1 # 10) then Z.max 1 (max_retries - 1)
  else if Qlt_le_dec global_failure_rate (3 # 10) then max_retries
  else Z.min (max_retries + 2) 10.

(** The exponential moving average of the response time. *)
Definition ema (avg response_time : Q) : Q :=
  if Qeq_bool avg 0 then response_time
  else (7 # 10) * avg + (3 # 10) * response_time.

(** ** session_manager.py *)

Module SessionManager.

(** A [requests.Session] as the manager sees it: the retry strategy it
    was mounted with, and what its [close()] does. *)
Record session : Type := Session {
  retry_total : Z;
  retry_backoff_factor : Q;
  close : result unit
}.

Record t : Type := Make {
  max_connections : Z;
  max_retries : Z;
  sessions : list (string * session);
  session_stats : gmap string stats;
  global_failure_rate : Q;
  last_stats_update : Q
}.

Definition __init__ (max_connections max_retries : Z) (at_ : Q) : t :=
  {| max_connections := max_connections;
     max_retries := max_retries;
     sessions := [];
     session_stats := ∅;
     global_failure_rate := 0;
     last_stats_update := at_ |}.

Definition _calculate_adaptive_retries (m : t) : Z :=
  adaptive_retries (global_failure_rate m) (max_retries m).

Definition _calculate_adaptive_backoff (m : t) : Q :=
  if Qlt_le_dec (global_failure_rate m) (1 # 10) then 1 # 2
  else if Qlt_le_dec (global_failure_rate m) (3 # 10) then 1
  else 2.

(** [closes] is how the new [requests.Session] will answer [close()]. *)
Definition _create_session (closes : result unit) (m : t) : session :=
  {| retry_total := _calculate_adaptive_retries m;
     retry_backoff_factor := _calculate_adaptive_backoff m;
     close := closes |}.

Definition with_sessions (ss : list (string * session)) (m : t) : t :=
  {| max_connections := max_connections m;
     max_retries := max_retries m;
     sessions := ss;
     session_stats := session_stats m;
     global_failure_rate := global_failure_rate m;
     last_stats_update := last_stats_update m |}.

Definition with_stats (d : gmap string stats) (rate upd : Q) (m : t) : t :=
  {| max_connections := max_connections m;
     max_retries := max_retries m;
     sessions := sessions m;
     session_stats := d;
     global_failure_rate := rate;
     last_stats_update := upd |}.

Definition get_session (closes : result unit) (session_id : string) (at_ : Q) (m : t)
  : option session * t :=
  let m1 :=
    match dict_get session_id (sessions m) with
    | Some _ => m
    | None =>
        let st := stats_of session_id at_ (session_stats m) in
        with_stats
          (<[session_id := {| requests_made := requests_made st;
                              failures := failures st;
                              avg_response_time := avg_response_time st;
                              last_failure_time := last_failure_time st;
                              consecutive_failures := consecutive_failures st;
                              created_at := at_ |}]> (session_stats m))
          (global_failure_rate m) (last_stats_update m)
          (with_sessions (dict_set session_id (_create_session closes m) (sessions m)) m)
    end in
  (dict_get session_id (sessions m1), m1).

Definition close_session (session_id : string) (m : t) : result unit * t :=
  match dict_get session_id (sessions m) with
  | Some s =>
      match close s with
      | Ok _ => (Ok tt, with_sessions (dict_del session_id (sessions m)) m)
      | Raise e => (Raise e, m)
      end
  | None => (Ok tt, m)
  end.

(** [for session in self.sessions.values(): session.close()] *)
Fixpoint close_each (ss : list session) : result unit :=
  match ss with
  | [] => Ok tt
  | s :: rest =>
      match close s with
      | Ok _ => close_each rest
      | Raise e => Raise e
      end
  end.

Definition close_all (m : t) : result unit * t :=
  match close_each (dict_values (sessions m)) with
  | Ok _ => (Ok tt, with_sessions [] m)
  | Raise e => (Raise e, m)
  end.

Definition _update_global_failure_rate (m : t) : t :=
  with_stats (session_stats m) (failure_rate_of (session_stats m))
             (last_stats_update m) m.

(** The response handed to the hook: its status code and, when the
    attribute exists, [response.elapsed.total_seconds()]. *)
Record response : Type := Response { status_code : Z; elapsed : option Q }.

Definition _monitor_response (r : response) (session_id : string) (at_ : Q) (m : t) : t :=
  let st := stats_of session_id at_ (session_stats m) in
  let avg := match elapsed r with
             | Some response_time => ema (avg_response_time st) response_time
             | None => avg_response_time st
             end in
  let st' :=
    if (400 <=? status_code r)%Z
    then {| requests_made := requests_made st + 1;
            failures := failures st + 1;
            avg_response_time := avg;
            last_failure_time := Some at_;
            consecutive_failures := consecutive_failures st + 1;
            created_at := created_at st |}
    else {| requests_made := requests_made st + 1;
            failures := failures st;
            avg_response_time := avg;
            last_failure_time := last_failure_time st;
            consecutive_failures := 0;
            created_at := created_at st |} in
  let m1 := with_stats (<[session_id := st']> (session_stats m))
                       (global_failure_rate m) (last_stats_update m) m in
  if Qlt_le_dec 60 (at_ - last_stats_update m)
  then with_stats (session_stats m1) (failure_rate_of (session_stats m1)) at_ m1
  else m1.

(** What [get_health_status] (and [get_session_stats], which calls it)
    leaves behind in the manager. *)
Definition get_health_status (m : t) : t := _update_global_failure_rate m.

(** The events that touch the statistics: a session is looked up, a
    response is recorded, the rate is refreshed. *)
Inductive event : Type :=
| GetSession (closes : result unit) (session_id : string) (at_ : Q)
| MonitorResponse (r : response) (session_id : string) (at_ : Q)
| GetHealthStatus.

Definition apply (e : event) (m : t) : t :=
  match e with
  | GetSession closes sid at_ => snd (get_session closes sid at_ m)
  | MonitorResponse r sid at_ => _monitor_response r sid at_ m
  | GetHealthStatus => get_health_status m
  end.

Definition run (es : list event) (m : t) : t :=
  fold_left (fun acc e => apply e acc) es m.

End SessionManager.

(** ** async_session_manager.py *)

Module AsyncSessionManager.

(** An [aiohttp.ClientSession] and its [TCPConnector] as the manager sees
    them: what awaiting their [close()] does. *)
Record session : Type := Session { close : result unit }.
Record connector : Type := Connector { connector_close : result unit }.

Record t : Type := Make {
  max_connections : Z;
  max_retries : Z;
  concurrent_limit : Z;
  sessions : list (string * session);
  session_stats : gmap string stats;
  global_failure_rate : Q;
  last_stats_update : Q;
  _connector_cache : list (string * connector)
}.

Definition __init__ (max_connections max_retries concurrent_limit : Z) (at_ : Q) : t :=
  {| max_connections := max_connections;
     max_retries := max_retries;
     concurrent_limit := concurrent_limit;
     sessions := [];
     session_stats := ∅;
     global_failure_rate := 0;
     last_stats_update := at_;
     _connector_cache := [] |}.

Definition _calculate_adaptive_retries (m : t) : Z :=
  adaptive_retries (global_failure_rate m) (max_retries m).

Definition _calculate_adaptive_backoff (m : t) : Q :=
  if Qlt_le_dec (global_failure_rate m) (1 # 10) then 3 # 10
  else if Qlt_le_dec (global_failure_rate m) (3 # 10) then 1 # 2
  else 1.

Definition with_handles (ss : list (string * session)) (cs : list (string * connector))
  (m : t) : t :=
  {| max_connections := max_connections m;
     max_retries := max_retries m;
     concurrent_limit := concurrent_limit m;
     sessions := ss;
     session_stats := session_stats m;
     global_failure_rate := global_failure_rate m;
     last_stats_update := last_stats_update m;
     _connector_cache := cs |}.

Definition with_stats (d : gmap string stats) (rate upd : Q) (m : t) : t :=
  {| max_connections := max_connections m;
     max_retries := max_retries m;
     concurrent_limit := concurrent_limit m;
     sessions := sessions m;
     session_stats := d;
     global_failure_rate := rate;
     last_stats_update := upd;
     _connector_cache := _connector_cache m |}.

(** [fresh] is the session and connector that aiohttp hands out when a new
    one has to be created. *)
Definition get_session (fresh : session * connector) (session_id : string) (at_ : Q) (m : t)
  : option session * t :=
  let m1 :=
    match dict_get session_id (sessions m) with
    | Some _ => m
    | None =>
        let st := stats_of session_id at_ (session_stats m) in
        with_stats
          (<[session_id := {| requests_made := requests_made st;
                              failures := failures st;
                              avg_response_time := avg_response_time st;
                              last_failure_time := last_failure_time st;
                              consecutive_failures := consecutive_failures st;
                              created_at := at_ |}]> (session_stats m))
          (global_failure_rate m) (last_stats_update m)
          (with_handles (dict_set session_id (fst fresh) (sessions m))
                        (dict_set session_id (snd fresh) (_connector_cache m)) m)
    end in
  (dict_get session_id (sessions m1), m1).

Definition _update_global_failure_rate (m : t) : t :=
  with_stats (session_stats m) (failure_rate_of (session_stats m))
             (last_stats_update m) m.

(** An aiohttp response as far as [make_request] reads it. *)
Record response : Type := Response {
  status : Z;
  headers : list (string * string);
  text : string;
  url : string
}.

Definition _monitor_response (r : response) (session_id : string)
  (response_time at_ : Q) (m : t) : t :=
  let st := stats_of session_id at_ (session_stats m) in
  let avg := ema (avg_response_time st) response_time in
  let st' :=
    if (400 <=? status r)%Z
    then {| requests_made := requests_made st + 1;
            failures := failures st + 1;
            avg_response_time := avg;
            last_failure_time := Some at_;
            consecutive_failures := consecutive_failures st + 1;
            created_at := created_at st |}
    else {| requests_made := requests_made st + 1;
            failures := failures st;
            avg_response_time := avg;
            last_failure_time := last_failure_time st;
            consecutive_failures := 0;
            created_at := created_at st |} in
  let m1 := with_stats (<[session_id := st']> (session_stats m))
                       (global_failure_rate m) (last_stats_update m) m in
  if Qlt_le_dec 30 (at_ - last_stats_update m)
  then with_stats (session_stats m1) (failure_rate_of (session_stats m1)) at_ m1
  else m1.

Definition _monitor_failure (session_id : string) (error : string) (at_ : Q) (m : t) : t :=
  let st := stats_of session_id at_ (session_stats m) in
  let st' := {| requests_made := requests_made st;
                failures := failures st + 1;
                avg_response_time := avg_response_time st;
                last_failure_time := Some at_;
                consecutive_failures := consecutive_failures st + 1;
                created_at := created_at st |} in
  _update_global_failure_rate
    (with_stats (<[session_id := st']> (session_stats m))
                (global_failure_rate m) (last_stats_update m) m).

(** What one [session.request(...)] does: it answers, times out
    ([asyncio.TimeoutError]) or raises another [Exception]. *)
Inductive attempt : Type :=
| Responds (r : response)
| TimesOut
| Fails (msg : string).

(** The transport: the outcome of the attempt issued after [k] failures,
    and how long it took. *)
Definition transport : Type := Z -> Q * attempt.

(** The dictionary returned on success. *)
Record reply : Type := Reply {
  reply_status_code : Z;
  reply_headers : list (string * string);
  reply_content : string;
  reply_url : string;
  reply_response_time : Q
}.

(** What a call of [make_request] leaves behind: its outcome, the manager,
    the number of [session.request] calls issued and the clock (whose
    [slept] holds the backoff sleeps). *)
Record run : Type := Run {
  outcome : result reply;
  manager : t;
  attempts : nat;
  clk : clock
}.

Definition max_retries_message (n : Z) (url : string) : string :=
  "Max retries (" +:+ pretty n +:+ ") exceeded for " +:+ url.

(** The [while retries <= adaptive_retries] loop of one task (the
    semaphore only delays its start).  [fuel] bounds the number of loop
    tests; [None] means the bound was too small. *)
Fixpoint request_loop (fuel : nat) (tr : transport) (session_id url : string)
  (start_time : Q) (adaptive_retries : Z) (retries : Z) (made : nat)
  (m : t) (c : clock) : option run :=
  match fuel with
  | O => None
  | S fuel' =>
      if (retries <=? adaptive_retries)%Z then
        let '(took, a) := tr retries in
        let c1 := elapse took c in
        match a with
        | Responds r =>
            let response_time := now c1 - start_time in
            let m1 := _monitor_response r session_id response_time (now c1) m in
            Some {| outcome := Ok {| reply_status_code := status r;
                                     reply_headers := headers r;
                                     reply_content := text r;
                                     reply_url := AsyncSessionManager.url r;
                                     reply_response_time := response_time |};
                    manager := m1; attempts := S made; clk := c1 |}
        | TimesOut =>
            let retries' := (retries + 1)%Z in
            if (retries' <=? adaptive_retries)%Z then
              let backoff := inject_Z (2 ^ retries') * _calculate_adaptive_backoff m in
              request_loop fuel' tr session_id url start_time adaptive_retries
                           retries' (S made) m (time_sleep backoff c1)
            else
              Some {| outcome := Raise TimeoutError;
                      manager := m; attempts := S made; clk := c1 |}
        | Fails msg =>
            let retries' := (retries + 1)%Z in
            if (retries' <=? adaptive_retries)%Z then
              let backoff := inject_Z (2 ^ retries') * _calculate_adaptive_backoff m in
              request_loop fuel' tr session_id url start_time adaptive_retries
                           retries' (S made) m (time_sleep backoff c1)
            else
              Some {| outcome := Raise (Exception msg);
                      manager := _monitor_failure session_id msg (now c1) m;
                      attempts := S made; clk := c1 |}
        end
      else
        Some {| outcome := Raise (Exception (max_retries_message adaptive_retries url));
                manager := m; attempts := made; clk := c |}
  end.

Definition make_request (fuel : nat) (fresh : session * connector) (tr : transport)
  (session_id method url : string) (m : t) (c : clock) : option run :=
  let '(_, m1) := get_session fresh session_id (now c) m in
  request_loop fuel tr session_id url (now c) (_calculate_adaptive_retries m1) 0 0 m1 c.

(** Loop tests needed by [make_request] on manager [m]. *)
Definition enough_fuel (m : t) : nat :=
  Z.to_nat (_calculate_adaptive_retries m) + 2.

Definition close_session (session_id : string) (m : t) : result unit * t :=
  match dict_get session_id (sessions m) with
  | Some s =>
      match close s with
      | Raise e => (Raise e, m)
      | Ok _ =>
          let m1 := with_handles (dict_del session_id (sessions m)) (_connector_cache m) m in
          match dict_get session_id (_connector_cache m1) with
          | Some k =>
              match connector_close k with
              | Raise e => (Raise e, m1)
              | Ok _ => (Ok tt, with_handles (sessions m1)
                                   (dict_del session_id (_connector_cache m1)) m1)
              end
          | None => (Ok tt, m1)
          end
      end
  | None => (Ok tt, m)
  end.

(** [try: await x.close() / except Exception: pass] over a list of
    handles: every outcome is discarded. *)
Fixpoint close_quietly {A} (close_of : A -> result unit) (l : list A) : result unit :=
  match l with
  | [] => Ok tt
  | x :: rest =>
      match close_of x with
      | Ok _ | Raise _ => close_quietly close_of rest
      end
  end.

Definition close_all (m : t) : result unit * t :=
  match close_quietly close (dict_values (sessions m)) with
  | Raise e => (Raise e, m)
  | Ok _ =>
      match close_quietly connector_close (dict_values (_connector_cache m)) with
      | Raise e => (Raise e, m)
      | Ok _ => (Ok tt, with_handles [] [] m)
      end
  end.

End AsyncSessionManager.

(** ** async_scraper.py *)

Module AsyncBongoCat.

(** Values stored in a result dictionary. *)
Inductive value : Type :=
| VNone
| VStr (s : string)
| VInt (n : Z)
| VFloat (x : Q)
| VHeaders (h : list (string * string))
| VObject (id : nat).            (* the soup and the extracted data *)

(** A result dictionary, keys in insertion order. *)
Definition record : Type := list (string * value).

(** What the request and the parsing produce for one URL when nothing
    raises. *)
Record page : Type := Page {
  status_code : Z;
  headers : list (string * string);
  content : string;
  soup : nat;
  data : nat;
  response_time : Q
}.

(** What one task meets: the outcome of [_async_rate_limit], of the fetch
    strategy ([session_manager.make_request] or the browser, followed by
    parsing), and the clock reading used for its time stamp. *)
Record task_env : Type := TaskEnv {
  rate_limit : result unit;
  fetch : result page;
  stamp : Q
}.

Definition _scrape_with_requests (env : task_env) (url : string) : result record :=
  match fetch env with
  | Ok p =>
      Ok [("url", VStr url); ("status", VStr "success");
          ("status_code", VInt (status_code p));
          ("headers", VHeaders (headers p));
          ("content", VStr (content p));
          ("soup", VObject (soup p));
          ("data", VObject (data p));
          ("response_time", VFloat (response_time p));
          ("timestamp", VFloat (stamp env))]
  | Raise e => Raise e
  end.

Definition _scrape_with_browser (env : task_env) (url : string) : result record :=
  match fetch env with
  | Ok p =>
      Ok [("url", VStr url); ("status", VStr "success");
          ("content", VStr (content p));
          ("soup", VObject (soup p));
          ("data", VObject (data p));
          ("timestamp", VFloat (stamp env))]
  | Raise e => Raise e
  end.

(** The dictionary built by [scrape] in its [except Exception] clause. *)
Definition scrape_error (env : task_env) (url : string) (e : exn) : record :=
  [("url", VStr url); ("status", VStr "error"); ("error", VStr (str e));
   ("data", VNone); ("timestamp", VFloat (stamp env))].

(** [scrape]: the rate limiter is awaited outside the [try]. *)
Definition scrape (use_browser : bool) (env : task_env) (url : string) : result record :=
  match rate_limit env with
  | Raise e => Raise e
  | Ok _ =>
      match (if use_browser then _scrape_with_browser env url
             else _scrape_with_requests env url) with
      | Ok r => Ok r
      | Raise e => Ok (scrape_error env url e)
      end
  end.

(** The dictionary built by [scrape_multiple] for a task that raised. *)
Definition gather_error (url : string) (e : exn) (at_ : Q) : record :=
  [("url", VStr url); ("status", VStr "error"); ("error", VStr (str e));
   ("timestamp", VFloat at_)].

(** [asyncio.gather] with [return_exceptions=True]: the outcome of every
    awaitable, in the order of the awaitables. *)
Fixpoint gather (use_browser : bool) (envs : nat -> task_env) (i : nat) (urls : list string)
  : list (result record) :=
  match urls with
  | [] => []
  | u :: rest => scrape use_browser (envs i) u :: gather use_browser envs (S i) rest
  end.

(** [urls[i]] *)
Definition index (urls : list string) (i : nat) : result string :=
  match urls !! i with
  | Some u => Ok u
  | None => Raise (IndexError "list index out of range")
  end.

(** [for i, result in enumerate(results)]; [at_] is the clock reading of
    the error records. *)
Fixpoint process (urls : list string) (at_ : Q) (i : nat) (results : list (result record))
  (processed : list record) : result (list record) :=
  match results with
  | [] => Ok processed
  | Ok r :: rest => process urls at_ (S i) rest (processed ++ [r])
  | Raise e :: rest =>
      match index urls i with
      | Ok u => process urls at_ (S i) rest (processed ++ [gather_error u e at_])
      | Raise e' => Raise e'
      end
  end.

Definition scrape_multiple (use_browser : bool) (envs : nat -> task_env) (at_ : Q)
  (urls : list string) : result (list record) :=
  match urls with
  | [] => Ok []
  | _ :: _ => process urls at_ 0 (gather use_browser envs 0 urls) []
  end.

Definition field (k : string) (r : record) : option value := dict_get k r.

(** A [Failure] for [url] with message [msg]; a [Success] for [url]. *)
Definition is_failure (url msg : string) (r : record) : Prop :=
  field "url" r = Some (VStr url) /\ field "status" r = Some (VStr "error")
  /\ field "error" r = Some (VStr msg).

Definition is_success (url : string) (r : record) : Prop :=
  field "url" r = Some (VStr url) /\ field "status" r = Some (VStr "success").

End AsyncBongoCat.

(** ** Sequences of calls on a rate limiter *)

Module RateLimiterCalls.
Import RateLimiter.

(** The public methods of [RateLimiter] that change the limiter or the
    clock. *)
Inductive call : Type :=
| Wait (l : latency)
| EnableAdaptiveMode
| DisableAdaptiveMode
| ReportSuccess
| ReportFailure (status_code : option Z)
| SetRate (requests_per_second : Q).

Definition perform (k : call) (sc : t * clock) : t * clock :=
  let '(s, c) := sc in
  match k with
  | Wait l => wait l s c
  | EnableAdaptiveMode => (enable_adaptive_mode s, c)
  | DisableAdaptiveMode => (disable_adaptive_mode s, c)
  | ReportSuccess => (report_success s, c)
  | ReportFailure code => (report_failure code s, c)
  | SetRate r => (set_rate r s, c)
  end.

Definition perform_all (ks : list call) (sc : t * clock) : t * clock :=
  fold_left (fun acc k => perform k acc) ks sc.

(** A clock on which nothing has slept yet. *)
Definition clock_at (t0 : Q) : clock := {| now := t0; slept := [] |}.

End RateLimiterCalls.

(** ** Health report of the synchronous manager *)

Module SessionManagerReport.
Import SessionManager.

(** One entry of [session_details]: the statistics with the derived
    [failure_rate], [is_healthy] and [uptime]. *)
Record session_health : Type := SessionHealth {
  health_stats : stats;
  failure_rate : Q;
  is_healthy : bool;
  uptime : Q
}.

(** [stats['failures'] / max(stats['requests_made'], 1)] *)
Definition session_failure_rate (st : stats) : Q :=
  inject_Z (failures st) / inject_Z (Z.max (requests_made st) 1).

Definition health_of (at_ : Q) (st : stats) : session_health :=
  let rate := session_failure_rate st in
  {| health_stats := st;
     failure_rate := rate;
     is_healthy :=
       (if Qlt_le_dec rate (1 # 2) then true else false)
       && (consecutive_failures st <? 5)%Z
       && (if Qlt_le_dec (avg_response_time st) 30 then true else false);
     uptime := at_ - created_at st |}.

(** The dictionary returned by [get_health_status]. *)
Record health_status : Type := HealthStatus {
  reported_failure_rate : Q;
  active_sessions : nat;
  healthy_sessions : nat;
  session_details : gmap string session_health
}.

(** [get_health_status]: the report, and the manager with its refreshed
    rate. *)
Definition get_health_status_report (at_ : Q) (m : t) : health_status * t :=
  let m1 := _update_global_failure_rate m in
  let details := health_of at_ <$> session_stats m1 in
  ({| reported_failure_rate := global_failure_rate m1;
      active_sessions := length (sessions m1);
      healthy_sessions :=
        length (filter (fun kv => is_healthy (snd kv) = true) (map_to_list details));
      session_details := details |},
   m1).

(** Every public method of the manager that changes it. *)
Inductive call : Type :=
| GetSession (closes : result unit) (session_id : string) (at_ : Q)
| CloseSession (session_id : string)
| CloseAll
| MonitorResponse (r : response) (session_id : string) (at_ : Q)
| GetHealthStatus (at_ : Q).

Definition perform (k : call) (m : t) : t :=
  match k with
  | GetSession closes sid at_ => snd (get_session closes sid at_ m)
  | CloseSession sid => snd (close_session sid m)
  | CloseAll => snd (close_all m)
  | MonitorResponse r sid at_ => _monitor_response r sid at_ m
  | GetHealthStatus at_ => snd (get_health_status_report at_ m)
  end.

Definition perform_all (ks : list call) (m : t) : t :=
  fold_left (fun acc k => perform k acc) ks m.

End SessionManagerReport.

(** ** async_session_manager.py: make_concurrent_requests *)

Module ConcurrentRequests.
Import AsyncSessionManager.

(** A request dictionary: the keys [make_concurrent_requests] reads, each
    present or not. *)
Record request : Type := Request {
  req_url : option string;
  req_session_id : option string;
  req_method : option string
}.

(** The arguments of the [make_request] call built for one request. *)
Record task : Type := Task {
  task_session_id : string;
  task_method : string;
  task_url : string
}.



(** An entry of the returned list: the error dictionary, or the reply
    dictionary with ['status': 'success'] and a time stamp added. *)
Inductive processed : Type :=
| Failed (url error : string) (timestamp : Q)
| Succeeded (r : reply) (timestamp : Q).

(** What awaiting the [make_request] of task number [i] gives. *)
Definition outcomes : Type := nat -> task -> result reply.

Fixpoint gather (out : outcomes) (i : nat) (tasks : list task) : list (result reply) :=
  match tasks with
  | [] => []
  | t :: rest => out i t :: gather out (S i) rest
  end.

(** [requests[i]['url']] *)
Definition url_of (reqs : list request) (i : nat) : result string :=
  match reqs !! i with
  | None => Raise (IndexError "list index out of range")
  | Some req =>
      match req_url req with
      | None => Raise (Exception "'url'")
      | Some u => Ok u
      end
  end.

Fixpoint process (reqs : list request) (at_ : Q) (i : nat) (results : list (result reply))
  (acc : list processed) : result (list processed) :=
  match results with
  | [] => Ok acc
  | Ok r :: rest => process reqs at_ (S i) rest (acc ++ [Succeeded r at_])
  | Raise e :: rest =>
      match url_of reqs i with
      | Ok u => process reqs at_ (S i) rest (acc ++ [Failed u (str e) at_])
      | Raise e' => Raise e'
      end
  end.


End ConcurrentRequests.

(** ** async_scraper.py: scrape_with_concurrency_control *)

Module AsyncBongoCatBatches.
Import AsyncBongoCat.

(** [urls[i:i + batch_size]] for a positive [batch_size]. *)
Definition slice (urls : list string) (i batch_size : nat) : list string :=
  take batch_size (drop i urls).

(** The loop [for i in range(0, len(urls), batch_size)] for a positive
    [batch_size].  Task [j] of the batch that starts at [i] is task
    [i + j] of the whole run; [stamps i] is the clock reading of that
    batch's error records.  [fuel] bounds the number of loop tests. *)
Fixpoint batch_loop (fuel : nat) (use_browser : bool) (envs : nat -> task_env)
  (stamps : nat -> Q) (urls : list string) (batch_size i : nat)
  (all_results : list record) (c : clock) : option (result (list record) * clock) :=
  match fuel with
  | O => None
  | S fuel' =>
      if (i <? length urls)%nat then
        match scrape_multiple use_browser (fun j => envs (i + j)%nat) (stamps i)
                (slice urls i batch_size) with
        | Raise e => Some (Raise e, c)
        | Ok batch_results =>
            let c' := if (i + batch_size <? length urls)%nat
                      then time_sleep (1 # 2) c else c in
            batch_loop fuel' use_browser envs stamps urls batch_size (i + batch_size)
                       (all_results ++ batch_results) c'
        end
      else Some (Ok all_results, c)
  end.

(** [range(0, n, 0)] raises [ValueError]; with a negative step it is
    empty. *)
Definition scrape_with_concurrency_control (fuel : nat) (use_browser : bool)
  (envs : nat -> task_env) (stamps : nat -> Q) (batch_size : Z) (urls : list string)
  (c : clock) : option (result (list record) * clock) :=
  match urls with
  | [] => Some (Ok [], c)
  | _ :: _ =>
      if (batch_size =? 0)%Z
      then Some (Raise (ValueError "range() arg 3 must not be zero"), c)
      else if (batch_size <? 0)%Z then Some (Ok [], c)
      else batch_loop fuel use_browser envs stamps urls (Z.to_nat batch_size) 0 [] c
  end.

End AsyncBongoCatBatches.

(** ** async_scraper.py and scraper.py: the browser driver pool

    [_get_available_driver_async] and [_release_driver_async] of
    [AsyncBongoCat] are, statement for statement, [_get_available_driver]
    and [_release_driver] of [BongoCat].  A driver is named by its
    position in [driver_pool]; the pool keeps its [in_use] flag. *)

Module DriverPool.

Record t : Type := Make {
  driver_pool : list bool;
  current_driver_index : nat
}.

(** The [for _ in range(len(self.driver_pool))] loop, [n] rounds to go. *)
Fixpoint scan (n : nat) (s : t) : result (option nat) * t :=
  match n with
  | O => (Ok None, s)
  | S n' =>
      match (driver_pool s !! current_driver_index s : option bool) with
      | None => (Raise (IndexError "list index out of range"), s)
      | Some in_use =>
          let next := ((current_driver_index s + 1) mod length (driver_pool s))%nat in
          if in_use
          then scan n' {| driver_pool := driver_pool s; current_driver_index := next |}
          else (Ok (Some (current_driver_index s)),
                {| driver_pool := <[current_driver_index s := true]> (driver_pool s);
                   current_driver_index := next |})
      end
  end.

Definition _get_available_driver (s : t) : result nat * t :=
  match scan (length (driver_pool s)) s with
  | (Raise e, s') => (Raise e, s')
  | (Ok (Some k), s') => (Ok k, s')
  | (Ok None, s') =>
      match driver_pool s' !! 0%nat with
      | None => (Raise (IndexError "list index out of range"), s')
      | Some _ =>
          (Ok 0%nat, {| driver_pool := <[0%nat := true]> (driver_pool s');
                        current_driver_index := current_driver_index s' |})
      end
  end.

Definition _release_driver (k : nat) (s : t) : t :=
  {| driver_pool := <[k := false]> (driver_pool s);
     current_driver_index := current_driver_index s |}.

End DriverPool.

(** ** scraper.py: the sequential scraper *)

Module BongoCat.
Import AsyncBongoCat.

(** What scraping one URL meets: the latencies inside
    [rate_limiter.wait()], the outcome of the fetch strategy (request or
    browser, then parsing) and the time it takes. *)
Record task : Type := Task {
  latencies : RateLimiter.latency;
  fetched : result page;
  duration : Q
}.

(** The parts of the scraper that a scrape reads or changes. *)
Record t : Type := Make {
  rate_limiter : RateLimiter.t;
  use_browser : bool
}.

Definition _scrape_with_requests (k : task) (url : string) (at_ : Q) : result record :=
  match fetched k with
  | Ok p =>
      Ok [("url", VStr url); ("status", VStr "success");
          ("status_code", VInt (status_code p));
          ("headers", VHeaders (headers p));
          ("content", VStr (content p));
          ("soup", VObject (soup p));
          ("data", VObject (data p));
          ("timestamp", VFloat at_)]
  | Raise e => Raise e
  end.

Definition _scrape_with_browser (k : task) (url : string) (at_ : Q) : result record :=
  match fetched k with
  | Ok p =>
      Ok [("url", VStr url); ("status", VStr "success");
          ("content", VStr (content p));
          ("soup", VObject (soup p));
          ("data", VObject (data p));
          ("timestamp", VFloat at_)]
  | Raise e => Raise e
  end.

(** [scrape]: [self.rate_limiter.wait()], then the strategy inside
    [try]/[except Exception]. *)
Definition scrape (k : task) (url : string) (sc : t * clock) : result record * (t * clock) :=
  let '(s, c) := sc in
  let '(rl, c1) := RateLimiter.wait (latencies k) (rate_limiter s) c in
  let c2 := elapse (duration k) c1 in
  let s' := {| rate_limiter := rl; use_browser := use_browser s |} in
  match (if use_browser s then _scrape_with_browser k url (now c2)
         else _scrape_with_requests k url (now c2)) with
  | Ok r => (Ok r, (s', c2))
  | Raise e =>
      (Ok [("url", VStr url); ("status", VStr "error"); ("error", VStr (str e));
           ("data", VNone); ("timestamp", VFloat (now c2))],
       (s', c2))
  end.

(** [scrape_multiple]: the [for url in urls] loop; task [i] is what the
    [i]-th URL meets. *)
Fixpoint scrape_loop (tasks : nat -> task) (i : nat) (urls : list string)
  (results : list record) (sc : t * clock) : list record * (t * clock) :=
  match urls with
  | [] => (results, sc)
  | url :: rest =>
      match scrape (tasks i) url sc with
      | (Ok r, sc') => scrape_loop tasks (S i) rest (results ++ [r]) sc'
      | (Raise e, sc') =>
          scrape_loop tasks (S i) rest
            (results ++ [[("url", VStr url); ("status", VStr "error");
                          ("error", VStr (str e)); ("timestamp", VFloat (now (snd sc')))]])
            sc'
      end
  end.

Definition scrape_multiple (tasks : nat -> task) (urls : list string) (sc : t * clock)
  : list record * (t * clock) :=
  scrape_loop tasks 0 urls [] sc.

End BongoCat.

(** ** user_agent_rotator.py *)

Module UserAgentRotator.

(** The literal list assigned to [self.default_agents]. *)
Definition default_agent_list : list string := [
  "Mozilla/5.0 (Windows NT 10.0; Win64; x64) AppleWebKit/537.36 (KHTML, like Gecko) Chrome/120.0.0.0 Safari/537.36";
  "Mozilla/5.0 (Windows NT 10.0; Win64; x64) AppleWebKit/537.36 (KHTML, like Gecko) Chrome/119.0.0.0 Safari/537.36";
  "Mozilla/5.0 (Macintosh; Intel Mac OS X 10_15_7) AppleWebKit/537.36 (KHTML, like Gecko) Chrome/120.0.0.0 Safari/537.36";
  "Mozilla/5.0 (Macintosh; Intel Mac OS X 10_15_7) AppleWebKit/537.36 (KHTML, like Gecko) Chrome/119.0.0.0 Safari/537.36";
  "Mozilla/5.0 (Windows NT 10.0; Win64; x64; rv:121.0) Gecko/20100101 Firefox/121.0";
  "Mozilla/5.0 (Windows NT 10.0; Win64; x64; rv:120.0) Gecko/20100101 Firefox/120.0";
  "Mozilla/5.0 (Macintosh; Intel Mac OS X 10.15; rv:121.0) Gecko/20100101 Firefox/121.0";
  "Mozilla/5.0 (Macintosh; Intel Mac OS X 10.15; rv:120.0) Gecko/20100101 Firefox/120.0";
  "Mozilla/5.0 (Macintosh; Intel Mac OS X 10_15_7) AppleWebKit/605.1.15 (KHTML, like Gecko) Version/17.1 Safari/605.1.15";
  "Mozilla/5.0 (Macintosh; Intel Mac OS X 10_15_7) AppleWebKit/605.1.15 (KHTML, like Gecko) Version/17.0 Safari/605.1.15";
  "Mozilla/5.0 (Windows NT 10.0; Win64; x64) AppleWebKit/537.36 (KHTML, like Gecko) Chrome/120.0.0.0 Safari/537.36 Edg/120.0.0.0";
  "Mozilla/5.0 (Windows NT 10.0; Win64; x64) AppleWebKit/537.36 (KHTML, like Gecko) Chrome/119.0.0.0 Safari/537.36 Edg/119.0.0.0";
  "Mozilla/5.0 (X11; Linux x86_64) AppleWebKit/537.36 (KHTML, like Gecko) Chrome/120.0.0.0 Safari/537.36";
  "Mozilla/5.0 (X11; Linux x86_64) AppleWebKit/537.36 (KHTML, like Gecko) Chrome/119.0.0.0 Safari/537.36";
  "Mozilla/5.0 (Linux; Android 10; SM-G973F) AppleWebKit/537.36 (KHTML, like Gecko) Chrome/120.0.0.0 Mobile Safari/537.36";
  "Mozilla/5.0 (iPhone; CPU iPhone OS 17_1 like Mac OS X) AppleWebKit/605.1.15 (KHTML, like Gecko) Version/17.0 Mobile/15E148 Safari/604.1"
].

Record t : Type := Make {
  default_agents : list string;
  custom_agents : list string;
  all_agents : list string;
  usage_stats : gmap string Z
}.

(** [for agent in agents: self.usage_stats[agent] = 0] *)
Definition zero_all (agents : list string) (stats : gmap string Z) : gmap string Z :=
  foldl (fun acc agent => <[agent := 0%Z]> acc) stats agents.

(** [__init__]: [custom_agents or []], the concatenation, the counters. *)
Definition __init__ (custom : option (list string)) : t :=
  let custom_agents := default [] custom in
  let all_agents := default_agent_list ++ custom_agents in
  {| default_agents := default_agent_list;
     custom_agents := custom_agents;
     all_agents := all_agents;
     usage_stats := zero_all all_agents ∅ |}.

(** [str(KeyError(key))] for a key without quotes or escapes. *)
Definition key_error (key : string) : exn := Exception ("'" +:+ key +:+ "'").

(** [self.usage_stats[agent] += 1] *)
Definition count_use (agent : string) (s : t) : result t :=
  match usage_stats s !! agent with
  | None => Raise (key_error agent)
  | Some n =>
      Ok {| default_agents := default_agents s;
            custom_agents := custom_agents s;
            all_agents := all_agents s;
            usage_stats := <[agent := (n + 1)%Z]> (usage_stats s) |}
  end.

(** [agent = random.choice(agents); self.usage_stats[agent] += 1;
    return agent] *)
Definition pick (rnd : nat) (agents : list string) (s : t) : result string * t :=
  match ProxyHandler.random_choice rnd agents with
  | Raise e => (Raise e, s)
  | Ok agent =>
      match count_use agent s with
      | Raise e => (Raise e, s)
      | Ok s' => (Ok agent, s')
      end
  end.

Definition get_random_agent (rnd : nat) (s : t) : result string * t :=
  pick rnd (all_agents s) s.

(** [needle in agent] on strings. *)
Fixpoint starts_with (needle agent : string) : bool :=
  match needle, agent with
  | EmptyString, _ => true
  | String a needle', String b agent' =>
      if decide (a = b) then starts_with needle' agent' else false
  | String _ _, EmptyString => false
  end.

Fixpoint contains (needle agent : string) : bool :=
  starts_with needle agent
  || match agent with
     | EmptyString => false
     | String _ agent' => contains needle agent'
     end.

(** The conditions of the four list comprehensions. *)
Definition is_chrome (agent : string) : bool :=
  contains "Chrome" agent && negb (contains "Edg" agent).

Definition is_firefox (agent : string) : bool := contains "Firefox" agent.

Definition is_safari (agent : string) : bool :=
  contains "Safari" agent && negb (contains "Chrome" agent).

Definition is_mobile (agent : string) : bool :=
  contains "Mobile" agent || contains "Android" agent || contains "iPhone" agent.

(** The body shared by [get_chrome_agent], [get_firefox_agent],
    [get_safari_agent] and [get_mobile_agent]: a pick among the agents of
    the family, or [get_random_agent] when there is none. *)
Definition get_family_agent (family : string -> bool) (rnd : nat) (s : t)
  : result string * t :=
  match List.filter family (all_agents s) with
  | [] => get_random_agent rnd s
  | a :: rest => pick rnd (a :: rest) s
  end.

Definition get_chrome_agent : nat -> t -> result string * t := get_family_agent is_chrome.
Definition get_firefox_agent : nat -> t -> result string * t := get_family_agent is_firefox.
Definition get_safari_agent : nat -> t -> result string * t := get_family_agent is_safari.
Definition get_mobile_agent : nat -> t -> result string * t := get_family_agent is_mobile.

Definition add_custom_agent (user_agent : string) (s : t) : t :=
  if bool_decide (user_agent ∈ all_agents s) then s
  else {| default_agents := default_agents s;
          custom_agents := custom_agents s ++ [user_agent];
          all_agents := all_agents s ++ [user_agent];
          usage_stats := <[user_agent := 0%Z]> (usage_stats s) |}.

Definition remove_agent (user_agent : string) (s : t) : t :=
  {| default_agents := default_agents s;
     custom_agents := ProxyHandler.discard user_agent (custom_agents s);
     all_agents := ProxyHandler.discard user_agent (all_agents s);
     usage_stats := delete user_agent (usage_stats s) |}.

Definition reset_stats (s : t) : t :=
  {| default_agents := default_agents s;
     custom_agents := custom_agents s;
     all_agents := all_agents s;
     usage_stats := zero_all (all_agents s) (usage_stats s) |}.

(** The calls on a rotator. *)
Inductive call : Type :=
| GetRandomAgent (rnd : nat)
| GetFamilyAgent (family : string -> bool) (rnd : nat)
| AddCustomAgent (user_agent : string)
| RemoveAgent (user_agent : string)
| ResetStats.

Definition perform (k : call) (s : t) : t :=
  match k with
  | GetRandomAgent rnd => snd (get_random_agent rnd s)
  | GetFamilyAgent family rnd => snd (get_family_agent family rnd s)
  | AddCustomAgent ua => add_custom_agent ua s
  | RemoveAgent ua => remove_agent ua s
  | ResetStats => reset_stats s
  end.

Definition perform_all (ks : list call) (s : t) : t :=
  fold_left (fun acc k => perform k acc) ks s.

End UserAgentRotator.

(** * Vocabulary of the properties

    Invariants, environments and sample objects that the statements
    below are written with. *)

Section ProxyVocabulary.
Import ProxyHandler.

(** Number of occurrences of [p] in a pool. *)
Fixpoint occ (p : string) (l : list string) : nat :=
  match l with
  | [] => 0
  | q :: rest => (if decide (q = p) then 1 else 0) + occ p rest
  end.

(** Every occurrence held by a partition is backed by an occurrence in
    the base pool. *)
Definition backed (s : t) : Prop :=
  forall p, (occ p (working_proxies s) <= occ p (proxy_list s))%nat
            /\ (occ p (failed_proxies s) <= occ p (proxy_list s))%nat.

Definition proxy_a : string := "http://10.0.0.1:8080".

Definition proxy_b : string := "http://10.0.0.2:8080".

(** A network on which every probe answers 200, and one on which every
    probe raises. *)
Definition all_up : network := fun _ _ => Status 200.

Definition all_down : network := fun _ _ => ProbeError.

End ProxyVocabulary.

Section ManagerVocabulary.

(** A synchronous manager whose last refresh left the given rate. *)
Definition sync_at (rate : Q) : SessionManager.t :=
  SessionManager.with_stats ∅ rate 0 (SessionManager.__init__ 10 3 0).

Definition broken_pool : result unit := Raise (Exception "connection pool is closed").

(** A synchronous manager holding one session whose [close()] raises. *)
Definition with_broken_session : SessionManager.t :=
  snd (SessionManager.get_session broken_pool "default" 0 (SessionManager.__init__ 10 3 0)).

(** Every session has failed at most as often as it was counted. *)
Definition stats_sound (d : gmap string stats) : Prop :=
  forall sid st, d !! sid = Some st -> (0 <= failures st <= requests_made st)%Z.

(** The invariant of the synchronous manager. *)
Definition sync_inv (m : SessionManager.t) : Prop :=
  stats_sound (SessionManager.session_stats m)
  /\ 0 <= SessionManager.global_failure_rate m <= 1.

Import AsyncSessionManager.

(** An async manager whose last refresh left the given rate. *)
Definition async_at (rate : Q) (max_retries : Z) : t :=
  with_stats ∅ rate 0 (__init__ 50 max_retries 100 0).

(** A transport on which no attempt is answered. *)
Definition always_failing (tr : transport) : Prop :=
  forall k, match snd (tr k) with Responds _ => False | _ => True end.

Definition refused : transport := fun _ => (1 # 10, Fails "connection refused").

Definition answers : transport :=
  fun _ => (1 # 10, Responds {| status := 200; headers := []; text := "ok";
                                url := "http://example.org" |}).

Definition new_handles : session * connector :=
  ({| close := Ok tt |}, {| connector_close := Ok tt |}).

Definition midnight : clock := {| now := 0; slept := [] |}.

(** One more [make_request] on the manager and clock left by the previous
    one. *)
Definition request (tr : transport) (before : option run) : option run :=
  match before with
  | Some x => make_request 10 new_handles tr "default" "GET" "http://example.org"
                (manager x) (clk x)
  | None => None
  end.

(** A new manager on which nothing has been requested yet. *)
Definition new_run : option run :=
  Some {| outcome := Raise TimeoutError; manager := __init__ 50 3 100 0;
          attempts := 0; clk := midnight |}.

End ManagerVocabulary.

Section BatchVocabulary.
Import AsyncBongoCat.

(** The record that ends up in the batch result for task [i] on [u]: it
    is read off that task's own outcome. *)
Definition settle (use_browser : bool) (envs : nat -> task_env) (at_ : Q)
  (i : nat) (u : string) : record :=
  match scrape use_browser (envs i) u with
  | Ok r => r
  | Raise e => gather_error u e at_
  end.

Fixpoint settle_from (use_browser : bool) (envs : nat -> task_env) (at_ : Q)
  (i : nat) (urls : list string) : list record :=
  match urls with
  | [] => []
  | u :: rest =>
      settle use_browser envs at_ i u :: settle_from use_browser envs at_ (S i) rest
  end.

Definition fine : task_env :=
  {| rate_limit := Ok tt;
     fetch := Ok {| status_code := 200; headers := []; content := "<html></html>";
                    soup := 1; data := 2; response_time := 1 # 4 |};
     stamp := 10 |}.

Definition failing : task_env :=
  {| rate_limit := Ok tt;
     fetch := Raise (Exception "Max retries (2) exceeded for u2");
     stamp := 11 |}.

(** A fetch stub that fails for the second task only. *)
Definition only_second_fails (i : nat) : task_env :=
  match i with 1%nat => failing | _ => fine end.

End BatchVocabulary.

Section LimiterVocabulary.
Import RateLimiter RateLimiterCalls.

(** The quantities that [wait] hands to [time.sleep] are never negative,
    and the success streak is below the threshold of 5. *)
Definition limiter_sane (sc : t * clock) : Prop :=
  0 <= min_interval (fst sc) /\ 0 <= current_delay (fst sc)
  /\ (0 <= success_count (fst sc) < 5)%Z
  /\ Forall (Qle 0) (slept (snd sc)).

(** Time stamps in the order in which they were taken. *)
Fixpoint ascending (l : list Q) : Prop :=
  match l with
  | [] => True
  | x :: rest => Forall (Qle x) rest /\ ascending rest
  end.

(** The burst window: at most [2 * burst_limit] stamps, oldest first, none
    from the future, all less than a second older than the newest. *)
Definition window_ok (sc : t * clock) : Prop :=
  let rt := request_times (fst sc) in
  (Z.of_nat (length rt) <= burst_limit (fst sc) * 2)%Z
  /\ ascending rt
  /\ Forall (fun x => x <= now (snd sc)) rt
  /\ forall newest, last rt = Some newest -> Forall (fun x => newest - x < 1) rt.

(** No call changes the rate. *)
Definition keeps_rate (k : call) : Prop :=
  match k with SetRate _ => False | _ => True end.

(** Every [wait] meets non-negative latencies. *)
Definition call_ok (k : call) : Prop :=
  match k with Wait l => latency_ok l | _ => True end.

End LimiterVocabulary.

Section ProxyCallsVocabulary.
Import ProxyHandler.

(** The call is a [get_proxy]. *)
Definition is_get_proxy (o : op) : Prop :=
  match o with GetProxy _ _ _ _ => True | _ => False end.

End ProxyCallsVocabulary.

Section SessionVocabulary.

(** The keys of a dictionary are pairwise different. *)
Definition dict_keys_unique {V} (d : list (string * V)) : Prop := NoDup (map fst d).

(** The counters of one session fit together. *)
Definition counters_consistent (st : stats) : Prop :=
  (0 <= consecutive_failures st <= failures st)%Z
  /\ (failures st <= requests_made st)%Z.

(** Every response time handed to the monitor lies in [[0, bound]]. *)
Definition elapsed_within (bound : Q) (k : SessionManagerReport.call) : Prop :=
  match k with
  | SessionManagerReport.MonitorResponse r _ _ =>
      match SessionManager.elapsed r with
      | Some x => 0 <= x <= bound
      | None => True
      end
  | _ => True
  end.

End SessionVocabulary.

Section MonitorVocabulary.

(** The statistics of a session after [_monitor_response] has recorded
    response [r] at time [at_]. *)
Definition recorded (r : SessionManager.response) (at_ : Q) (st : stats) : stats :=
  let avg := match SessionManager.elapsed r with
             | Some response_time => ema (avg_response_time st) response_time
             | None => avg_response_time st
             end in
  if (400 <=? SessionManager.status_code r)%Z
  then {| requests_made := requests_made st + 1;
          failures := failures st + 1;
          avg_response_time := avg;
          last_failure_time := Some at_;
          consecutive_failures := consecutive_failures st + 1;
          created_at := created_at st |}
  else {| requests_made := requests_made st + 1;
          failures := failures st;
          avg_response_time := avg;
          last_failure_time := last_failure_time st;
          consecutive_failures := 0;
          created_at := created_at st |}.

(** The statistics of a session after [get_session] has stamped its
    creation time. *)
Definition stamped (at_ : Q) (st : stats) : stats :=
  {| requests_made := requests_made st;
     failures := failures st;
     avg_response_time := avg_response_time st;
     last_failure_time := last_failure_time st;
     consecutive_failures := consecutive_failures st;
     created_at := at_ |}.

End MonitorVocabulary.

Section RetryVocabulary.
Import AsyncSessionManager.





End RetryVocabulary.

Section ConcurrentVocabulary.
Import AsyncSessionManager ConcurrentRequests.


End ConcurrentVocabulary.

Section ScraperVocabulary.
Import BongoCat.

(** The latencies and the duration of a task are not negative. *)
Definition task_ok (k : task) : Prop :=
  RateLimiter.latency_ok (latencies k) /\ 0 <= duration k.

End ScraperVocabulary.

Section RotatorVocabulary.
Import UserAgentRotator.

(** Every agent in rotation has a usage counter. *)
Definition counted (s : t) : Prop :=
  forall a, a ∈ all_agents s -> is_Some (usage_stats s !! a).

(** The counters are those of the agents in rotation, no more, no less. *)
Definition counters_match (s : t) : Prop :=
  forall a, a ∈ all_agents s <-> is_Some (usage_stats s !! a).

(** The call removes no agent. *)
Definition keeps_agents (k : call) : Prop :=
  match k with RemoveAgent _ => False | _ => True end.

(** The manager after the counter of [a] went from [n] to [n + 1]. *)
Definition used (a : string) (n : Z) (s : t) : t :=
  {| default_agents := default_agents s;
     custom_agents := custom_agents s;
     all_agents := all_agents s;
     usage_stats := <[a := (n + 1)%Z]> (usage_stats s) |}.

End RotatorVocabulary.

Section RotatorAccounting.
Import UserAgentRotator.

(** The sum of all usage counters. *)
Definition total_usage (stats : gmap string Z) : Z :=
  map_fold (fun _ n acc => (n + acc)%Z) 0%Z stats.

(** The call asks for an agent. *)
Definition is_getter (k : call) : bool :=
  match k with GetRandomAgent _ | GetFamilyAgent _ _ => true | _ => false end.

(** The call neither removes an agent nor resets the counters. *)
Definition keeps_counts (k : call) : Prop :=
  match k with RemoveAgent _ | ResetStats => False | _ => True end.

End RotatorAccounting.

(** * Properties *)

(** ** Rate limiter *)

Section RateLimiterFacts.
Import RateLimiter.

Lemma total_sleep_after_sleep d c :
  total_sleep (time_sleep d c) == total_sleep c + d.
Proof.
  unfold total_sleep, time_sleep; simpl.
  induction (slept c) as [|x xs IH]; simpl; [lra | rewrite IH; lra].
Qed.

Lemma total_sleep_after_elapse d c : total_sleep (elapse d c) = total_sleep c.
Proof. reflexivity. Qed.

(** The clock after the burst bookkeeping: it has advanced by the
    latency, plus the penalty when it applies, and every second of
    advance beyond the latency was slept. *)
Lemma burst_tracking_clock d s c :
  0 <= d ->
  let c' := snd (_update_burst_tracking d s c) in
  now c + d <= now c' /\
  now c' - now c == (total_sleep c' - total_sleep c) + d.
Proof.
  intros Hd. unfold _update_burst_tracking; simpl.
  destruct (burst_limit s <=? _)%Z; simpl.
  - rewrite total_sleep_after_sleep, total_sleep_after_elapse. simpl. split; lra.
  - rewrite total_sleep_after_elapse. split; lra.
Qed.

Lemma burst_tracking_state d s c :
  let s' := fst (_update_burst_tracking d s c) in
  adaptive_mode s' = adaptive_mode s /\ min_interval s' = min_interval s
  /\ last_request_time s' = last_request_time s.
Proof. unfold _update_burst_tracking; simpl; auto. Qed.

(** One call of [wait] in fixed mode. *)
Lemma wait_fixed l s c :
  adaptive_mode s = false -> latency_ok l ->
  let s' := fst (wait l s c) in
  let c' := snd (wait l s c) in
  adaptive_mode s' = false /\ min_interval s' = min_interval s
  /\ last_request_time s' = now c'
  /\ now c <= now c'
  /\ last_request_time s + min_interval s <= now c'
  /\ now c' - now c ==
       (total_sleep c' - total_sleep c)
       + (before_read l + before_track l + before_stamp l).
Proof.
  intros Hfix (Hr & Ht & Hs). unfold wait. rewrite Hfix.
  set (c1 := elapse (before_read l) c).
  set (c2 := if Qlt_le_dec _ _ then _ else c1).
  assert (H2 : now c1 <= now c2 /\ last_request_time s + min_interval s <= now c2
               /\ now c2 - now c1 == total_sleep c2 - total_sleep c1).
  { subst c2. destruct (Qlt_le_dec _ _) as [Hlt | Hge]; simpl in *.
    - rewrite total_sleep_after_sleep. repeat split; lra.
    - repeat split; lra. }
  destruct H2 as (H21 & H22 & H23).
  pose proof (burst_tracking_clock (before_track l) s c2 Ht) as [Hb1 Hb2].
  pose proof (burst_tracking_state (before_track l) s c2) as (Ha & Hm & _).
  destruct (_update_burst_tracking (before_track l) s c2) as [s3 c3].
  simpl in *. subst c1; simpl in *.
  rewrite !total_sleep_after_elapse in *.
  repeat split; try congruence; lra.
Qed.

Lemma wait_all_cons l ls s c :
  wait_all (l :: ls) s c = wait_all ls (fst (wait l s c)) (snd (wait l s c)).
Proof. simpl. destruct (wait l s c); reflexivity. Qed.

(** Once the limiter carries the stamp of a request that was permitted no
    earlier than now, every further call costs a full interval. *)
Lemma wait_all_after_stamp ls : forall s c,
  adaptive_mode s = false -> 0 <= min_interval s ->
  now c <= last_request_time s ->
  Forall latency_ok ls ->
  let c' := snd (wait_all ls s c) in
  inject_Z (Z.of_nat (length ls)) * min_interval s <= now c' - now c.
Proof.
  induction ls as [|l ls IH]; intros s c Hfix HI Hst Hok.
  - simpl. change (inject_Z (Z.of_nat 0)) with 0. lra.
  - inversion Hok as [|? ? Hl Hls]; subst.
    rewrite wait_all_cons.
    pose proof (wait_fixed l s c Hfix Hl) as (Ha & Hm & Hlast & Hmono & Hgap & _).
    specialize (IH (fst (wait l s c)) (snd (wait l s c)) Ha).
    rewrite Hm, Hlast in IH. specialize (IH HI (Qle_refl _) Hls).
    cbn zeta in IH |- *.
    replace (length (l :: ls)) with (S (length ls)) by reflexivity.
    rewrite Nat2Z.inj_succ, <- Z.add_1_r, inject_Z_plus.
    change (inject_Z 1) with 1.
    lra.
Qed.

(** Without latency the clock only advances by sleeping. *)
Lemma wait_all_only_sleeps ls : forall s c,
  adaptive_mode s = false ->
  Forall (fun l => l = no_latency) ls ->
  let c' := snd (wait_all ls s c) in
  now c' - now c == total_sleep c' - total_sleep c.
Proof.
  induction ls as [|l ls IH]; intros s c Hfix Hno.
  - simpl. lra.
  - inversion Hno as [|? ? Hl Hls]; subst.
    rewrite wait_all_cons.
    assert (Hok : latency_ok no_latency) by (repeat split; simpl; lra).
    pose proof (wait_fixed no_latency s c Hfix Hok) as (Ha & _ & _ & _ & _ & Hsl).
    specialize (IH _ (snd (wait no_latency s c)) Ha Hls).
    cbn zeta in IH, Hsl |- *.
    change (before_read no_latency + before_track no_latency
            + before_stamp no_latency) with (0 + 0 + 0) in Hsl.
    lra.
Qed.

(** C7. For every rate [r > 0] and every [N >= 1], [N] sequential [wait()]
    calls in fixed (non-adaptive) mode take at least [(N-1)/r] seconds of
    wall-clock time, whatever the latencies between the clock readings;
    when nothing but the limiter's own sleeps lets time pass, that is a
    bound on the total imposed sleep. *)
Theorem sequential_waits_take_time (r : Q) (ls : list latency) (s : t) (c : clock) :
  0 < r -> adaptive_mode s = false -> min_interval s == 1 / r ->
  (1 <= length ls)%nat -> Forall latency_ok ls ->
  let c' := snd (wait_all ls s c) in
  (inject_Z (Z.of_nat (length ls)) - 1) / r <= now c' - now c
  /\ (Forall (fun l => l = no_latency) ls ->
      (inject_Z (Z.of_nat (length ls)) - 1) / r <= total_sleep c' - total_sleep c).
Proof.
  intros Hr Hfix Hmin Hlen Hok.
  destruct ls as [|l ls]; [simpl in Hlen; lia|].
  inversion Hok as [|? ? Hl Hls]; subst.
  assert (HI : 0 <= min_interval s).
  { rewrite Hmin. unfold Qdiv. rewrite Qmult_1_l.
    apply Qlt_le_weak, Qinv_lt_0_compat, Hr. }
  assert (Hbound : inject_Z (Z.of_nat (length ls)) * min_interval s
                   <= now (snd (wait_all (l :: ls) s c)) - now c).
  { rewrite wait_all_cons.
    pose proof (wait_fixed l s c Hfix Hl) as (Ha & Hm & Hlast & Hmono & _).
    pose proof (wait_all_after_stamp ls (fst (wait l s c)) (snd (wait l s c)) Ha) as Hrest.
    rewrite Hm, Hlast in Hrest. specialize (Hrest HI (Qle_refl _) Hls).
    cbn zeta in Hrest. lra. }
  assert (Heq : (inject_Z (Z.of_nat (length (l :: ls))) - 1) / r
                == inject_Z (Z.of_nat (length ls)) * min_interval s).
  { replace (length (l :: ls)) with (S (length ls)) by reflexivity.
    rewrite Nat2Z.inj_succ, <- Z.add_1_r, inject_Z_plus, Hmin.
    change (inject_Z 1) with 1. unfold Qdiv. ring. }
  cbn zeta. split.
  - rewrite Heq. exact Hbound.
  - intros Hno.
    pose proof (wait_all_only_sleeps (l :: ls) s c Hfix Hno) as Hsl.
    cbn zeta in Hsl. rewrite Heq, <- Hsl. exact Hbound.
Qed.

Lemma sequential_waits_take_time_witness :
  let c := {| now := 1000; slept := [] |} in
  let c' := snd (wait_all [no_latency; no_latency; no_latency] (fresh 2 5) c) in
  (inject_Z (Z.of_nat 3) - 1) / 2 <= now c' - now c
  /\ (Forall (fun l => l = no_latency) [no_latency; no_latency; no_latency] ->
      (inject_Z (Z.of_nat 3) - 1) / 2 <= total_sleep c' - total_sleep c).
Proof.
  apply (sequential_waits_take_time 2 [no_latency; no_latency; no_latency]
           (fresh 2 5) {| now := 1000; slept := [] |}).
  - reflexivity.
  - reflexivity.
  - vm_compute. reflexivity.
  - simpl. lia.
  - repeat constructor; vm_compute; discriminate.
Defined.

Lemma report_success_below s :
  adaptive_mode s = true -> (success_count s + 1 < 5)%Z ->
  report_success s
  = set_adaptive (current_delay s) (success_count s + 1)%Z (failure_count s) s.
Proof.
  intros Ha Hlt. unfold report_success. rewrite Ha.
  destruct (5 <=? success_count s + 1)%Z eqn:E; [lia | reflexivity].
Qed.

Lemma report_success_fifth s :
  adaptive_mode s = true -> (5 <= success_count s + 1)%Z ->
  report_success s
  = set_adaptive (Qmax (min_interval s) (current_delay s * (9 # 10)))
                 0 (failure_count s) s.
Proof.
  intros Ha Hge. unfold report_success. rewrite Ha.
  destruct (5 <=? success_count s + 1)%Z eqn:E; [reflexivity | lia].
Qed.

(** A streak of [k < 5] successes only counts. *)
Lemma success_streak k : forall s,
  adaptive_mode s = true -> success_count s = 0%Z -> (k < 5)%nat ->
  let s' := Nat.iter k report_success s in
  adaptive_mode s' = true /\ min_interval s' = min_interval s
  /\ current_delay s' = current_delay s /\ success_count s' = Z.of_nat k.
Proof.
  induction k as [|k IH]; intros s Ha H0 Hk; cbn zeta.
  - simpl. auto.
  - destruct (IH s Ha H0 ltac:(lia)) as (Ha' & Hm & Hd & Hc).
    change (Nat.iter (S k) report_success s)
      with (report_success (Nat.iter k report_success s)).
    rewrite report_success_below by (auto; lia).
    simpl. repeat split; auto. lia.
Qed.

(** C8. In adaptive mode [report_failure(status_code)] multiplies
    [current_delay] by 2.0 for 429, by 1.5 for 502, 503 or 504 and by 1.2
    otherwise, caps the result at 30 seconds and resets the success
    streak to 0; [report_success()] leaves the delay alone for four
    successes in a row and, at the fifth, multiplies it by 0.9 floored at
    the target interval and starts a new streak. *)
Theorem adaptive_delay_adjustment (s : t) (code : option Z) :
  adaptive_mode s = true ->
  let f := report_failure code s in
  (code = Some 429%Z -> current_delay f == Qmin (current_delay s * 2) 30)
  /\ (code = Some 502%Z \/ code = Some 503%Z \/ code = Some 504%Z ->
      current_delay f == Qmin (current_delay s * (3 # 2)) 30)
  /\ (code <> Some 429%Z -> code <> Some 502%Z -> code <> Some 503%Z ->
      code <> Some 504%Z ->
      current_delay f == Qmin (current_delay s * (12 # 10)) 30)
  /\ current_delay f <= 30 /\ success_count f = 0%Z
  /\ (success_count s = 0%Z ->
      (forall k, (k < 5)%nat ->
         current_delay (Nat.iter k report_success s) = current_delay s
         /\ success_count (Nat.iter k report_success s) = Z.of_nat k)
      /\ current_delay (Nat.iter 5 report_success s)
         == Qmax (min_interval s) (current_delay s * (9 # 10))
      /\ success_count (Nat.iter 5 report_success s) = 0%Z
      /\ adaptive_mode (Nat.iter 5 report_success s) = true
      /\ min_interval (Nat.iter 5 report_success s) = min_interval s).
Proof.
  intros Ha. cbn zeta. unfold report_failure. rewrite Ha. simpl.
  split; [|split; [|split; [|split; [|split]]]].
  - intros ->. reflexivity.
  - intros [-> | [-> | ->]]; reflexivity.
  - intros H1 H2 H3 H4.
    assert (failure_factor code = 12 # 10) as ->; [|reflexivity].
    destruct code as [z|]; [|reflexivity]. unfold failure_factor.
    destruct (Z.eqb_spec z 429) as [->|_]; [congruence|].
    destruct (bool_decide (z ∈ [503%Z; 502%Z; 504%Z])) eqn:E; [|reflexivity].
    apply bool_decide_eq_true in E.
    rewrite !elem_of_cons in E.
    destruct E as [-> | [-> | [-> | E]]]; try congruence.
    inversion E.
  - apply Q.le_min_r.
  - reflexivity.
  - intros H0.
    destruct (success_streak 4 s Ha H0 ltac:(lia)) as (Ha4 & Hm4 & Hd4 & Hc4).
    cbn zeta in *. split.
    + intros k Hk. destruct (success_streak k s Ha H0 Hk) as (_ & _ & Hd & Hc). auto.
    + change (Nat.iter 4 report_success s)
        with (report_success (report_success (report_success (report_success s))))
        in *.
      rewrite report_success_fifth by (auto; lia). simpl.
      rewrite Hm4, Hd4. repeat split; auto.
Qed.

Lemma adaptive_delay_adjustment_witness :
  let s := enable_adaptive_mode (fresh 2 5) in
  current_delay (report_failure (Some 429%Z) s) == 1
  /\ current_delay (report_failure (Some 503%Z) s) == 3 # 4
  /\ current_delay (report_failure None s) == 6 # 10
  /\ current_delay (Nat.iter 5 report_success (report_failure (Some 429%Z) s)) == 9 # 10.
Proof.
  cbn zeta.
  pose proof (adaptive_delay_adjustment (enable_adaptive_mode (fresh 2 5))
                (Some 429%Z) eq_refl) as (H1 & _).
  pose proof (adaptive_delay_adjustment (enable_adaptive_mode (fresh 2 5))
                (Some 503%Z) eq_refl) as (_ & H2 & _).
  pose proof (adaptive_delay_adjustment (enable_adaptive_mode (fresh 2 5))
                None eq_refl) as (_ & _ & H3 & _).
  pose proof (adaptive_delay_adjustment
                (report_failure (Some 429%Z) (enable_adaptive_mode (fresh 2 5)))
                None eq_refl) as (_ & _ & _ & _ & _ & H4).
  destruct (H4 eq_refl) as (_ & H5 & _).
  split; [rewrite (H1 eq_refl); vm_compute; reflexivity|].
  split; [rewrite (H2 (or_intror (or_introl eq_refl))); vm_compute; reflexivity|].
  split; [rewrite H3 by discriminate; vm_compute; reflexivity|].
  rewrite H5. vm_compute. reflexivity.
Defined.

(** C10. While adaptive mode is enabled, [set_rate(r)] updates the target
    interval (to [1/r] for [r > 0], to 0 otherwise) and leaves the
    adaptive delay as it was; the delay is reset to the target interval
    by [set_rate] when adaptive mode is off and by
    [disable_adaptive_mode]. *)
Theorem set_rate_keeps_adaptive_delay (r : Q) (s : t) :
  (0 < r -> min_interval (set_rate r s) == 1 / r)
  /\ (r <= 0 -> min_interval (set_rate r s) == 0)
  /\ adaptive_mode (set_rate r s) = adaptive_mode s
  /\ (adaptive_mode s = true -> current_delay (set_rate r s) = current_delay s)
  /\ (adaptive_mode s = false ->
      current_delay (set_rate r s) = min_interval (set_rate r s))
  /\ adaptive_mode (disable_adaptive_mode s) = false
  /\ current_delay (disable_adaptive_mode s) = min_interval s
  /\ min_interval (disable_adaptive_mode s) = min_interval s.
Proof.
  unfold set_rate, disable_adaptive_mode, interval_of; simpl.
  repeat split; auto.
  - intros Hr. destruct (Qlt_le_dec 0 r); [reflexivity | lra].
  - intros Hr. destruct (Qlt_le_dec 0 r); [lra | reflexivity].
  - intros ->. reflexivity.
  - intros ->. reflexivity.
Qed.

Lemma set_rate_keeps_adaptive_delay_witness :
  let s := enable_adaptive_mode (fresh 2 5) in
  min_interval (set_rate 4 s) == 1 / 4
  /\ min_interval (set_rate (-1) s) == 0
  /\ current_delay (set_rate 4 s) = current_delay s
  /\ current_delay (set_rate 4 (fresh 2 5)) = min_interval (set_rate 4 (fresh 2 5)).
Proof.
  cbn zeta.
  pose proof (set_rate_keeps_adaptive_delay 4 (enable_adaptive_mode (fresh 2 5)))
    as (H1 & _ & _ & H4 & _).
  pose proof (set_rate_keeps_adaptive_delay (-1) (enable_adaptive_mode (fresh 2 5)))
    as (_ & H2 & _).
  pose proof (set_rate_keeps_adaptive_delay 4 (fresh 2 5))
    as (_ & _ & _ & _ & H5 & _).
  split; [apply H1; reflexivity|].
  split; [apply H2; vm_compute; discriminate|].
  split; [apply H4; reflexivity | apply H5; reflexivity].
Defined.

End RateLimiterFacts.

(** ** Proxy handler *)

Section ProxyHandlerFacts.
Import ProxyHandler.

Lemma occ_elem_of p l : p ∈ l <-> (0 < occ p l)%nat.
Proof.
  induction l as [|q l IH]; simpl.
  - split; [intros H; inversion H | lia].
  - rewrite elem_of_cons, IH. destruct (decide (q = p)); split; try lia; intuition congruence.
Qed.

Lemma occ_not_elem_of p l : p ∉ l <-> occ p l = 0%nat.
Proof. rewrite occ_elem_of. lia. Qed.

Lemma occ_app p l1 l2 : occ p (l1 ++ l2) = (occ p l1 + occ p l2)%nat.
Proof. induction l1 as [|q l1 IH]; simpl; [reflexivity | rewrite IH; lia]. Qed.

Lemma occ_NoDup l : NoDup l <-> forall p, (occ p l <= 1)%nat.
Proof.
  induction l as [|q l IH]; simpl.
  - split; [intros _ p; lia | intros _; constructor].
  - rewrite NoDup_cons, IH, occ_not_elem_of. split.
    + intros [Hq Hl] p. specialize (Hl p).
      destruct (decide (q = p)) as [<-|]; lia.
    + intros H. split.
      * specialize (H q). destruct (decide (q = q)); [lia | congruence].
      * intros p. specialize (H p). lia.
Qed.

Lemma occ_list_remove x p l :
  occ p (list_remove x l) = if decide (x = p) then pred (occ p l) else occ p l.
Proof.
  induction l as [|y l IH]; simpl.
  - destruct (decide (x = p)); reflexivity.
  - destruct (decide (x = y)) as [->|Hxy].
    + destruct (decide (y = p)); simpl; reflexivity.
    + simpl. rewrite IH.
      destruct (decide (y = p)) as [->|Hyp], (decide (x = p)); try congruence; reflexivity.
Qed.

Lemma discard_is_remove x l : discard x l = list_remove x l.
Proof.
  unfold discard. destruct (bool_decide (x ∈ l)) eqn:E; [reflexivity|].
  apply bool_decide_eq_false in E.
  induction l as [|y l IH]; [reflexivity|]. simpl.
  rewrite not_elem_of_cons in E. destruct E as [Hne Hnot].
  destruct (decide (x = y)); [congruence|]. f_equal. apply IH, Hnot.
Qed.

Lemma occ_discard x p l :
  occ p (discard x l) = if decide (x = p) then pred (occ p l) else occ p l.
Proof. rewrite discard_is_remove. apply occ_list_remove. Qed.

(** A validation pass sorts every occurrence of the pool into exactly
    one partition. *)
Lemma validate_loop_occ net ps : forall k w f p,
  let r := validate_loop net k ps w f in
  (occ p (fst r) + occ p (snd r) = occ p ps + occ p w + occ p f)%nat.
Proof.
  induction ps as [|q ps IH]; intros k w f p; cbn zeta.
  - simpl. lia.
  - simpl.
    pose proof (IH (S k) (w ++ [q]) f p) as IHw.
    pose proof (IH (S k) w (f ++ [q]) p) as IHf.
    cbn zeta in IHw, IHf. rewrite !occ_app in IHw, IHf. simpl in IHw, IHf.
    destruct (net k q) as [code|]; [destruct (code =? 200)%Z|]; lia.
Qed.

Lemma validate_occ net at_ s p :
  let s' := _validate_proxies net at_ s in
  proxy_list s' = proxy_list s
  /\ (occ p (working_proxies s') + occ p (failed_proxies s') = occ p (proxy_list s))%nat.
Proof.
  cbn zeta. unfold _validate_proxies.
  pose proof (validate_loop_occ net (proxy_list s) 0 [] [] p) as H. cbn zeta in H.
  destruct (validate_loop net 0 (proxy_list s) [] []) as [w f]. simpl in *.
  split; [reflexivity | lia].
Qed.

Lemma backed_validate net at_ s : backed (_validate_proxies net at_ s).
Proof.
  intros p. destruct (validate_occ net at_ s p) as [Hl Ho].
  rewrite Hl. lia.
Qed.

Lemma union_validate net at_ s : pool_is_union (_validate_proxies net at_ s).
Proof.
  intros p. destruct (validate_occ net at_ s p) as [Hl Ho].
  rewrite !occ_elem_of, Hl. lia.
Qed.

Lemma backed_init proxies net at_ : backed (__init__ proxies net at_).
Proof.
  unfold __init__. destruct proxies as [[|q l]|]; try apply backed_validate;
    intros p; simpl; lia.
Qed.

Lemma backed_add q s : backed s -> backed (add_proxy q s).
Proof.
  intros H p. specialize (H p). unfold add_proxy.
  destruct (bool_decide (q ∈ proxy_list s)); simpl; [exact H|].
  rewrite occ_app. lia.
Qed.

Lemma backed_remove q s : backed s -> backed (remove_proxy q s).
Proof.
  intros H p. specialize (H p). unfold remove_proxy; simpl.
  rewrite !occ_discard. destruct (decide (q = p)); lia.
Qed.

Lemma get_proxy_state net ct at_ rnd s :
  snd (get_proxy net ct at_ rnd s) = s
  \/ snd (get_proxy net ct at_ rnd s) = _validate_proxies net at_ s.
Proof.
  unfold get_proxy. destruct (working_proxies s); [left; reflexivity|].
  destruct (Qlt_le_dec _ _); [right | left];
    destruct (random_choice _ _); reflexivity.
Qed.

Lemma backed_apply o s : backed s -> backed (apply o s).
Proof.
  intros H. destruct o as [q|q|net at_|net ct at_ rnd]; simpl.
  - apply backed_add, H.
  - apply backed_remove, H.
  - apply backed_validate.
  - destruct (get_proxy_state net ct at_ rnd s) as [-> | ->];
      [exact H | apply backed_validate].
Qed.

Lemma run_snoc ops o s : run (ops ++ [o]) s = apply o (run ops s).
Proof. unfold run. rewrite fold_left_app. reflexivity. Qed.

Lemma backed_run ops : forall s, backed s -> backed (run ops s).
Proof.
  induction ops as [|o ops IH] using rev_ind; intros s H; [exact H|].
  rewrite run_snoc. apply backed_apply, IH, H.
Qed.

Lemma backed_in_pool s : backed s -> partitions_in_pool s.
Proof.
  intros H p. specialize (H p). rewrite !occ_elem_of. lia.
Qed.

(** Pools without duplicates stay without duplicates. *)
Lemma nodup_apply o s : NoDup (proxy_list s) -> NoDup (proxy_list (apply o s)).
Proof.
  rewrite !occ_NoDup. intros H.
  destruct o as [q|q|net at_|net ct at_ rnd]; cbn [apply]; intros p; specialize (H p).
  - unfold add_proxy. destruct (bool_decide (q ∈ proxy_list s)) eqn:E; simpl; [exact H|].
    apply bool_decide_eq_false in E. rewrite occ_not_elem_of in E.
    rewrite occ_app. simpl. destruct (decide (q = p)) as [<-|]; lia.
  - unfold remove_proxy; simpl.
    rewrite occ_discard. destruct (decide (q = p)); lia.
  - unfold force_validation.
    destruct (validate_occ net at_ s p) as [-> _]. exact H.
  - destruct (get_proxy_state net ct at_ rnd s) as [-> | ->]; [exact H|].
    destruct (validate_occ net at_ s p) as [-> _]. exact H.
Qed.

Lemma nodup_run ops : forall s, NoDup (proxy_list s) -> NoDup (proxy_list (run ops s)).
Proof.
  induction ops as [|o ops IH] using rev_ind; intros s H; [exact H|].
  rewrite run_snoc. apply nodup_apply, IH, H.
Qed.

Lemma nodup_init proxies net at_ :
  NoDup (default [] proxies) -> NoDup (proxy_list (__init__ proxies net at_)).
Proof.
  intros H. destruct proxies as [[|q l]|]; try exact H.
  cbv beta iota zeta delta [__init__].
  destruct (validate_occ net at_
              {| proxy_list := q :: l; working_proxies := []; failed_proxies := [];
                 last_validation := 0; validation_interval := 300 |} q) as [-> _].
  exact H.
Qed.

Lemma remove_purges q s :
  backed s -> NoDup (proxy_list s) -> purged q (remove_proxy q s).
Proof.
  intros Hb Hn. rewrite occ_NoDup in Hn. specialize (Hn q). specialize (Hb q).
  unfold purged, remove_proxy; simpl. rewrite !occ_not_elem_of, !occ_discard.
  destruct (decide (q = q)); [lia | congruence].
Qed.

Lemma remove_keeps_others p q l : q <> p -> q ∈ l -> q ∈ discard p l.
Proof.
  intros Hne. rewrite !occ_elem_of, occ_discard.
  destruct (decide (p = q)); [congruence | auto].
Qed.

Lemma remove_adds_nothing p q l : q ∈ discard p l -> q ∈ l.
Proof.
  rewrite !occ_elem_of, occ_discard. destruct (decide (p = q)); lia.
Qed.

(** C9 (amended). After construction and after every sequence of
    operations the two partitions lie inside the base pool, and the base
    pool is their union right after construction and after a validation
    pass ([add_proxy] puts the proxy in the base pool only).  [add_proxy]
    leaves both partitions as they are and [remove_proxy] changes them
    for the removed proxy only, never adding to them.  On a handler built
    from a list without duplicates, [remove_proxy] purges the proxy from
    the base pool and from both partitions. *)
Theorem pool_partition_invariant
  (proxies : option (list string)) (net0 : network) (at0 : Q) (ops : list op) :
  let s := run ops (__init__ proxies net0 at0) in
  pool_is_union (__init__ proxies net0 at0)
  /\ partitions_in_pool s
  /\ (forall net at_, pool_is_union (force_validation net at_ s))
  /\ (forall p, p ∈ proxy_list (add_proxy p s)
                /\ working_proxies (add_proxy p s) = working_proxies s
                /\ failed_proxies (add_proxy p s) = failed_proxies s)
  /\ (forall p q,
        (q ∈ working_proxies (remove_proxy p s) -> q ∈ working_proxies s)
        /\ (q ∈ failed_proxies (remove_proxy p s) -> q ∈ failed_proxies s)
        /\ (q <> p -> q ∈ working_proxies s -> q ∈ working_proxies (remove_proxy p s))
        /\ (q <> p -> q ∈ failed_proxies s -> q ∈ failed_proxies (remove_proxy p s)))
  /\ (NoDup (default [] proxies) -> forall p, purged p (remove_proxy p s)).
Proof.
  cbn zeta.
  pose proof (backed_run ops _ (backed_init proxies net0 at0)) as Hb.
  split; [|split; [|split; [|split; [|split]]]].
  - destruct proxies as [[|q l]|]; try apply union_validate;
      intros p; simpl; split; [intros H; inversion H | intros [H|H]; inversion H
                             | intros H; inversion H | intros [H|H]; inversion H].
  - apply backed_in_pool, Hb.
  - intros net at_. apply union_validate.
  - intros p. unfold add_proxy.
    destruct (bool_decide (p ∈ _)) eqn:E; simpl.
    + apply bool_decide_eq_true in E. auto.
    + split; [|auto]. rewrite elem_of_app, list_elem_of_singleton. auto.
  - intros p q. unfold remove_proxy; simpl.
    repeat split; try apply remove_adds_nothing; apply remove_keeps_others.
  - intros Hn p. apply remove_purges; [exact Hb|].
    apply nodup_run, nodup_init, Hn.
Qed.

Lemma pool_partition_invariant_witness :
  NoDup [proxy_a; proxy_b]
  /\ purged proxy_a
       (remove_proxy proxy_a
          (run [AddProxy "http://10.0.0.3:8080"]
               (__init__ (Some [proxy_a; proxy_b]) all_up 0))).
Proof.
  assert (Hn : NoDup [proxy_a; proxy_b]).
  { apply (bool_decide_unpack _). vm_compute. exact I. }
  split; [exact Hn|].
  pose proof (pool_partition_invariant (Some [proxy_a; proxy_b]) all_up 0
                [AddProxy "http://10.0.0.3:8080"]) as (_ & _ & _ & _ & _ & H).
  exact (H Hn proxy_a).
Defined.

(** C9 as stated fails: a proxy added by [add_proxy] is in the base pool
    and in neither partition. *)
Lemma pool_not_union_after_add :
  ~ pool_is_union (run [AddProxy proxy_a] (__init__ None all_up 0)).
Proof.
  intros H. destruct (H proxy_a) as [Hin _].
  destruct Hin as [Hw | Hf].
  - vm_compute. apply list_elem_of_here.
  - inversion Hw.
  - inversion Hf.
Qed.

(** Why the purge is stated for lists without duplicates: [list.remove]
    drops one occurrence, so a proxy listed twice survives its removal. *)
Lemma remove_keeps_second_occurrence :
  let s := remove_proxy proxy_a (__init__ (Some [proxy_a; proxy_a]) all_up 0) in
  proxy_list s = [proxy_a] /\ working_proxies s = [proxy_a].
Proof. cbn zeta. split; vm_compute; reflexivity. Qed.

(** What [get_proxy] does on the paths that do not raise: [None] for an
    empty healthy set, otherwise a member of the healthy set it leaves
    behind. *)
Lemma get_proxy_none_on_empty net ct at_ rnd s :
  working_proxies s = [] -> get_proxy net ct at_ rnd s = (Ok None, s).
Proof. intros H. unfold get_proxy. rewrite H. reflexivity. Qed.

Lemma random_choice_member rnd l p : random_choice rnd l = Ok p -> p ∈ l.
Proof.
  destruct l as [|x l]; [discriminate|]. unfold random_choice.
  generalize (x :: l) (Nat.mod_upper_bound rnd (length (x :: l)) ltac:(discriminate)).
  intros l' Hlt [= <-]. apply list_elem_of_In, nth_In, Hlt.
Qed.

Lemma get_proxy_returns_healthy net ct at_ rnd s d s' :
  get_proxy net ct at_ rnd s = (Ok (Some d), s') ->
  http d ∈ working_proxies s' /\ https d = http d.
Proof.
  unfold get_proxy. destruct (working_proxies s) eqn:Ew; [discriminate|].
  set (s1 := if Qlt_le_dec _ _ then _ else s).
  destruct (random_choice rnd (working_proxies s1)) as [p|e] eqn:Ec; [|discriminate].
  intros [= <- <-]. simpl. split; [|reflexivity].
  eapply random_choice_member, Ec.
Qed.

(** C4. A handler whose only proxy was healthy at construction and is
    down when the lazily triggered revalidation runs: [get_proxy] passes
    the emptiness test, revalidates, and [random.choice] raises
    [IndexError] on the now empty healthy set. *)
Theorem get_proxy_raises_after_revalidation :
  let s := __init__ (Some [proxy_a]) all_up 0 in
  working_proxies s = [proxy_a]
  /\ get_proxy all_down 1000 1001 0 s
     = (Raise (IndexError "Cannot choose from an empty sequence"),
        {| proxy_list := [proxy_a];
           working_proxies := [];
           failed_proxies := [proxy_a];
           last_validation := 1001;
           validation_interval := 300 |}).
Proof. cbn zeta. split; vm_compute; reflexivity. Qed.

End ProxyHandlerFacts.

(** ** Adaptive retries and backoff *)

Section AdaptiveFacts.

(** C6. For every global failure rate [f] and base retry count, the
    adaptive retry count of both managers is [max(1, base-1)] when
    [f < 0.1], [base] when [0.1 <= f < 0.3] and [min(base+2, 10)]
    otherwise; and the backoff factor of each manager does not decrease
    when the failure rate grows, so neither does the delay
    [2^retries * factor] slept before a retry. *)
Theorem adaptive_tiers (m m' : SessionManager.t) (a a' : AsyncSessionManager.t) :
  let f := SessionManager.global_failure_rate m in
  let base := SessionManager.max_retries m in
  let g := AsyncSessionManager.global_failure_rate a in
  let abase := AsyncSessionManager.max_retries a in
  (f < 1 # 10 -> SessionManager._calculate_adaptive_retries m = Z.max 1 (base - 1))
  /\ (1 # 10 <= f -> f < 3 # 10 -> SessionManager._calculate_adaptive_retries m = base)
  /\ (3 # 10 <= f ->
      SessionManager._calculate_adaptive_retries m = Z.min (base + 2) 10)
  /\ (g < 1 # 10 ->
      AsyncSessionManager._calculate_adaptive_retries a = Z.max 1 (abase - 1))
  /\ (1 # 10 <= g -> g < 3 # 10 ->
      AsyncSessionManager._calculate_adaptive_retries a = abase)
  /\ (3 # 10 <= g ->
      AsyncSessionManager._calculate_adaptive_retries a = Z.min (abase + 2) 10)
  /\ (f <= SessionManager.global_failure_rate m' ->
      SessionManager._calculate_adaptive_backoff m
      <= SessionManager._calculate_adaptive_backoff m')
  /\ (g <= AsyncSessionManager.global_failure_rate a' ->
      AsyncSessionManager._calculate_adaptive_backoff a
      <= AsyncSessionManager._calculate_adaptive_backoff a'
      /\ forall retries : Z,
           inject_Z (2 ^ retries) * AsyncSessionManager._calculate_adaptive_backoff a
           <= inject_Z (2 ^ retries) * AsyncSessionManager._calculate_adaptive_backoff a').
Proof.
  cbn zeta.
  unfold SessionManager._calculate_adaptive_retries,
    AsyncSessionManager._calculate_adaptive_retries, adaptive_retries,
    SessionManager._calculate_adaptive_backoff,
    AsyncSessionManager._calculate_adaptive_backoff.
  repeat match goal with |- _ /\ _ => split end.
  - intros H. destruct (Qlt_le_dec _ _); [reflexivity | lra].
  - intros H1 H2. repeat (destruct (Qlt_le_dec _ _); try lra). reflexivity.
  - intros H. repeat (destruct (Qlt_le_dec _ _); try lra). reflexivity.
  - intros H. destruct (Qlt_le_dec _ _); [reflexivity | lra].
  - intros H1 H2. repeat (destruct (Qlt_le_dec _ _); try lra). reflexivity.
  - intros H. repeat (destruct (Qlt_le_dec _ _); try lra). reflexivity.
  - intros H. repeat (destruct (Qlt_le_dec _ _); try lra).
  - intros H.
    assert (Hb : (if Qlt_le_dec (AsyncSessionManager.global_failure_rate a) (1 # 10)
                  then 3 # 10
                  else if Qlt_le_dec (AsyncSessionManager.global_failure_rate a) (3 # 10)
                       then 1 # 2 else 1)
                 <= (if Qlt_le_dec (AsyncSessionManager.global_failure_rate a') (1 # 10)
                     then 3 # 10
                     else if Qlt_le_dec (AsyncSessionManager.global_failure_rate a') (3 # 10)
                          then 1 # 2 else 1)).
    { repeat (destruct (Qlt_le_dec _ _); try lra). }
    split; [exact Hb|]. intros retries.
    rewrite !(Qmult_comm (inject_Z (2 ^ retries))).
    apply Qmult_le_compat_r; [exact Hb|].
    change 0 with (inject_Z 0). rewrite <- Zle_Qle. apply Z.pow_nonneg. lia.
Qed.

Lemma adaptive_tiers_witness :
  SessionManager._calculate_adaptive_retries (sync_at (5 # 100)) = 2%Z
  /\ AsyncSessionManager._calculate_adaptive_retries (async_at (2 # 10) 3) = 3%Z
  /\ AsyncSessionManager._calculate_adaptive_retries (async_at (5 # 10) 3) = 5%Z
  /\ SessionManager._calculate_adaptive_backoff (sync_at (5 # 100))
     <= SessionManager._calculate_adaptive_backoff (sync_at (5 # 10))
  /\ AsyncSessionManager._calculate_adaptive_backoff (async_at (5 # 100) 3)
     <= AsyncSessionManager._calculate_adaptive_backoff (async_at (5 # 10) 3).
Proof.
  pose proof (adaptive_tiers (sync_at (5 # 100)) (sync_at (5 # 10))
                (async_at (2 # 10) 3) (async_at (5 # 10) 3))
    as (H1 & _ & _ & _ & H5 & _ & H7 & _).
  pose proof (adaptive_tiers (sync_at (5 # 100)) (sync_at (5 # 10))
                (async_at (5 # 10) 3) (async_at (5 # 10) 3))
    as (_ & _ & _ & _ & _ & H6 & _).
  pose proof (adaptive_tiers (sync_at (5 # 100)) (sync_at (5 # 10))
                (async_at (5 # 100) 3) (async_at (5 # 10) 3))
    as (_ & _ & _ & _ & _ & _ & _ & H8).
  cbn zeta in *.
  split; [apply H1; reflexivity|].
  split; [apply H5; vm_compute; [discriminate | reflexivity]|].
  split; [apply H6; vm_compute; discriminate|].
  split; [apply H7; vm_compute; discriminate|].
  apply H8. vm_compute; discriminate.
Defined.

End AdaptiveFacts.

(** ** Retry loop of the async manager *)

Section RetryFacts.
Import AsyncSessionManager.

Lemma request_loop_exhausts tr sid url start n : forall fuel adaptive retries made m c,
  always_failing tr ->
  (0 <= retries <= adaptive)%Z -> n = Z.to_nat (adaptive - retries) ->
  (n + 1 <= fuel)%nat ->
  exists r, request_loop fuel tr sid url start adaptive retries made m c = Some r
            /\ raises (outcome r)
            /\ attempts r = (made + n + 1)%nat.
Proof.
  induction n as [|n IH]; intros fuel adaptive retries made m c Hfail Hr Hn Hfuel.
  - assert (retries = adaptive) as -> by lia.
    destruct fuel as [|fuel]; [lia|]. simpl.
    rewrite Z.leb_refl. specialize (Hfail adaptive).
    destruct (tr adaptive) as [took [r| |msg]]; simpl in Hfail; [contradiction| |];
      (destruct (adaptive + 1 <=? adaptive)%Z eqn:E; [lia|]);
      eexists; (split; [reflexivity|]); simpl; (split; [exact I | lia]).
  - destruct fuel as [|fuel]; [lia|]. simpl.
    destruct (retries <=? adaptive)%Z eqn:E0; [|lia].
    pose proof (Hfail retries) as Hk.
    destruct (tr retries) as [took [r| |msg]]; simpl in Hk; [contradiction| |];
      (destruct (retries + 1 <=? adaptive)%Z eqn:E; [|lia]);
      (edestruct (IH fuel adaptive (retries + 1)%Z (S made) m) as (r & Hr1 & Hr2 & Hr3);
       [exact Hfail | lia | lia | lia | ]);
      exists r; (split; [exact Hr1|]); (split; [exact Hr2 | rewrite Hr3; lia]).
Qed.

Lemma get_session_keeps_rate fr sid at_ m :
  global_failure_rate (snd (get_session fr sid at_ m)) = global_failure_rate m
  /\ max_retries (snd (get_session fr sid at_ m)) = max_retries m.
Proof. unfold get_session. destruct (dict_get sid (sessions m)); simpl; auto. Qed.

Lemma make_request_retries fuel fr tr sid method url m c :
  make_request fuel fr tr sid method url m c
  = request_loop fuel tr sid url (now c) (_calculate_adaptive_retries m) 0 0
      (snd (get_session fr sid (now c) m)) c.
Proof.
  unfold make_request.
  pose proof (get_session_keeps_rate fr sid (now c) m) as [Hg Hm].
  destruct (get_session fr sid (now c) m) as [o m1]. simpl in *.
  unfold _calculate_adaptive_retries. rewrite Hg, Hm. reflexivity.
Qed.

(** C3 (amended). With [max_retries = 2] and a transport that fails on
    every attempt, [make_request] issues exactly [adaptive_retries + 1]
    attempts and then raises, where [adaptive_retries] is derived from
    the global failure rate: 2 attempts while the rate is below 0.1 (as on
    a new manager), 3 attempts for a rate in [0.1, 0.3), 5 attempts from
    0.3 on. *)
Theorem retry_exhaustion (m : t) (fr : session * connector) (tr : transport)
  (sid method url : string) (c : clock) (fuel : nat) :
  max_retries m = 2%Z -> always_failing tr -> (enough_fuel m <= fuel)%nat ->
  exists r, make_request fuel fr tr sid method url m c = Some r
            /\ raises (outcome r)
            /\ attempts r = (Z.to_nat (_calculate_adaptive_retries m) + 1)%nat
            /\ (global_failure_rate m < 1 # 10 -> attempts r = 2%nat)
            /\ (1 # 10 <= global_failure_rate m -> global_failure_rate m < 3 # 10 ->
                attempts r = 3%nat)
            /\ (3 # 10 <= global_failure_rate m -> attempts r = 5%nat).
Proof.
  intros Hbase Hfail Hfuel. rewrite make_request_retries.
  assert (Hpos : (1 <= _calculate_adaptive_retries m)%Z).
  { unfold _calculate_adaptive_retries, adaptive_retries. rewrite Hbase.
    repeat destruct (Qlt_le_dec _ _); lia. }
  unfold enough_fuel in Hfuel.
  destruct (request_loop_exhausts tr sid url (now c)
              (Z.to_nat (_calculate_adaptive_retries m - 0)) fuel
              (_calculate_adaptive_retries m) 0 0
              (snd (get_session fr sid (now c) m)) c Hfail)
    as (r & Hr1 & Hr2 & Hr3); [lia | reflexivity | lia |].
  exists r. split; [exact Hr1|]. split; [exact Hr2|].
  assert (Hn : attempts r = (Z.to_nat (_calculate_adaptive_retries m) + 1)%nat)
    by (rewrite Hr3; lia).
  split; [exact Hn|]. rewrite Hn.
  unfold _calculate_adaptive_retries, adaptive_retries. rewrite Hbase.
  repeat split; intros; repeat (destruct (Qlt_le_dec _ _); try lra); reflexivity.
Qed.

Lemma retry_exhaustion_witness :
  exists r, make_request 10 new_handles refused "default" "GET" "http://example.org"
              (async_at (2 # 10) 2) midnight = Some r
            /\ raises (outcome r) /\ attempts r = 3%nat.
Proof.
  destruct (retry_exhaustion (async_at (2 # 10) 2) new_handles refused
              "default" "GET" "http://example.org" midnight 10)
    as (r & H1 & H2 & _ & _ & H3 & _).
  - reflexivity.
  - intros k. exact I.
  - vm_compute. lia.
  - exists r. split; [exact H1|]. split; [exact H2|].
    apply H3; vm_compute; [discriminate | reflexivity].
Defined.

(** C3 as stated fails: a new manager has failure rate 0, so
    [max_retries = 2] yields one retry and two attempts in all. *)
Lemma two_attempts_on_new_manager :
  exists r, make_request 10 new_handles refused "default" "GET" "http://example.org"
              (__init__ 50 2 100 0) midnight = Some r
            /\ raises (outcome r) /\ attempts r = 2%nat /\ attempts r <> 3%nat.
Proof.
  eexists. split; [vm_compute; reflexivity|]. simpl.
  split; [exact I|]. split; [reflexivity | discriminate].
Qed.

End RetryFacts.

(** ** Global failure rate *)

Section FailureRateFacts.

Lemma sum_field_bounds (d : gmap string stats) :
  stats_sound d ->
  (0 <= sum_field failures d <= sum_field requests_made d)%Z.
Proof.
  intros H. unfold sum_field.
  assert (Hall : Forall (fun kv : string * stats =>
                           (0 <= failures (snd kv) <= requests_made (snd kv))%Z)
                        (map_to_list d)).
  { apply Forall_forall. intros [sid st] Hin.
    apply elem_of_map_to_list in Hin. simpl. eapply H, Hin. }
  induction Hall as [|kv l Hkv _ IH]; simpl; lia.
Qed.

Lemma failure_rate_of_bounds (d : gmap string stats) :
  stats_sound d -> 0 <= failure_rate_of d <= 1.
Proof.
  intros H. pose proof (sum_field_bounds d H) as [H0 H1].
  unfold failure_rate_of.
  destruct (Z.ltb_spec 0 (sum_field requests_made d)) as [Hpos|_]; [|split; lra].
  assert (Hq : 0 < inject_Z (sum_field requests_made d))
    by (change 0 with (inject_Z 0); rewrite <- Zlt_Qlt; exact Hpos).
  split.
  - apply Qle_shift_div_l; [exact Hq|]. rewrite Qmult_0_l.
    change 0 with (inject_Z 0). rewrite <- Zle_Qle. exact H0.
  - apply Qle_shift_div_r; [exact Hq|]. rewrite Qmult_1_l.
    rewrite <- Zle_Qle. exact H1.
Qed.

(** The rate is 0 as long as no request has been counted. *)
Lemma failure_rate_of_no_requests (d : gmap string stats) :
  sum_field requests_made d = 0%Z -> failure_rate_of d = 0.
Proof. intros H. unfold failure_rate_of. rewrite H. reflexivity. Qed.

Lemma stats_sound_empty : stats_sound ∅.
Proof. intros sid st H. rewrite lookup_empty in H. discriminate. Qed.

Lemma stats_sound_insert sid st (d : gmap string stats) :
  stats_sound d -> (0 <= failures st <= requests_made st)%Z ->
  stats_sound (<[sid := st]> d).
Proof.
  intros Hd Hst sid' st' Hl.
  destruct (decide (sid = sid')) as [->|Hne].
  - rewrite lookup_insert_eq in Hl. injection Hl as <-. exact Hst.
  - rewrite lookup_insert_ne in Hl by exact Hne. eapply Hd, Hl.
Qed.

Lemma stats_of_sound sid at_ (d : gmap string stats) :
  stats_sound d ->
  (0 <= failures (stats_of sid at_ d) <= requests_made (stats_of sid at_ d))%Z.
Proof.
  intros Hd. unfold stats_of. destruct (d !! sid) eqn:E; [eapply Hd, E | simpl; lia].
Qed.

Lemma sync_inv_apply e m : sync_inv m -> sync_inv (SessionManager.apply e m).
Proof.
  intros [Hs Hr]. destruct e as [closes sid at_|r sid at_|]; simpl.
  - unfold SessionManager.get_session.
    destruct (dict_get sid (SessionManager.sessions m)); simpl; [split; assumption|].
    split; [|exact Hr].
    apply stats_sound_insert; [exact Hs | simpl; apply stats_of_sound, Hs].
  - unfold SessionManager._monitor_response.
    pose proof (stats_of_sound sid at_ _ Hs) as Hst.
    set (st' := if (400 <=? _)%Z then _ else _).
    assert (Hs' : stats_sound (<[sid := st']> (SessionManager.session_stats m))).
    { apply stats_sound_insert; [exact Hs|].
      subst st'. destruct (400 <=? _)%Z; simpl; lia. }
    destruct (Qlt_le_dec _ _); simpl; split; try assumption.
    apply failure_rate_of_bounds, Hs'.
  - split; [exact Hs | apply failure_rate_of_bounds, Hs].
Qed.

(** On the synchronous manager the rate stays in [0,1] whatever is
    recorded. *)
Lemma sync_failure_rate_in_unit_interval es mc mr at_ :
  let m := SessionManager.run es (SessionManager.__init__ mc mr at_) in
  0 <= SessionManager.global_failure_rate m <= 1.
Proof.
  cbn zeta. apply (proj2 (A := stats_sound (SessionManager.session_stats
    (SessionManager.run es (SessionManager.__init__ mc mr at_))))).
  induction es as [|e es IH] using rev_ind.
  - split; [apply stats_sound_empty | simpl; lra].
  - unfold SessionManager.run in *. rewrite fold_left_app. simpl.
    apply sync_inv_apply, IH.
Qed.

Import AsyncSessionManager.

(** C1. On the async manager one answered request followed by two
    requests that exhaust their retries on a transport error leaves one
    counted request and two failures: [_monitor_failure] adds to
    [failures] without adding to [requests_made], and the derived rate
    is 2. *)
Theorem async_failure_rate_exceeds_one :
  exists r, request refused (request refused (request answers new_run)) = Some r
            /\ sum_field requests_made (session_stats (manager r)) = 1%Z
            /\ sum_field failures (session_stats (manager r)) = 2%Z
            /\ global_failure_rate (manager r) == 2
            /\ ~ global_failure_rate (manager r) <= 1.
Proof.
  eexists. split; [vm_compute; reflexivity|]. cbn [manager].
  split; [vm_compute; reflexivity|].
  split; [vm_compute; reflexivity|].
  split; [vm_compute; reflexivity|].
  vm_compute. intros H. apply H. reflexivity.
Qed.

End FailureRateFacts.

(** ** Closing the sessions *)

Section CloseFacts.

Lemma close_quietly_ok {A} (close_of : A -> result unit) l :
  AsyncSessionManager.close_quietly close_of l = Ok tt.
Proof. induction l as [|x l IH]; simpl; [reflexivity|]. destruct (close_of x); exact IH. Qed.

(** X29. The async [close_all] never raises: it swallows the error of
    every session and connector, forgets all handles, and so a second
    call finds nothing to close. *)
Lemma async_close_all_never_raises m :
  let r := AsyncSessionManager.close_all m in
  fst r = Ok tt
  /\ AsyncSessionManager.sessions (snd r) = []
  /\ AsyncSessionManager._connector_cache (snd r) = []
  /\ fst (AsyncSessionManager.close_all (snd r)) = Ok tt.
Proof.
  cbn zeta. unfold AsyncSessionManager.close_all.
  rewrite !close_quietly_ok. simpl. auto.
Qed.

(** On the synchronous manager a second call after a first that went
    through does not raise. *)
Lemma sync_close_all_twice m :
  fst (SessionManager.close_all m) = Ok tt ->
  fst (SessionManager.close_all (snd (SessionManager.close_all m))) = Ok tt.
Proof.
  unfold SessionManager.close_all.
  destruct (SessionManager.close_each _); [reflexivity | discriminate].
Qed.

(** C5. The synchronous [close_all] has no [try]: when [close()] of a
    session raises, the error leaves [close_all] and no session is
    forgotten. *)
Theorem sync_close_all_raises :
  fst (SessionManager.close_all with_broken_session)
  = Raise (Exception "connection pool is closed")
  /\ SessionManager.sessions (snd (SessionManager.close_all with_broken_session))
     = SessionManager.sessions with_broken_session
  /\ SessionManager.sessions with_broken_session <> [].
Proof.
  split; [vm_compute; reflexivity|].
  split; [vm_compute; reflexivity | vm_compute; discriminate].
Qed.

End CloseFacts.

(** ** Batch fan-out *)

Section BatchFacts.
Import AsyncBongoCat.

Variable use_browser : bool.
Variable envs : nat -> task_env.
Variable at_ : Q.

Lemma settle_from_length urls : forall i, length (settle_from use_browser envs at_ i urls) = length urls.
Proof. induction urls as [|u urls IH]; intros i; simpl; [reflexivity | rewrite IH; reflexivity]. Qed.

Lemma settle_from_lookup urls : forall k j u,
  urls !! j = Some u -> settle_from use_browser envs at_ k urls !! j = Some (settle use_browser envs at_ (k + j) u).
Proof.
  induction urls as [|v urls IH]; intros k j u H; [discriminate|].
  destruct j as [|j]; simpl in *.
  - injection H as ->. rewrite Nat.add_0_r. reflexivity.
  - rewrite (IH (S k) j u H). f_equal. f_equal. lia.
Qed.

Lemma process_gather urls rest : forall pre processed,
  urls = pre ++ rest ->
  process urls at_ (length pre) (gather use_browser envs (length pre) rest) processed
  = Ok (processed ++ settle_from use_browser envs at_ (length pre) rest).
Proof.
  induction rest as [|u rest IH]; intros pre processed Hsplit; simpl.
  - rewrite app_nil_r. reflexivity.
  - assert (Hnext : urls = (pre ++ [u]) ++ rest) by (rewrite <- app_assoc; exact Hsplit).
    specialize (IH (pre ++ [u])). rewrite length_app in IH. simpl in IH.
    rewrite Nat.add_1_r in IH.
    unfold settle at 1.
    destruct (scrape use_browser (envs (length pre)) u) as [r|e].
    + rewrite (IH _ Hnext), <- app_assoc. reflexivity.
    + unfold index. rewrite Hsplit at 1.
      rewrite list_lookup_middle by reflexivity.
      rewrite (IH _ Hnext), <- app_assoc. reflexivity.
Qed.

Lemma scrape_multiple_settles urls :
  scrape_multiple use_browser envs at_ urls = Ok (settle_from use_browser envs at_ 0 urls).
Proof.
  unfold scrape_multiple. destruct urls as [|u urls]; [reflexivity|].
  apply (process_gather (u :: urls) (u :: urls) [] []). reflexivity.
Qed.

Lemma settle_cases i u :
  field "url" (settle use_browser envs at_ i u) = Some (VStr u)
  /\ (forall e, rate_limit (envs i) = Raise e -> is_failure u (str e) (settle use_browser envs at_ i u))
  /\ (forall e, rate_limit (envs i) = Ok tt -> fetch (envs i) = Raise e ->
      is_failure u (str e) (settle use_browser envs at_ i u))
  /\ (forall p, rate_limit (envs i) = Ok tt -> fetch (envs i) = Ok p ->
      is_success u (settle use_browser envs at_ i u)).
Proof.
  unfold settle, scrape, _scrape_with_browser, _scrape_with_requests,
    is_failure, is_success.
  destruct (rate_limit (envs i)) as [[]|e0], (fetch (envs i)) as [p0|e1],
    use_browser; repeat split; intros; try discriminate;
    repeat match goal with H : Raise _ = Raise _ |- _ => injection H as -> end;
    reflexivity.
Qed.

(** C2. The batch call returns normally, with one record per input URL
    and in input order; the record at position [i] is read off task [i]
    alone, so it is a [Failure] for its own URL with the exception's
    message when that task raises (in the rate limiter or in the fetch)
    and a [Success] for its URL when it does not, whatever the other
    tasks did. *)
Theorem scrape_multiple_one_result_per_url (urls : list string) :
  exists results,
    scrape_multiple use_browser envs at_ urls = Ok results
    /\ length results = length urls
    /\ forall i u, urls !! i = Some u ->
         exists r, results !! i = Some r
           /\ r = settle use_browser envs at_ i u
           /\ field "url" r = Some (VStr u)
           /\ (forall e, rate_limit (envs i) = Raise e -> is_failure u (str e) r)
           /\ (forall e, rate_limit (envs i) = Ok tt -> fetch (envs i) = Raise e ->
               is_failure u (str e) r)
           /\ (forall p, rate_limit (envs i) = Ok tt -> fetch (envs i) = Ok p ->
               is_success u r).
Proof.
  exists (settle_from use_browser envs at_ 0 urls).
  split; [apply scrape_multiple_settles|].
  split; [apply settle_from_length|].
  intros i u Hu. exists (settle use_browser envs at_ i u).
  split; [apply (settle_from_lookup urls 0 i u Hu)|].
  split; [reflexivity | apply settle_cases].
Qed.

End BatchFacts.

Section BatchExample.
Import AsyncBongoCat.

Lemma scrape_multiple_one_result_per_url_witness :
  exists r1 r2 r3,
    scrape_multiple false only_second_fails 12 ["u1"; "u2"; "u3"] = Ok [r1; r2; r3]
    /\ is_success "u1" r1
    /\ is_failure "u2" "Max retries (2) exceeded for u2" r2
    /\ is_success "u3" r3.
Proof.
  destruct (scrape_multiple_one_result_per_url false only_second_fails 12
              ["u1"; "u2"; "u3"]) as (results & Hrun & Hlen & Hat).
  destruct (Hat 0%nat "u1" eq_refl) as (r1 & H1 & _ & _ & _ & _ & S1).
  destruct (Hat 1%nat "u2" eq_refl) as (r2 & H2 & _ & _ & _ & F2 & _).
  destruct (Hat 2%nat "u3" eq_refl) as (r3 & H3 & _ & _ & _ & _ & S3).
  exists r1, r2, r3.
  destruct results as [|x1 [|x2 [|x3 [|x4 rest]]]]; try discriminate Hlen.
  simpl in H1, H2, H3. injection H1 as ->. injection H2 as ->. injection H3 as ->.
  split; [exact Hrun|].
  split; [exact (S1 _ eq_refl eq_refl)|].
  split; [exact (F2 _ eq_refl eq_refl) | exact (S3 _ eq_refl eq_refl)].
Defined.

End BatchExample.

(** ** Rate limiter: what every sequence of calls preserves *)

Section LimiterInvariants.
Import RateLimiter RateLimiterCalls.

Lemma interval_of_nonneg rps : 0 <= interval_of rps.
Proof.
  unfold interval_of. destruct (Qlt_le_dec 0 rps) as [Hr|_]; [|lra].
  unfold Qdiv. rewrite Qmult_1_l. apply Qlt_le_weak, Qinv_lt_0_compat, Hr.
Qed.

Lemma failure_factor_above_one code : 1 <= failure_factor code.
Proof.
  unfold failure_factor. destruct code as [z|]; [|lra].
  destruct (z =? 429)%Z; [lra|]. destruct (bool_decide _); lra.
Qed.

(** What [wait] leaves untouched, and what it adds to the clock. *)
Lemma wait_frame l s c :
  let s' := fst (wait l s c) in
  min_interval s' = min_interval s /\ current_delay s' = current_delay s
  /\ success_count s' = success_count s /\ adaptive_mode s' = adaptive_mode s
  /\ burst_limit s' = burst_limit s.
Proof.
  cbn zeta. unfold wait.
  destruct (_update_burst_tracking _ _ _) as [s3 c3] eqn:E.
  unfold _update_burst_tracking in E. injection E as <- _. simpl. auto.
Qed.

Lemma wait_sleeps l s c :
  0 <= current_delay s -> Forall (Qle 0) (slept c) ->
  Forall (Qle 0) (slept (snd (wait l s c))).
Proof.
  intros Hd Hs. unfold wait, _update_burst_tracking. simpl.
  repeat match goal with
         | |- context [if ?b then _ else _] => destruct b
         end; simpl;
    repeat (apply Forall_app; split); try exact Hs;
    repeat constructor; simpl in *; lra.
Qed.

Lemma sane_perform k sc : limiter_sane sc -> limiter_sane (perform k sc).
Proof.
  destruct sc as [s c]. unfold limiter_sane. simpl.
  intros (Hm & Hd & Hc & Hs). destruct k as [l| | | |code|r]; cbn [perform fst snd].
  - pose proof (wait_frame l s c) as (-> & -> & -> & _).
    repeat split; try assumption; try lia. apply wait_sleeps; assumption.
  - simpl. repeat split; try assumption; lia.
  - simpl. repeat split; try assumption; lia.
  - unfold report_success. destruct (adaptive_mode s); [|repeat split; try assumption; lia].
    destruct (5 <=? success_count s + 1)%Z eqn:E; simpl;
      repeat split; try assumption; try lia.
    apply Q.max_le_iff. left. exact Hm.
  - unfold report_failure. destruct (adaptive_mode s); simpl;
      [|repeat split; try assumption; lia].
    repeat split; try assumption; try lia.
    apply Q.min_glb; [|lra].
    pose proof (failure_factor_above_one code). nra.
  - pose proof (interval_of_nonneg r). simpl.
    repeat split; try assumption; try lia.
    destruct (adaptive_mode s); assumption.
Qed.

Lemma perform_all_snoc ks k sc :
  perform_all (ks ++ [k]) sc = perform k (perform_all ks sc).
Proof. unfold perform_all. rewrite fold_left_app. reflexivity. Qed.

Lemma sane_perform_all rps burst t0 ks :
  limiter_sane (perform_all ks (fresh rps burst, clock_at t0)).
Proof.
  induction ks as [|k ks IH] using rev_ind.
  - pose proof (interval_of_nonneg rps).
    unfold limiter_sane; simpl. repeat split; try assumption; try lia. constructor.
  - rewrite perform_all_snoc. apply sane_perform, IH.
Qed.

(** X1. Whatever is called on a new limiter, and in whatever order, the
    target interval and the adaptive delay stay non-negative, the success
    streak stays below 5, and no [time.sleep] is ever asked for a negative
    duration. *)
Theorem limiter_never_sleeps_negative (rps : Q) (burst : Z) (t0 : Q) (ks : list call) :
  let sc := perform_all ks (fresh rps burst, clock_at t0) in
  0 <= min_interval (fst sc) /\ 0 <= current_delay (fst sc)
  /\ (0 <= success_count (fst sc) < 5)%Z
  /\ Forall (Qle 0) (slept (snd sc)).
Proof. exact (sane_perform_all rps burst t0 ks). Qed.

Lemma band_perform k sc :
  keeps_rate k -> 0 <= min_interval (fst sc) <= 30 ->
  min_interval (fst sc) <= current_delay (fst sc) <= 30 ->
  min_interval (fst (perform k sc)) = min_interval (fst sc)
  /\ min_interval (fst sc) <= current_delay (fst (perform k sc)) <= 30.
Proof.
  destruct sc as [s c]. simpl. intros Hk [Hpos Hcap] [Hlo Hhi].
  destruct k as [l| | | |code|r]; cbn [perform fst snd]; try contradiction.
  - pose proof (wait_frame l s c) as (-> & -> & _). auto.
  - simpl. auto.
  - simpl. split; [reflexivity | lra].
  - unfold report_success. destruct (adaptive_mode s); [|auto].
    destruct (5 <=? success_count s + 1)%Z; simpl; [|auto].
    split; [reflexivity|]. split; [apply Q.le_max_l|].
    apply Q.max_lub; lra.
  - unfold report_failure. destruct (adaptive_mode s); simpl; [|auto].
    split; [reflexivity|]. split; [|apply Q.le_min_r].
    apply Q.min_glb; [|lra].
    pose proof (failure_factor_above_one code). nra.
Qed.

(** X2. On a limiter whose target interval is at most 30 seconds, and as
    long as [set_rate] is not called, the adaptive delay stays between the
    target interval and the 30 second cap, whatever successes and failures
    are reported and whenever adaptive mode is switched. *)
Theorem adaptive_delay_in_band (rps : Q) (burst : Z) (t0 : Q) (ks : list call) :
  interval_of rps <= 30 -> Forall keeps_rate ks ->
  let s := fst (perform_all ks (fresh rps burst, clock_at t0)) in
  min_interval s = interval_of rps
  /\ interval_of rps <= current_delay s <= 30.
Proof.
  intros Hcap Hks. cbn zeta.
  induction ks as [|k ks IH] using rev_ind.
  - simpl. split; [reflexivity | lra].
  - apply Forall_app in Hks as [Hks Hk]. inversion Hk as [|? ? Hk1 _]; subst.
    destruct (IH Hks) as [Hm Hb]. rewrite perform_all_snoc.
    pose proof (interval_of_nonneg rps) as Hpos.
    destruct (band_perform k (perform_all ks (fresh rps burst, clock_at t0)) Hk1)
      as [Hm' Hb']; rewrite ?Hm; auto.
    rewrite Hm', Hm. rewrite Hm in Hb'. auto.
Qed.

Lemma adaptive_delay_in_band_witness :
  let s := fst (perform_all
                  [EnableAdaptiveMode; ReportFailure (Some 429%Z); ReportFailure None;
                   Wait no_latency; ReportSuccess]
                  (fresh 2 5, clock_at 100)) in
  interval_of 2 <= 30
  /\ min_interval s = interval_of 2
  /\ interval_of 2 <= current_delay s <= 30.
Proof.
  cbn zeta.
  assert (Hcap : interval_of 2 <= 30) by (vm_compute; discriminate).
  split; [exact Hcap|].
  apply (adaptive_delay_in_band 2 5 100
           [EnableAdaptiveMode; ReportFailure (Some 429%Z); ReportFailure None;
            Wait no_latency; ReportSuccess] Hcap).
  repeat constructor.
Defined.

End LimiterInvariants.

(** ** Rate limiter: the burst window *)

Section BurstWindow.
Import RateLimiter RateLimiterCalls.

Lemma ascending_suffix pre l : ascending (pre ++ l) -> ascending l.
Proof. induction pre as [|x pre IH]; simpl; [auto | intros [_ H]; auto]. Qed.

Lemma ascending_snoc l x :
  ascending l -> Forall (fun y => y <= x) l -> ascending (l ++ [x]).
Proof.
  induction l as [|y l IH]; simpl; intros Ha Hx.
  - split; constructor.
  - destruct Ha as [Hy Ha]. inversion Hx as [|? ? Hyx Hlx]; subst.
    split; [|apply IH; assumption].
    apply Forall_app. split; [exact Hy | repeat constructor; exact Hyx].
Qed.

Lemma trim_old_suffix ct rt : exists pre, rt = pre ++ trim_old ct rt.
Proof.
  induction rt as [|x rt [pre IH]]; simpl.
  - exists []. reflexivity.
  - destruct (Qle_bool 1 (ct - x)).
    + exists (x :: pre). simpl. f_equal. exact IH.
    + exists []. reflexivity.
Qed.

Lemma trim_old_recent ct rt :
  ascending rt -> Forall (fun x => ct - x < 1) (trim_old ct rt).
Proof.
  induction rt as [|x rt IH]; simpl; [constructor|].
  intros [Hx Ha]. destruct (Qle_bool 1 (ct - x)) eqn:E; [apply IH, Ha|].
  assert (Hlt : ct - x < 1).
  { apply Qnot_le_lt. intros H. apply Qle_bool_iff in H. congruence. }
  constructor; [exact Hlt|].
  eapply Forall_impl; [exact Hx|]. simpl. intros y Hy. lra.
Qed.

(** The deque after [append]: the stamps it held, possibly without the
    oldest, followed by the new stamp; or nothing when the capacity is 0. *)
Lemma deque_append_shape maxlen x dq :
  (Z.of_nat (length dq) <= maxlen)%Z ->
  (deque_append maxlen x dq = [] /\ maxlen = 0%Z)
  \/ (exists pre kept, dq = pre ++ kept /\ deque_append maxlen x dq = kept ++ [x]
                       /\ (Z.of_nat (length kept) < maxlen)%Z).
Proof.
  intros Hm. unfold deque_append.
  destruct (Z.eqb_spec maxlen 0) as [->|Hne]; [left; auto|]. right.
  destruct (Z.leb_spec maxlen (Z.of_nat (length dq))) as [Hfull|Hroom].
  - destruct dq as [|y dq]; [simpl in *; lia|].
    exists [y], dq. simpl in *. repeat split. lia.
  - exists [], dq. simpl. repeat split. exact Hroom.
Qed.

Lemma window_burst_tracking d s c :
  0 <= d -> window_ok (s, c) -> window_ok (_update_burst_tracking d s c).
Proof.
  intros Hd (Hlen & Hasc & Hpast & _). unfold window_ok in *. simpl in *.
  set (ct := now c + d).
  destruct (trim_old_suffix ct (request_times s)) as [old Hold].
  pose proof (trim_old_recent ct (request_times s) Hasc) as Hrecent.
  assert (Hasc' : ascending (trim_old ct (request_times s)))
    by (apply (ascending_suffix old); rewrite <- Hold; exact Hasc).
  assert (Hpast' : Forall (fun x => x <= ct) (trim_old ct (request_times s))).
  { rewrite Hold in Hpast. apply Forall_app in Hpast as [_ Hp].
    eapply Forall_impl; [exact Hp|]. simpl. intros y Hy. subst ct. lra. }
  assert (Hlen' : (Z.of_nat (length (trim_old ct (request_times s)))
                   <= burst_limit s * 2)%Z).
  { rewrite Hold in Hlen. rewrite length_app in Hlen. lia. }
  set (c2 := if (burst_limit s <=? _)%Z then _ else _).
  assert (Hc2 : ct <= now c2).
  { subst c2. destruct (burst_limit s <=? _)%Z; simpl; subst ct; lra. }
  destruct (deque_append_shape (burst_limit s * 2) ct _ Hlen')
    as [[-> _] | (pre & kept & Hsplit & -> & Hroom)].
  - simpl. split; [lia|]. split; [exact I|]. split; [constructor|].
    intros newest Hlast. discriminate Hlast.
  - rewrite Hsplit in Hasc', Hpast', Hrecent.
    apply ascending_suffix in Hasc'.
    apply Forall_app in Hpast' as [_ Hpast'].
    apply Forall_app in Hrecent as [_ Hrecent].
    repeat split.
    + rewrite length_app. simpl. lia.
    + apply ascending_snoc; assumption.
    + apply Forall_app. split.
      * eapply Forall_impl; [exact Hpast'|]. simpl. intros y Hy. lra.
      * repeat constructor. exact Hc2.
    + intros newest Hlast. rewrite last_snoc in Hlast. injection Hlast as <-.
      apply Forall_app. split; [exact Hrecent|].
      repeat constructor. lra.
Qed.

Lemma window_later s c c' :
  now c <= now c' -> window_ok (s, c) -> window_ok (s, c').
Proof.
  intros Hc (Hlen & Hasc & Hpast & Hspan). unfold window_ok in *. simpl in *.
  repeat split; try assumption.
  eapply Forall_impl; [exact Hpast|]. simpl. intros y Hy. lra.
Qed.

Lemma window_wait l s c :
  latency_ok l -> 0 <= current_delay s -> window_ok (s, c) -> window_ok (wait l s c).
Proof.
  intros (Hr & Ht & Hs) Hd Hw. unfold wait.
  set (c1 := elapse (before_read l) c).
  set (c2 := if adaptive_mode s then _ else _).
  assert (H2 : now c <= now c2).
  { subst c2 c1. destruct (adaptive_mode s); [simpl; lra|].
    destruct (Qlt_le_dec _ _); simpl in *; lra. }
  pose proof (window_burst_tracking (before_track l) s c2 Ht
                (window_later s c c2 H2 Hw)) as Hb.
  destruct (_update_burst_tracking (before_track l) s c2) as [s3 c3].
  apply (window_later _ c3); [simpl; lra|].
  destruct Hb as (H1 & H3 & H4 & H5). unfold window_ok. simpl in *. auto.
Qed.

Lemma window_perform k sc :
  call_ok k -> limiter_sane sc -> window_ok sc -> window_ok (perform k sc).
Proof.
  destruct sc as [s c]. intros Hk (_ & Hd & _) Hw.
  destruct k as [l| | | |code|r]; cbn [perform]; try exact Hw.
  - apply window_wait; assumption.
  - unfold report_success. destruct (adaptive_mode s); [|exact Hw].
    destruct (5 <=? _)%Z; exact Hw.
  - unfold report_failure. destruct (adaptive_mode s); exact Hw.
Qed.

Lemma perform_burst_limit k sc :
  burst_limit (fst (perform k sc)) = burst_limit (fst sc).
Proof.
  destruct sc as [s c].
  destruct k as [l| | | |code|r]; cbn [perform fst].
  - apply wait_frame.
  - reflexivity.
  - reflexivity.
  - unfold report_success. destruct (adaptive_mode s); [|reflexivity].
    destruct (5 <=? _)%Z; reflexivity.
  - unfold report_failure. destruct (adaptive_mode s); reflexivity.
  - reflexivity.
Qed.

(** X3. On a limiter built with a non-negative burst limit, whatever is
    called and whatever latencies the calls meet, the window of recent
    request times holds at most [2 * burst_limit] stamps, oldest first,
    none later than the clock, and every one of them less than a second
    older than the newest. *)
Theorem burst_window_invariant (rps : Q) (burst : Z) (t0 : Q) (ks : list call) :
  (0 <= burst)%Z -> Forall call_ok ks ->
  let sc := perform_all ks (fresh rps burst, clock_at t0) in
  let rt := request_times (fst sc) in
  (Z.of_nat (length rt) <= burst * 2)%Z
  /\ ascending rt
  /\ Forall (fun x => x <= now (snd sc)) rt
  /\ forall newest, last rt = Some newest -> Forall (fun x => newest - x < 1) rt.
Proof.
  intros Hb Hks. cbn zeta.
  assert (H : window_ok (perform_all ks (fresh rps burst, clock_at t0))
              /\ burst_limit (fst (perform_all ks (fresh rps burst, clock_at t0))) = burst).
  { induction ks as [|k ks IH] using rev_ind.
    - split; [|reflexivity]. unfold window_ok. simpl.
      split; [lia|]. split; [exact I|]. split; [constructor|].
      intros newest Hlast. discriminate Hlast.
    - apply Forall_app in Hks as [Hks Hk]. inversion Hk as [|? ? Hk1 _]; subst.
      destruct (IH Hks) as [Hw Hbl]. rewrite perform_all_snoc. split.
      + apply window_perform; [exact Hk1 | | exact Hw].
        apply sane_perform_all.
      + rewrite perform_burst_limit. exact Hbl. }
  destruct H as [(H1 & H2 & H3 & H4) Hbl]. rewrite Hbl in H1. auto.
Qed.

Lemma burst_window_invariant_witness :
  let sc := perform_all [Wait no_latency; Wait no_latency; Wait no_latency]
              (fresh 100 1, clock_at 50) in
  (Z.of_nat (length (request_times (fst sc))) <= 1 * 2)%Z
  /\ ascending (request_times (fst sc)).
Proof.
  cbn zeta.
  destruct (burst_window_invariant 100 1 50
              [Wait no_latency; Wait no_latency; Wait no_latency])
    as (H1 & H2 & _).
  - lia.
  - repeat constructor; vm_compute; discriminate.
  - split; assumption.
Defined.

End BurstWindow.

(** ** Proxy handler: validation, hand-out, add and remove *)

Section ProxyHandlerMore.
Import ProxyHandler.

Lemma validate_loop_perm net ps : forall k w f,
  fst (validate_loop net k ps w f) ++ snd (validate_loop net k ps w f)
  ≡ₚ ps ++ w ++ f.
Proof.
  induction ps as [|q ps IH]; intros k w f; simpl; [reflexivity|].
  assert (Hw : ps ++ (w ++ [q]) ++ f ≡ₚ q :: ps ++ w ++ f).
  { rewrite <- (app_assoc w [q] f). simpl.
    rewrite (app_assoc ps w (q :: f)), <- Permutation_middle, <- app_assoc.
    reflexivity. }
  assert (Hf : ps ++ w ++ f ++ [q] ≡ₚ q :: ps ++ w ++ f).
  { rewrite !app_assoc. rewrite <- Permutation_cons_append. reflexivity. }
  destruct (net k q) as [code|]; [destruct (code =? 200)%Z|];
    rewrite IH; assumption.
Qed.

(** Where the members of the two partitions come from: a probe of the
    pass that answered 200, or one that did not. *)
Lemma validate_loop_origin net ps : forall k w f p,
  (p ∈ fst (validate_loop net k ps w f) ->
   p ∈ w \/ exists j, ps !! j = Some p /\ net (k + j)%nat p = Status 200)
  /\ (p ∈ snd (validate_loop net k ps w f) ->
      p ∈ f \/ exists j, ps !! j = Some p /\ net (k + j)%nat p <> Status 200).
Proof.
  induction ps as [|q ps IH]; intros k w f p; simpl; [auto|].
  assert (Hshift : forall j, (S k + j = k + S j)%nat) by (intros; lia).
  destruct (net k q) as [code|] eqn:E; [destruct (Z.eqb_spec code 200) as [->|Hne]|].
  - destruct (IH (S k) (w ++ [q]) f p) as [H1 H2]. split.
    + intros H. destruct (H1 H) as [Hin | (j & Hj & Hn)].
      * apply elem_of_app in Hin as [Hin | Hin]; [auto|].
        apply list_elem_of_singleton in Hin as ->.
        right. exists 0%nat. rewrite Nat.add_0_r. auto.
      * right. exists (S j). rewrite <- Hshift. auto.
    + intros H. destruct (H2 H) as [Hin | (j & Hj & Hn)]; [auto|].
      right. exists (S j). rewrite <- Hshift. auto.
  - destruct (IH (S k) w (f ++ [q]) p) as [H1 H2]. split.
    + intros H. destruct (H1 H) as [Hin | (j & Hj & Hn)]; [auto|].
      right. exists (S j). rewrite <- Hshift. auto.
    + intros H. destruct (H2 H) as [Hin | (j & Hj & Hn)].
      * apply elem_of_app in Hin as [Hin | Hin]; [auto|].
        apply list_elem_of_singleton in Hin as ->.
        right. exists 0%nat. rewrite Nat.add_0_r, E. split; [reflexivity|].
        intros [= ->]. congruence.
      * right. exists (S j). rewrite <- Hshift. auto.
  - destruct (IH (S k) w (f ++ [q]) p) as [H1 H2]. split.
    + intros H. destruct (H1 H) as [Hin | (j & Hj & Hn)]; [auto|].
      right. exists (S j). rewrite <- Hshift. auto.
    + intros H. destruct (H2 H) as [Hin | (j & Hj & Hn)].
      * apply elem_of_app in Hin as [Hin | Hin]; [auto|].
        apply list_elem_of_singleton in Hin as ->.
        right. exists 0%nat. rewrite Nat.add_0_r, E. split; [reflexivity | discriminate].
      * right. exists (S j). rewrite <- Hshift. auto.
Qed.

(** X4. A validation pass sorts the base pool into the two partitions: the
    healthy list followed by the unhealthy list is a rearrangement of the
    base pool, so the counts of [get_proxy_stats] add up; a proxy is
    healthy only through a probe of this pass that answered 200 and
    unhealthy only through one that did not; and the outcome does not
    depend on the partitions held before. *)
Theorem validation_repartitions (net : network) (at_ : Q) (s : t) :
  let s' := _validate_proxies net at_ s in
  proxy_list s' = proxy_list s
  /\ working_proxies s' ++ failed_proxies s' ≡ₚ proxy_list s
  /\ (working_count (get_proxy_stats s') + failed_count (get_proxy_stats s')
      = total_proxies (get_proxy_stats s'))%nat
  /\ (forall p, p ∈ working_proxies s' ->
        exists j, proxy_list s !! j = Some p /\ net j p = Status 200)
  /\ (forall p, p ∈ failed_proxies s' ->
        exists j, proxy_list s !! j = Some p /\ net j p <> Status 200)
  /\ (forall net0 at0, _validate_proxies net at_ (_validate_proxies net0 at0 s) = s').
Proof.
  cbn zeta. unfold get_proxy_stats.
  pose proof (validate_loop_perm net (proxy_list s) 0 [] []) as Hperm.
  pose proof (validate_loop_origin net (proxy_list s) 0 [] []) as Horigin.
  destruct (validate_loop net 0 (proxy_list s) [] []) as [w f] eqn:E. simpl in *.
  rewrite app_nil_r in Hperm.
  assert (Hs' : _validate_proxies net at_ s
                = {| proxy_list := proxy_list s; working_proxies := w;
                     failed_proxies := f; last_validation := at_;
                     validation_interval := validation_interval s |})
    by (unfold _validate_proxies; rewrite E; reflexivity).
  rewrite Hs'. simpl.
  split; [reflexivity|]. split; [exact Hperm|].
  split; [rewrite <- length_app, Hperm; reflexivity|].
  split; [|split].
  - intros p Hp. destruct (proj1 (Horigin p) Hp) as [Hin | H]; [inversion Hin | exact H].
  - intros p Hp. destruct (proj2 (Horigin p) Hp) as [Hin | H]; [inversion Hin | exact H].
  - intros net0 at0. unfold _validate_proxies.
    destruct (validate_loop net0 0 (proxy_list s) [] []) as [w0 f0]. simpl.
    rewrite E. reflexivity.
Qed.

(** X5. The three ways [get_proxy] ends.  It returns [None] exactly when
    the healthy list is empty at the call, and then changes nothing (no
    revalidation, however old the last one is).  It returns a proxy only
    from the healthy list it leaves behind, the same for [http] and
    [https].  It raises only when the revalidation it triggered left no
    healthy proxy. *)
Theorem get_proxy_outcomes (net : network) (ct at_ : Q) (rnd : nat) (s : t) :
  match get_proxy net ct at_ rnd s with
  | (Ok None, s') => working_proxies s = [] /\ s' = s
  | (Ok (Some d), s') =>
      working_proxies s <> [] /\ http d ∈ working_proxies s' /\ https d = http d
      /\ (s' = s \/ s' = _validate_proxies net at_ s)
  | (Raise e, s') =>
      working_proxies s <> [] /\ s' = _validate_proxies net at_ s
      /\ working_proxies s' = [] /\ validation_interval s < ct - last_validation s
  end.
Proof.
  unfold get_proxy. destruct (working_proxies s) as [|w0 ws] eqn:Ew; [auto|].
  destruct (Qlt_le_dec (validation_interval s) (ct - last_validation s)) as [Hdue|Hnot].
  - destruct (random_choice rnd (working_proxies (_validate_proxies net at_ s)))
      as [p|e] eqn:Ec.
    + simpl. repeat split; [discriminate | eapply random_choice_member, Ec | auto].
    + repeat split; [discriminate | | exact Hdue].
      unfold random_choice in Ec.
      destruct (working_proxies (_validate_proxies net at_ s)); [reflexivity | discriminate].
  - destruct (random_choice rnd (working_proxies s)) as [p|e] eqn:Ec.
    + simpl. repeat split; [discriminate | eapply random_choice_member, Ec | auto].
    + rewrite Ew in Ec. discriminate Ec.
Qed.

(** X6. Once the healthy list is empty, [get_proxy] alone never brings a
    proxy back: any number of calls, at any later time and on any network,
    leaves the handler as it is (only [force_validation] probes again). *)
Theorem get_proxy_never_recovers (ops : list op) (s : t) :
  working_proxies s = [] -> Forall is_get_proxy ops -> run ops s = s.
Proof.
  intros Hw Hops. induction ops as [|o ops IH] using rev_ind; [reflexivity|].
  apply Forall_app in Hops as [Hops Ho]. inversion Ho as [|? ? Ho1 _]; subst.
  rewrite run_snoc, (IH Hops).
  destruct o as [q|q|net at_|net ct at_ rnd]; try contradiction.
  simpl. rewrite get_proxy_none_on_empty by exact Hw. reflexivity.
Qed.

Lemma get_proxy_never_recovers_witness :
  let s := __init__ (Some [proxy_a; proxy_b]) all_down 0 in
  working_proxies s = []
  /\ run [GetProxy all_up 1000 1001 0; GetProxy all_up 2000 2001 1] s = s.
Proof.
  cbn zeta. assert (H : working_proxies (__init__ (Some [proxy_a; proxy_b]) all_down 0) = [])
    by reflexivity.
  split; [exact H|].
  apply (get_proxy_never_recovers _ _ H). repeat constructor.
Defined.

Lemma list_remove_snoc p l : p ∉ l -> list_remove p (l ++ [p]) = l.
Proof.
  induction l as [|y l IH]; simpl; intros Hn.
  - destruct (decide (p = p)); [reflexivity | congruence].
  - apply not_elem_of_cons in Hn as [Hne Hn].
    destruct (decide (p = y)); [congruence|]. f_equal. apply IH, Hn.
Qed.

Lemma discard_absent p l : p ∉ l -> discard p l = l.
Proof.
  intros Hn. unfold discard. destruct (bool_decide (p ∈ l)) eqn:E; [|reflexivity].
  apply bool_decide_eq_true in E. contradiction.
Qed.

(** X7. [add_proxy] is idempotent; and on a handler reached by any calls
    after construction, adding a proxy the base pool does not hold and
    removing it again gives back the very same handler. *)
Theorem add_then_remove_restores
  (proxies : option (list string)) (net0 : network) (at0 : Q) (ops : list op)
  (p : string) :
  let s := run ops (__init__ proxies net0 at0) in
  add_proxy p (add_proxy p s) = add_proxy p s
  /\ (p ∉ proxy_list s -> remove_proxy p (add_proxy p s) = s).
Proof.
  cbn zeta. set (s := run ops (__init__ proxies net0 at0)).
  assert (Hb : backed s) by (apply backed_run, backed_init).
  split.
  - unfold add_proxy. destruct (bool_decide (p ∈ proxy_list s)) eqn:E.
    + rewrite E. reflexivity.
    + simpl. rewrite bool_decide_eq_true_2; [reflexivity|].
      rewrite elem_of_app, list_elem_of_singleton. auto.
  - intros Hn. unfold add_proxy.
    rewrite bool_decide_eq_false_2 by exact Hn.
    unfold remove_proxy. simpl.
    assert (Hw : (p ∉ working_proxies s) /\ (p ∉ failed_proxies s)).
    { specialize (Hb p). rewrite occ_not_elem_of in Hn.
      rewrite !occ_not_elem_of. lia. }
    destruct Hw as [Hw Hf].
    rewrite (discard_absent p (working_proxies s) Hw),
      (discard_absent p (failed_proxies s) Hf).
    rewrite discard_is_remove, list_remove_snoc by exact Hn.
    destruct s; reflexivity.
Qed.

Lemma add_then_remove_restores_witness :
  let s := run [ForceValidation all_down 10] (__init__ (Some [proxy_a]) all_up 0) in
  (proxy_b ∉ proxy_list s) /\ remove_proxy proxy_b (add_proxy proxy_b s) = s.
Proof.
  cbn zeta.
  assert (Hn : proxy_b ∉ proxy_list
                 (run [ForceValidation all_down 10] (__init__ (Some [proxy_a]) all_up 0))).
  { apply occ_not_elem_of. reflexivity. }
  split; [exact Hn|].
  exact (proj2 (add_then_remove_restores (Some [proxy_a]) all_up 0
                  [ForceValidation all_down 10] proxy_b) Hn).
Defined.

End ProxyHandlerMore.

(** ** Session dictionaries *)

Section DictFacts.
Context {V : Type}.
Implicit Types (d : list (string * V)) (k : string) (v : V).

Lemma dict_get_set_eq k v d : dict_get k (dict_set k v d) = Some v.
Proof.
  induction d as [|[k' v'] d IH]; simpl.
  - destruct (decide (k = k)); [reflexivity | congruence].
  - destruct (decide (k = k')) as [->|Hne]; simpl.
    + destruct (decide (k' = k')); [reflexivity | congruence].
    + destruct (decide (k = k')); [congruence | exact IH].
Qed.

Lemma dict_get_set_ne k k' v d : k <> k' -> dict_get k' (dict_set k v d) = dict_get k' d.
Proof.
  intros Hne. induction d as [|[k0 v0] d IH]; simpl.
  - destruct (decide (k' = k)); [congruence | reflexivity].
  - destruct (decide (k = k0)) as [->|Hk]; simpl.
    + destruct (decide (k' = k0)); [congruence | reflexivity].
    + destruct (decide (k' = k0)); [reflexivity | exact IH].
Qed.

Lemma dict_get_del_ne k k' d : k <> k' -> dict_get k' (dict_del k d) = dict_get k' d.
Proof.
  intros Hne. induction d as [|[k0 v0] d IH]; simpl; [reflexivity|].
  destruct (decide (k = k0)) as [->|Hk]; simpl.
  - destruct (decide (k' = k0)); [congruence | reflexivity].
  - destruct (decide (k' = k0)); [reflexivity | exact IH].
Qed.

Lemma dict_get_none k d : dict_get k d = None <-> k ∉ map fst d.
Proof.
  induction d as [|[k0 v0] d IH]; simpl.
  - split; [intros _ H; inversion H | reflexivity].
  - rewrite not_elem_of_cons, <- IH.
    destruct (decide (k = k0)); split; try discriminate; intuition congruence.
Qed.

Lemma dict_get_del_eq k d : dict_keys_unique d -> dict_get k (dict_del k d) = None.
Proof.
  unfold dict_keys_unique. induction d as [|[k0 v0] d IH]; simpl; [reflexivity|].
  intros Hu. apply NoDup_cons in Hu as [Hk0 Hu].
  destruct (decide (k = k0)) as [->|Hk]; simpl.
  - apply dict_get_none, Hk0.
  - destruct (decide (k = k0)); [congruence | apply IH, Hu].
Qed.

End DictFacts.

(** ** Synchronous manager: sessions *)

Section SyncSessions.
Import SessionManager.

Lemma get_session_present closes sid at_ m h :
  dict_get sid (sessions m) = Some h -> get_session closes sid at_ m = (Some h, m).
Proof. intros E. unfold get_session. rewrite E. simpl. rewrite E. reflexivity. Qed.

Lemma get_session_absent closes sid at_ m :
  dict_get sid (sessions m) = None ->
  exists m', get_session closes sid at_ m = (Some (_create_session closes m), m')
             /\ sessions m' = dict_set sid (_create_session closes m) (sessions m).
Proof.
  intros E. unfold get_session. rewrite E. simpl. rewrite dict_get_set_eq.
  eexists. split; reflexivity.
Qed.

(** X8. [get_session] always hands out a session; asking again for the
    same id gives the same session and changes nothing (the session keeps
    the retry strategy it was created with); a session that existed
    before is returned as it was; and no other id is affected. *)
Theorem get_session_same_handle
  (closes closes' : result unit) (sid : string) (at_ at' : Q) (m : t) :
  let r := get_session closes sid at_ m in
  exists h, fst r = Some h
    /\ get_session closes' sid at' (snd r) = (Some h, snd r)
    /\ (forall sid', sid' <> sid ->
          dict_get sid' (sessions (snd r)) = dict_get sid' (sessions m))
    /\ (forall h0, dict_get sid (sessions m) = Some h0 -> h = h0 /\ snd r = m)
    /\ (dict_get sid (sessions m) = None -> h = _create_session closes m).
Proof.
  cbn zeta. destruct (dict_get sid (sessions m)) as [h0|] eqn:E.
  - rewrite (get_session_present closes sid at_ m h0 E). simpl.
    exists h0. split; [reflexivity|]. split; [|split; [|split]].
    + apply get_session_present, E.
    + reflexivity.
    + intros h1 [= <-]. auto.
    + discriminate.
  - destruct (get_session_absent closes sid at_ m E) as (m' & -> & Hm'). simpl.
    exists (_create_session closes m).
    split; [reflexivity|]. split; [|split; [|split]].
    + apply get_session_present. rewrite Hm'. apply dict_get_set_eq.
    + intros sid' Hne. rewrite Hm'. apply dict_get_set_ne. congruence.
    + discriminate.
    + reflexivity.
Qed.

(** X9. [close_session] on an id that holds no session does nothing and
    does not raise.  On an id whose session closes, the id is forgotten
    and every other id keeps its session.  When the session's [close()]
    raises, the error leaves [close_session] and the session stays in the
    dictionary.  The statistics are never touched. *)
Theorem close_session_cases (sid : string) (m : t) :
  dict_keys_unique (sessions m) ->
  session_stats (snd (close_session sid m)) = session_stats m
  /\ match dict_get sid (sessions m) with
     | None => close_session sid m = (Ok tt, m)
     | Some s =>
         match close s with
         | Ok _ =>
             fst (close_session sid m) = Ok tt
             /\ dict_get sid (sessions (snd (close_session sid m))) = None
             /\ forall sid', sid' <> sid ->
                  dict_get sid' (sessions (snd (close_session sid m)))
                  = dict_get sid' (sessions m)
         | Raise e => close_session sid m = (Raise e, m)
         end
     end.
Proof.
  intros Hu. unfold close_session.
  destruct (dict_get sid (sessions m)) as [s|]; [|auto].
  destruct (close s) as [[]|e]; [|auto]. simpl.
  split; [reflexivity|]. split; [reflexivity|]. split.
  - apply dict_get_del_eq, Hu.
  - intros sid' Hne. apply dict_get_del_ne. congruence.
Qed.

Lemma close_session_cases_witness :
  let m := snd (get_session (Ok tt) "api" 0
                  (snd (get_session (Ok tt) "default" 0 (__init__ 10 3 0)))) in
  dict_get "api" (sessions (snd (close_session "api" m))) = None
  /\ dict_get "default" (sessions (snd (close_session "api" m)))
     = dict_get "default" (sessions m).
Proof.
  cbn zeta.
  set (m := snd (get_session (Ok tt) "api" 0
                   (snd (get_session (Ok tt) "default" 0 (__init__ 10 3 0))))).
  assert (Hu : dict_keys_unique (sessions m)).
  { apply (bool_decide_unpack _). vm_compute. exact I. }
  destruct (close_session_cases "api" m Hu) as [_ H].
  change (dict_get "api" (sessions m))
    with (Some (_create_session (Ok tt)
                  (snd (get_session (Ok tt) "default" 0 (__init__ 10 3 0))))) in H.
  simpl close in H. destruct H as (_ & H1 & H2).
  split; [exact H1 | apply H2; discriminate].
Defined.

End SyncSessions.

(** ** Synchronous manager: statistics *)

Section SyncStatistics.
Import SessionManager SessionManagerReport.

Lemma monitor_response_stats r sid at_ m :
  session_stats (_monitor_response r sid at_ m)
  = <[sid := recorded r at_ (stats_of sid at_ (session_stats m))]> (session_stats m).
Proof.
  unfold _monitor_response, recorded.
  destruct (Qlt_le_dec 60 (at_ - last_stats_update m)); reflexivity.
Qed.

Lemma monitor_response_rate r sid at_ m :
  global_failure_rate (_monitor_response r sid at_ m) = global_failure_rate m
  \/ global_failure_rate (_monitor_response r sid at_ m)
     = failure_rate_of (session_stats (_monitor_response r sid at_ m)).
Proof.
  unfold _monitor_response.
  destruct (Qlt_le_dec 60 (at_ - last_stats_update m)); simpl; auto.
Qed.

Lemma get_session_stats_cases closes sid at_ m :
  session_stats (snd (get_session closes sid at_ m)) = session_stats m
  \/ session_stats (snd (get_session closes sid at_ m))
     = <[sid := stamped at_ (stats_of sid at_ (session_stats m))]> (session_stats m).
Proof.
  unfold get_session. destruct (dict_get sid (sessions m)); simpl; auto.
Qed.

Lemma perform_rate k m :
  global_failure_rate (perform k m) = global_failure_rate m
  \/ global_failure_rate (perform k m) = failure_rate_of (session_stats (perform k m)).
Proof.
  destruct k as [closes sid at_|sid| |r sid at_|at_]; cbn [perform].
  - left. unfold get_session. destruct (dict_get sid (sessions m)); reflexivity.
  - left. unfold close_session. destruct (dict_get sid (sessions m)) as [s|]; [|reflexivity].
    destruct (close s); reflexivity.
  - left. unfold close_all. destruct (close_each _); reflexivity.
  - apply monitor_response_rate.
  - right. reflexivity.
Qed.

(** A property of the per-session statistics that the factory default
    has, that stamping the creation time keeps, and that recording a
    response keeps for the calls at hand. *)
Section Preserved.
Variable P : stats -> Prop.
Variable admitted : call -> Prop.
Hypothesis P_default : forall at_, P (default_stats at_).
Hypothesis P_stamped : forall at_ st, P st -> P (stamped at_ st).
Hypothesis P_recorded : forall r sid at_ st,
  admitted (MonitorResponse r sid at_) -> P st -> P (recorded r at_ st).

Lemma preserved_stats_of sid at_ (d : gmap string stats) :
  map_Forall (fun _ => P) d -> P (stats_of sid at_ d).
Proof.
  intros Hd. unfold stats_of. destruct (d !! sid) eqn:E; [eapply Hd, E | apply P_default].
Qed.

Lemma preserved_perform k m :
  admitted k -> map_Forall (fun _ => P) (session_stats m) ->
  map_Forall (fun _ => P) (session_stats (perform k m)).
Proof.
  intros Hk Hm. destruct k as [closes sid at_|sid| |r sid at_|at_]; cbn [perform].
  - destruct (get_session_stats_cases closes sid at_ m) as [-> | ->]; [exact Hm|].
    apply map_Forall_insert_2; [|exact Hm].
    apply P_stamped, preserved_stats_of, Hm.
  - unfold close_session. destruct (dict_get sid (sessions m)) as [s|]; [|exact Hm].
    destruct (close s); exact Hm.
  - unfold close_all. destruct (close_each _); exact Hm.
  - rewrite monitor_response_stats.
    apply map_Forall_insert_2; [|exact Hm].
    eapply P_recorded; [exact Hk | apply preserved_stats_of, Hm].
  - exact Hm.
Qed.

Lemma preserved_perform_all ks mc mr at0 :
  Forall admitted ks ->
  map_Forall (fun _ => P) (session_stats (perform_all ks (__init__ mc mr at0))).
Proof.
  intros Hks. induction ks as [|k ks IH] using rev_ind.
  - simpl. apply map_Forall_empty.
  - apply Forall_app in Hks as [Hks Hk]. inversion Hk as [|? ? Hk1 _]; subst.
    unfold perform_all. rewrite fold_left_app. simpl.
    apply preserved_perform; [exact Hk1 | apply IH, Hks].
Qed.

End Preserved.

Lemma counters_recorded r at_ st : counters_consistent st -> counters_consistent (recorded r at_ st).
Proof.
  unfold counters_consistent, recorded. intros [H1 H2].
  destruct (400 <=? status_code r)%Z; simpl; lia.
Qed.

Lemma counters_all ks mc mr at0 :
  map_Forall (fun _ => counters_consistent)
             (session_stats (perform_all ks (__init__ mc mr at0))).
Proof.
  apply (preserved_perform_all counters_consistent (fun _ => True)).
  - intros at_. unfold counters_consistent. simpl. lia.
  - intros at_ st H. exact H.
  - intros r sid at_ st _. apply counters_recorded.
  - apply Forall_forall. auto.
Qed.

(** X10. On the synchronous manager, whatever sessions are opened and
    closed and whatever responses are recorded, every session's counters
    fit together: [0 <= consecutive_failures <= failures <= requests_made]. *)
Theorem session_counters_consistent (mc mr : Z) (at0 : Q) (ks : list call) :
  map_Forall (fun _ st =>
                (0 <= consecutive_failures st <= failures st)%Z
                /\ (failures st <= requests_made st)%Z)
             (session_stats (perform_all ks (__init__ mc mr at0))).
Proof. exact (counters_all ks mc mr at0). Qed.

Lemma ema_between avg x bound :
  0 <= avg <= bound -> 0 <= x <= bound -> 0 <= ema avg x <= bound.
Proof.
  intros Ha Hx. unfold ema. destruct (Qeq_bool avg 0); [exact Hx | lra].
Qed.

(** X11. When every response time handed to the monitor lies between 0
    and a bound, so does the moving average kept for every session. *)
Theorem response_time_average_bounded
  (bound : Q) (mc mr : Z) (at0 : Q) (ks : list call) :
  0 <= bound -> Forall (elapsed_within bound) ks ->
  map_Forall (fun _ st => 0 <= avg_response_time st <= bound)
             (session_stats (perform_all ks (__init__ mc mr at0))).
Proof.
  intros Hb Hks.
  apply (preserved_perform_all (fun st => 0 <= avg_response_time st <= bound)
           (elapsed_within bound)); [| | |exact Hks].
  - intros at_. simpl. lra.
  - intros at_ st H. exact H.
  - intros r sid at_ st Hr H. unfold recorded. simpl in Hr.
    assert (Havg : 0 <= match elapsed r with
                        | Some response_time => ema (avg_response_time st) response_time
                        | None => avg_response_time st
                        end <= bound).
    { destruct (elapsed r); [apply ema_between; assumption | exact H]. }
    destruct (400 <=? status_code r)%Z; exact Havg.
Qed.

Lemma response_time_average_bounded_witness :
  map_Forall (fun _ st => 0 <= avg_response_time st <= 2)
    (session_stats
       (perform_all
          [MonitorResponse {| status_code := 200; elapsed := Some (1 # 2) |} "default" 1;
           MonitorResponse {| status_code := 503; elapsed := Some 2 |} "default" 2]
          (__init__ 10 3 0))).
Proof.
  apply (response_time_average_bounded 2 10 3 0).
  - discriminate.
  - repeat constructor; simpl; lra.
Defined.

Lemma counters_sound (d : gmap string stats) :
  map_Forall (fun _ => counters_consistent) d -> stats_sound d.
Proof.
  intros H sid st Hl. destruct (H sid st Hl) as [H1 H2]. lia.
Qed.

Lemma rate_all ks mc mr at0 :
  0 <= global_failure_rate (perform_all ks (__init__ mc mr at0)) <= 1.
Proof.
  induction ks as [|k ks IH] using rev_ind.
  - simpl. lra.
  - pose proof (counters_all (ks ++ [k]) mc mr at0) as Hc.
    unfold perform_all in *. rewrite fold_left_app in *. simpl in *.
    destruct (perform_rate k (fold_left (fun acc k0 => perform k0 acc) ks
                                (__init__ mc mr at0))) as [-> | ->];
      [exact IH | apply failure_rate_of_bounds, counters_sound, Hc].
Qed.

Lemma session_failure_rate_bounds st :
  counters_consistent st -> 0 <= session_failure_rate st <= 1.
Proof.
  intros [H1 H2]. unfold session_failure_rate.
  assert (Hq : 0 < inject_Z (Z.max (requests_made st) 1))
    by (change 0 with (inject_Z 0); rewrite <- Zlt_Qlt; lia).
  split.
  - apply Qle_shift_div_l; [exact Hq|]. rewrite Qmult_0_l.
    change 0 with (inject_Z 0). rewrite <- Zle_Qle. lia.
  - apply Qle_shift_div_r; [exact Hq|]. rewrite Qmult_1_l.
    rewrite <- Zle_Qle. lia.
Qed.

(** X12. The report of [get_health_status] on the synchronous manager:
    the global failure rate it reports, and the one the manager carried
    before, lie in [[0,1]]; so does the failure rate reported for every
    session; a session reported healthy has a rate below 0.5; there are
    never more healthy sessions than sessions with statistics; and the
    statistics themselves are left as they were. *)
Theorem health_report_rates (mc mr : Z) (at0 at_ : Q) (ks : list call) :
  let m := perform_all ks (__init__ mc mr at0) in
  let report := fst (get_health_status_report at_ m) in
  0 <= global_failure_rate m <= 1
  /\ 0 <= reported_failure_rate report <= 1
  /\ map_Forall (fun _ h => 0 <= failure_rate h <= 1
                            /\ (is_healthy h = true -> failure_rate h < 1 # 2))
                (session_details report)
  /\ (healthy_sessions report <= size (session_stats m))%nat
  /\ active_sessions report = length (sessions m)
  /\ session_stats (snd (get_health_status_report at_ m)) = session_stats m.
Proof.
  cbn zeta. pose proof (counters_all ks mc mr at0) as Hc.
  split; [apply rate_all|].
  split; [apply failure_rate_of_bounds, counters_sound, Hc|].
  split; [|split; [|split; reflexivity]].
  - intros sid h Hl. simpl in Hl. rewrite lookup_fmap in Hl.
    destruct (session_stats (perform_all ks (__init__ mc mr at0)) !! sid) as [st|] eqn:E;
      [|discriminate].
    simpl in Hl. injection Hl as <-. simpl.
    split; [apply session_failure_rate_bounds; eapply Hc, E|].
    intros Hh. destruct (Qlt_le_dec (session_failure_rate st) (1 # 2)); [assumption|].
    simpl in Hh. discriminate.
  - simpl. etransitivity; [apply length_filter|].
    rewrite length_map_to_list, map_size_fmap. reflexivity.
Qed.

End SyncStatistics.

(** ** Async manager: sessions and the retry loop *)

Section AsyncRetry.
Import AsyncSessionManager.

Lemma async_get_session_present fr sid at_ m h :
  dict_get sid (sessions m) = Some h -> get_session fr sid at_ m = (Some h, m).
Proof. intros E. unfold get_session. rewrite E. simpl. rewrite E. reflexivity. Qed.

Lemma async_get_session_absent fr sid at_ m :
  dict_get sid (sessions m) = None ->
  exists m', get_session fr sid at_ m = (Some (fst fr), m')
             /\ sessions m' = dict_set sid (fst fr) (sessions m)
             /\ _connector_cache m' = dict_set sid (snd fr) (_connector_cache m).
Proof.
  intros E. unfold get_session. rewrite E. simpl. rewrite dict_get_set_eq.
  eexists. repeat split; reflexivity.
Qed.

(** X13. The async [get_session] always hands out a session; asking again
    for the same id gives the same session and changes nothing; a new
    session comes with its connector in the cache; and neither the
    session nor the connector of any other id is affected. *)
Theorem async_get_session_same_handle
  (fr fr' : session * connector) (sid : string) (at_ at' : Q) (m : t) :
  let r := get_session fr sid at_ m in
  exists h, fst r = Some h
    /\ get_session fr' sid at' (snd r) = (Some h, snd r)
    /\ (forall sid', sid' <> sid ->
          dict_get sid' (sessions (snd r)) = dict_get sid' (sessions m)
          /\ dict_get sid' (_connector_cache (snd r)) = dict_get sid' (_connector_cache m))
    /\ (forall h0, dict_get sid (sessions m) = Some h0 -> h = h0 /\ snd r = m)
    /\ (dict_get sid (sessions m) = None ->
        h = fst fr /\ dict_get sid (_connector_cache (snd r)) = Some (snd fr)).
Proof.
  cbn zeta. destruct (dict_get sid (sessions m)) as [h0|] eqn:E.
  - rewrite (async_get_session_present fr sid at_ m h0 E). simpl.
    exists h0. split; [reflexivity|]. split; [|split; [|split]].
    + apply async_get_session_present, E.
    + auto.
    + intros h1 [= <-]. auto.
    + discriminate.
  - destruct (async_get_session_absent fr sid at_ m E) as (m' & -> & Hs & Hc). simpl.
    exists (fst fr). split; [reflexivity|]. split; [|split; [|split]].
    + apply async_get_session_present. rewrite Hs. apply dict_get_set_eq.
    + intros sid' Hne. rewrite Hs, Hc.
      split; apply dict_get_set_ne; congruence.
    + discriminate.
    + intros _. split; [reflexivity|]. rewrite Hc. apply dict_get_set_eq.
Qed.







(** X16. With a negative adaptive retry budget ([max_retries] below -2
    under a failure rate of 0.3 or more) [make_request] issues no request
    at all: it raises "Max retries (n) exceeded for <url>" at once, without
    sleeping and without recording anything. *)
Theorem no_attempt_on_negative_budget
  (m : t) (fr : session * connector) (tr : transport) (sid method url : string)
  (c : clock) (fuel : nat) :
  (max_retries m < -2)%Z -> 3 # 10 <= global_failure_rate m -> (1 <= fuel)%nat ->
  make_request fuel fr tr sid method url m c
  = Some {| outcome := Raise (Exception
                                (max_retries_message (max_retries m + 2) url));
            manager := snd (get_session fr sid (now c) m);
            attempts := 0;
            clk := c |}.
Proof.
  intros Hneg Hrate Hfuel. rewrite make_request_retries.
  assert (Ha : _calculate_adaptive_retries m = (max_retries m + 2)%Z).
  { unfold _calculate_adaptive_retries, adaptive_retries.
    repeat (destruct (Qlt_le_dec _ _); try lra). lia. }
  rewrite Ha. destruct fuel as [|f]; [lia|]. simpl.
  destruct (Z.leb_spec 0 (max_retries m + 2)); [lia | reflexivity].
Qed.

Lemma no_attempt_on_negative_budget_witness :
  exists x, make_request 1 new_handles refused "default" "GET" "http://example.org"
              (async_at (1 # 2) (-5)) midnight = Some x
    /\ attempts x = 0%nat
    /\ outcome x = Raise (Exception "Max retries (-3) exceeded for http://example.org").
Proof.
  eexists. split.
  - apply (no_attempt_on_negative_budget (async_at (1 # 2) (-5)) new_handles refused
             "default" "GET" "http://example.org" midnight 1).
    + reflexivity.
    + vm_compute. discriminate.
    + lia.
  - split; [reflexivity | vm_compute; reflexivity].
Defined.

(** X17. For a base retry count between 1 and 10 the adaptive retry count
    stays between 1 and 10 and never goes down when the failure rate goes
    up. *)
Theorem adaptive_retries_monotone (f f' : Q) (base : Z) :
  (1 <= base <= 10)%Z -> f <= f' ->
  (1 <= adaptive_retries f base)%Z
  /\ (adaptive_retries f base <= adaptive_retries f' base)%Z
  /\ (adaptive_retries f' base <= 10)%Z.
Proof.
  intros Hb Hf. unfold adaptive_retries.
  repeat (destruct (Qlt_le_dec _ _); try lra); lia.
Qed.

Lemma adaptive_retries_monotone_witness :
  (1 <= adaptive_retries (5 # 100) 3)%Z
  /\ (adaptive_retries (5 # 100) 3 <= adaptive_retries (1 # 2) 3)%Z
  /\ (adaptive_retries (1 # 2) 3 <= 10)%Z.
Proof.
  apply (adaptive_retries_monotone (5 # 100) (1 # 2) 3); [lia | vm_compute; discriminate].
Defined.

End AsyncRetry.

(** ** Async manager: concurrent requests *)

Section ConcurrentFacts.
Import AsyncSessionManager ConcurrentRequests.





End ConcurrentFacts.

(** ** Batches *)

Section BatchLoopFacts.
Import AsyncBongoCat AsyncBongoCatBatches.

Variable use_browser : bool.
Variable envs : nat -> task_env.
Variable stamps : nat -> Q.
Variable urls : list string.
Variable b : nat.
Hypothesis b_positive : (1 <= b)%nat.

Lemma slice_length i : length (slice urls i b) = Nat.min b (length urls - i).
Proof. unfold slice. rewrite length_take, length_drop. reflexivity. Qed.

Lemma slice_lookup i k : (k < b)%nat -> slice urls i b !! k = urls !! (i + k)%nat.
Proof. intros Hk. unfold slice. rewrite lookup_take_lt by exact Hk. apply lookup_drop. Qed.

Lemma batch_loop_spec fuel : forall i acc c,
  (length urls - i < fuel)%nat ->
  exists rs c' pauses,
    batch_loop fuel use_browser envs stamps urls b i acc c = Some (Ok (acc ++ rs), c')
    /\ length rs = (length urls - i)%nat
    /\ (forall j u, (i <= j)%nat -> urls !! j = Some u ->
          exists start, (i <= start <= j)%nat /\ (j < start + b)%nat
            /\ rs !! (j - i)%nat = Some (settle use_browser envs (stamps start) j u))
    /\ slept c' = slept c ++ repeat (1 # 2) pauses
    /\ ((i < length urls)%nat ->
        (pauses * b < length urls - i)%nat /\ (length urls - i <= (pauses + 1) * b)%nat)
    /\ ((length urls <= i)%nat -> pauses = 0%nat).
Proof.
  induction fuel as [|fuel IH]; intros i acc c Hfuel; [lia|]. simpl.
  destruct (Nat.ltb_spec i (length urls)) as [Hi|Hi].
  - rewrite scrape_multiple_settles.
    set (batch := settle_from use_browser (fun j => envs (i + j)%nat) (stamps i) 0
                    (slice urls i b)).
    set (c1 := if (i + b <? length urls)%nat then time_sleep (1 # 2) c else c).
    destruct (IH (i + b)%nat (acc ++ batch) c1 ltac:(lia))
      as (rs & c' & pauses & Heq & Hlen & Hat & Hsl & Hp1 & Hp0).
    assert (Hbl : length batch = Nat.min b (length urls - i))
      by (subst batch; rewrite settle_from_length; apply slice_length).
    exists (batch ++ rs), c',
      (if (i + b <? length urls)%nat then S pauses else pauses).
    rewrite Heq, <- app_assoc.
    split; [reflexivity|]. split; [rewrite length_app; lia|].
    split; [|split; [|split]].
    + intros j u Hj Hu.
      destruct (Nat.lt_ge_cases j (i + b)) as [Hin|Hout].
      * exists i. split; [lia|]. split; [exact Hin|].
        rewrite lookup_app_l by (apply lookup_lt_Some in Hu; lia).
        subst batch.
        rewrite (settle_from_lookup use_browser (fun k => envs (i + k)%nat) (stamps i)
                   (slice urls i b) 0 (j - i) u).
        -- simpl. unfold settle. replace (i + (j - i))%nat with j by lia. reflexivity.
        -- rewrite slice_lookup by lia. replace (i + (j - i))%nat with j by lia. exact Hu.
      * destruct (Hat j u Hout Hu) as (start & Hs1 & Hs2 & Hs3).
        exists start. split; [lia|]. split; [exact Hs2|].
        apply lookup_lt_Some in Hu.
        rewrite lookup_app_r by lia.
        replace (j - i - length batch)%nat with (j - (i + b))%nat by lia. exact Hs3.
    + rewrite Hsl. subst c1.
      destruct (Nat.ltb_spec (i + b) (length urls)); simpl; [|reflexivity].
      rewrite <- app_assoc. reflexivity.
    + intros _. destruct (Nat.ltb_spec (i + b) (length urls)) as [Hmore|Hlast].
      * destruct (Hp1 Hmore) as [H1 H2]. split; nia.
      * rewrite (Hp0 Hlast). split; nia.
    + intros Hge. lia.
  - exists [], c, 0%nat. rewrite app_nil_r.
    split; [reflexivity|]. split; [simpl; lia|]. split; [|split; [|split]].
    + intros j u Hj Hu. apply lookup_lt_Some in Hu. lia.
    + simpl. rewrite app_nil_r. reflexivity.
    + lia.
    + reflexivity.
Qed.

End BatchLoopFacts.

Section BatchControlFacts.
Import AsyncBongoCat AsyncBongoCatBatches.

(** X19. [scrape_with_concurrency_control] with a positive batch size
    returns one record per URL in input order, each read off its own task
    as in the unbatched fan-out and stamped by the batch it ran in, and
    sleeps half a second between consecutive batches only: once fewer
    than the number of batches. *)
Theorem batches_cover_every_url
  (use_browser : bool) (envs : nat -> task_env) (stamps : nat -> Q)
  (batch_size : Z) (urls : list string) (c : clock) (fuel : nat) :
  (1 <= batch_size)%Z -> (length urls + 1 <= fuel)%nat ->
  exists results c' pauses,
    scrape_with_concurrency_control fuel use_browser envs stamps batch_size urls c
    = Some (Ok results, c')
    /\ length results = length urls
    /\ (forall i u, urls !! i = Some u ->
          exists start, (start <= i)%nat /\ (Z.of_nat i < Z.of_nat start + batch_size)%Z
            /\ results !! i = Some (settle use_browser envs (stamps start) i u))
    /\ slept c' = slept c ++ repeat (1 # 2) pauses
    /\ (urls <> [] ->
        (Z.of_nat pauses * batch_size < Z.of_nat (length urls))%Z
        /\ (Z.of_nat (length urls) <= (Z.of_nat pauses + 1) * batch_size)%Z).
Proof.
  intros Hb Hfuel. unfold scrape_with_concurrency_control.
  destruct urls as [|u0 rest] eqn:Eu.
  - exists [], c, 0%nat. simpl. rewrite app_nil_r.
    split; [reflexivity|]. split; [reflexivity|]. split; [|split].
    + intros i u Hu. discriminate Hu.
    + reflexivity.
    + intros H. congruence.
  - rewrite <- Eu in *.
    destruct (Z.eqb_spec batch_size 0) as [H0|_]; [lia|].
    destruct (Z.ltb_spec batch_size 0) as [Hneg|_]; [lia|].
    destruct (batch_loop_spec use_browser envs stamps urls (Z.to_nat batch_size)
                ltac:(lia) fuel 0 [] c ltac:(lia))
      as (rs & c' & pauses & Heq & Hlen & Hat & Hsl & Hp1 & _).
    exists rs, c', pauses. simpl in Heq. rewrite Heq.
    split; [reflexivity|]. split; [lia|]. split; [|split].
    + intros i u Hu. destruct (Hat i u ltac:(lia) Hu) as (start & Hs1 & Hs2 & Hs3).
      exists start. split; [lia|]. split; [lia|].
      rewrite Nat.sub_0_r in Hs3. exact Hs3.
    + exact Hsl.
    + intros _. assert (Hpos : (0 < length urls)%nat) by (rewrite Eu; simpl; lia).
      destruct (Hp1 Hpos) as [H1 H2]. split; nia.
Qed.

Lemma batches_cover_every_url_witness :
  exists results c',
    scrape_with_concurrency_control 4 false only_second_fails (fun _ => 12) 2
      ["u1"; "u2"; "u3"] midnight = Some (Ok results, c')
    /\ length results = 3%nat
    /\ slept c' = [1 # 2].
Proof.
  destruct (batches_cover_every_url false only_second_fails (fun _ => 12) 2
              ["u1"; "u2"; "u3"] midnight 4)
    as (results & c' & pauses & H1 & H2 & _ & H4 & H5); [lia | simpl; lia |].
  exists results, c'. split; [exact H1|]. split; [exact H2|].
  destruct (H5 ltac:(discriminate)) as [H6 H7]. simpl in H6, H7.
  assert (pauses = 1%nat) as -> by lia. exact H4.
Defined.


End BatchControlFacts.

(** ** Driver pool *)

Section DriverPoolFacts.
Import DriverPool.

Lemma cyclic_reaches len idx j :
  (idx < len)%nat -> (j < len)%nat ->
  exists d, (d < len)%nat /\ ((idx + d) mod len = j)%nat.
Proof.
  intros Hi Hj. destruct (Nat.le_gt_cases idx j) as [Hle|Hgt].
  - exists (j - idx)%nat. split; [lia|].
    replace (idx + (j - idx))%nat with j by lia. apply Nat.mod_small, Hj.
  - exists (len - idx + j)%nat. split; [lia|].
    replace (idx + (len - idx + j))%nat with (j + 1 * len)%nat by lia.
    rewrite Nat.Div0.mod_add. apply Nat.mod_small, Hj.
Qed.

Lemma scan_spec pool n : forall idx,
  (idx < length pool)%nat ->
  let r := scan n {| driver_pool := pool; current_driver_index := idx |} in
  (exists d k, (d < n)%nat /\ k = ((idx + d) mod length pool)%nat
     /\ pool !! k = Some false
     /\ (forall d', (d' < d)%nat -> pool !! ((idx + d') mod length pool)%nat = Some true)
     /\ r = (Ok (Some k),
             {| driver_pool := <[k := true]> pool;
                current_driver_index := ((k + 1) mod length pool)%nat |}))
  \/ ((forall d', (d' < n)%nat -> pool !! ((idx + d') mod length pool)%nat = Some true)
      /\ r = (Ok None,
              {| driver_pool := pool;
                 current_driver_index := ((idx + n) mod length pool)%nat |})).
Proof.
  induction n as [|n IH]; intros idx Hidx; cbn zeta.
  - right. split; [intros d' Hd; lia|]. simpl.
    rewrite Nat.add_0_r, Nat.mod_small by exact Hidx. reflexivity.
  - simpl. destruct (pool !! idx) as [[|]|] eqn:E.
    + assert (Hnext : ((idx + 1) mod length pool < length pool)%nat)
        by (apply Nat.mod_upper_bound; lia).
      assert (Hshift : forall d, (((idx + 1) mod length pool + d) mod length pool
                                  = (idx + S d) mod length pool)%nat).
      { intros d. rewrite Nat.Div0.add_mod_idemp_l. f_equal. lia. }
      destruct (IH _ Hnext) as [(d & k & Hd & Hk & Hfree & Hbusy & Hr) | [Hbusy Hr]].
      * left. exists (S d), k. rewrite Hshift in Hk.
        split; [lia|]. split; [exact Hk|]. split; [exact Hfree|]. split; [|exact Hr].
        intros [|d'] Hd'.
        -- rewrite Nat.add_0_r, Nat.mod_small by exact Hidx. exact E.
        -- rewrite <- Hshift. apply Hbusy. lia.
      * right. split.
        -- intros [|d'] Hd'.
           ++ rewrite Nat.add_0_r, Nat.mod_small by exact Hidx. exact E.
           ++ rewrite <- Hshift. apply Hbusy. lia.
        -- rewrite Hr, Hshift. reflexivity.
    + left. exists 0%nat, idx.
      rewrite Nat.add_0_r, Nat.mod_small by exact Hidx.
      split; [lia|]. split; [reflexivity|]. split; [exact E|].
      split; [intros d' Hd; lia | reflexivity].
    + apply lookup_ge_None in E. lia.
Qed.

(** X21. Handing out a browser driver, with the round-robin index inside
    the pool.  On an empty pool the call raises [IndexError].  While a
    driver is free, the call hands out the first free one at or after
    the index (wrapping around), marks it in use, leaves the other flags
    alone and moves the index just past it; releasing it again restores
    the pool.  When every driver is in use the call does not wait: it
    hands out driver 0 all the same and leaves pool and index as they
    were. *)
Theorem driver_hand_out (pool : list bool) (idx : nat) :
  let s := {| driver_pool := pool; current_driver_index := idx |} in
  (pool = [] ->
   _get_available_driver s = (Raise (IndexError "list index out of range"), s))
  /\ ((idx < length pool)%nat -> false ∈ pool ->
      exists d k, (d < length pool)%nat /\ k = ((idx + d) mod length pool)%nat
        /\ pool !! k = Some false
        /\ (forall d', (d' < d)%nat -> pool !! ((idx + d') mod length pool)%nat = Some true)
        /\ _get_available_driver s
           = (Ok k, {| driver_pool := <[k := true]> pool;
                       current_driver_index := ((k + 1) mod length pool)%nat |})
        /\ driver_pool (_release_driver k (snd (_get_available_driver s))) = pool)
  /\ ((idx < length pool)%nat -> Forall (fun in_use => in_use = true) pool ->
      _get_available_driver s = (Ok 0%nat, s)).
Proof.
  cbn zeta. split; [|split].
  - intros ->. reflexivity.
  - intros Hidx Hfree. unfold _get_available_driver. cbn [driver_pool].
    destruct (scan_spec pool (length pool) idx Hidx)
      as [(d & k & Hd & Hk & Hk0 & Hbusy & ->) | [Hbusy _]].
    + exists d, k. repeat (split; [assumption|]). split; [reflexivity|].
      simpl. rewrite list_insert_insert_eq. apply list_insert_id, Hk0.
    + exfalso. apply list_elem_of_lookup in Hfree as [j Hj].
      destruct (cyclic_reaches (length pool) idx j Hidx) as (d & Hd & Hdj).
      { eapply lookup_lt_Some, Hj. }
      specialize (Hbusy d Hd). rewrite Hdj in Hbusy. congruence.
  - intros Hidx Hall. unfold _get_available_driver. cbn [driver_pool].
    destruct (scan_spec pool (length pool) idx Hidx)
      as [(d & k & Hd & Hk & Hk0 & _) | [_ ->]].
    + exfalso. rewrite Forall_lookup in Hall.
      specialize (Hall k false Hk0). discriminate.
    + cbn [driver_pool current_driver_index].
      destruct (pool !! 0%nat) as [u|] eqn:E0.
      * rewrite Forall_lookup in Hall. rewrite (Hall 0%nat u E0) in E0.
        rewrite (list_insert_id pool 0 true E0).
        replace ((idx + length pool) mod length pool)%nat with idx; [reflexivity|].
        replace (idx + length pool)%nat with (idx + 1 * length pool)%nat by lia.
        rewrite Nat.Div0.mod_add. symmetry. apply Nat.mod_small, Hidx.
      * apply lookup_ge_None in E0. lia.
Qed.

Lemma driver_hand_out_witness :
  _get_available_driver {| driver_pool := [true; false; true];
                           current_driver_index := 2 |}
  = (Ok 1%nat, {| driver_pool := [true; true; true]; current_driver_index := 2 |})
  /\ _get_available_driver {| driver_pool := [true; true; true];
                              current_driver_index := 2 |}
     = (Ok 0%nat, {| driver_pool := [true; true; true]; current_driver_index := 2 |}).
Proof.
  pose proof (driver_hand_out [true; false; true] 2) as (_ & H1 & _).
  pose proof (driver_hand_out [true; true; true] 2) as (_ & _ & H2).
  cbn zeta in *. split.
  - destruct (H1 ltac:(simpl; lia) ltac:(set_solver)) as (d & k & _ & _ & _ & _ & _ & _).
    vm_compute. reflexivity.
  - apply H2; [simpl; lia | repeat constructor].
Defined.

End DriverPoolFacts.

(** ** Sequential scraper *)

Section SequentialScraper.
Import AsyncBongoCat BongoCat.

Lemma scrape_record k url sc :
  exists r, fst (scrape k url sc) = Ok r
    /\ field "url" r = Some (VStr url)
    /\ (forall e, fetched k = Raise e -> is_failure url (str e) r)
    /\ (forall p, fetched k = Ok p -> is_success url r).
Proof.
  destruct sc as [s c]. unfold scrape.
  destruct (RateLimiter.wait (latencies k) (rate_limiter s) c) as [rl c1].
  unfold _scrape_with_browser, _scrape_with_requests, is_failure, is_success.
  destruct (use_browser s), (fetched k) as [p|e]; simpl;
    eexists; (split; [reflexivity|]); repeat split; intros; try discriminate;
    repeat match goal with H : Raise _ = Raise _ |- _ => injection H as -> end;
    reflexivity.
Qed.

Lemma scrape_loop_spec tasks urls : forall i results sc,
  exists rs, fst (scrape_loop tasks i urls results sc) = results ++ rs
    /\ length rs = length urls
    /\ forall j u, urls !! j = Some u ->
         exists r, rs !! j = Some r
           /\ field "url" r = Some (VStr u)
           /\ (forall e, fetched (tasks (i + j)%nat) = Raise e -> is_failure u (str e) r)
           /\ (forall p, fetched (tasks (i + j)%nat) = Ok p -> is_success u r).
Proof.
  induction urls as [|url urls IH]; intros i results sc; simpl.
  - exists []. rewrite app_nil_r. split; [reflexivity|]. split; [reflexivity|].
    intros j u Hj. discriminate Hj.
  - destruct (scrape_record (tasks i) url sc) as (r & Hr & Hrec).
    destruct (scrape (tasks i) url sc) as [o sc']. simpl in Hr. subst o.
    destruct (IH (S i) (results ++ [r]) sc') as (rs & Heq & Hlen & Hat).
    exists (r :: rs). rewrite Heq, <- app_assoc.
    split; [reflexivity|]. split; [simpl; lia|].
    intros [|j] u Hu; simpl in *.
    + injection Hu as <-. exists r. rewrite Nat.add_0_r. split; [reflexivity | exact Hrec].
    + destruct (Hat j u Hu) as (r' & H1 & H2).
      exists r'. replace (i + S j)%nat with (S i + j)%nat by lia. auto.
Qed.

(** X22. The sequential [scrape_multiple] returns one record per URL in
    input order: a [Failure] for its own URL carrying the exception's
    message when the fetch of that URL raised, a [Success] for its URL
    otherwise, whatever happened to the URLs before it. *)
Theorem sequential_scrape_one_record_per_url
  (tasks : nat -> task) (urls : list string) (sc : t * clock) :
  let results := fst (scrape_multiple tasks urls sc) in
  length results = length urls
  /\ forall i u, urls !! i = Some u ->
       exists r, results !! i = Some r
         /\ field "url" r = Some (VStr u)
         /\ (forall e, fetched (tasks i) = Raise e -> is_failure u (str e) r)
         /\ (forall p, fetched (tasks i) = Ok p -> is_success u r).
Proof.
  cbn zeta. unfold scrape_multiple.
  destruct (scrape_loop_spec tasks urls 0 [] sc) as (rs & Heq & Hlen & Hat).
  rewrite Heq. simpl. split; [exact Hlen | exact Hat].
Qed.

(** One scrape in fixed mode: the limiter's stamp is at least a full
    interval after the previous one, and the clock does not run behind
    it. *)
Lemma scrape_fixed k url s c :
  RateLimiter.adaptive_mode (rate_limiter s) = false -> task_ok k ->
  let s' := fst (snd (scrape k url (s, c))) in
  let c' := snd (snd (scrape k url (s, c))) in
  RateLimiter.adaptive_mode (rate_limiter s') = false
  /\ RateLimiter.min_interval (rate_limiter s') = RateLimiter.min_interval (rate_limiter s)
  /\ RateLimiter.last_request_time (rate_limiter s) + RateLimiter.min_interval (rate_limiter s)
     <= RateLimiter.last_request_time (rate_limiter s')
  /\ now c <= RateLimiter.last_request_time (rate_limiter s')
  /\ RateLimiter.last_request_time (rate_limiter s') <= now c'.
Proof.
  intros Hfix [Hl Hd]. cbn zeta. unfold scrape.
  pose proof (wait_fixed (latencies k) (rate_limiter s) c Hfix Hl)
    as (Ha & Hm & Hlast & Hmono & Hgap & _).
  destruct (RateLimiter.wait (latencies k) (rate_limiter s) c) as [rl c1].
  simpl in *.
  destruct (if use_browser s then _ else _); simpl; rewrite Hlast;
    repeat split; try assumption; lra.
Qed.

Lemma scrape_loop_paced tasks urls : forall i results s c,
  RateLimiter.adaptive_mode (rate_limiter s) = false ->
  0 <= RateLimiter.min_interval (rate_limiter s) ->
  (forall j, task_ok (tasks j)) ->
  let s' := fst (snd (scrape_loop tasks i urls results (s, c))) in
  let c' := snd (snd (scrape_loop tasks i urls results (s, c))) in
  RateLimiter.last_request_time (rate_limiter s)
  + inject_Z (Z.of_nat (length urls)) * RateLimiter.min_interval (rate_limiter s)
  <= RateLimiter.last_request_time (rate_limiter s')
  /\ (urls <> [] -> RateLimiter.last_request_time (rate_limiter s') <= now c').
Proof.
  induction urls as [|url urls IH]; intros i results s c Hfix HI Hok; cbn zeta.
  - simpl. change (inject_Z (Z.of_nat 0)) with 0. split; [lra | congruence].
  - cbn [scrape_loop].
    pose proof (scrape_fixed (tasks i) url s c Hfix (Hok i))
      as (Ha & Hm & Hgap & _ & Hclock).
    destruct (scrape (tasks i) url (s, c)) as [o [s1 c1]]. simpl in Ha, Hm, Hgap, Hclock.
    assert (Hnext : forall res,
      RateLimiter.last_request_time (rate_limiter s)
      + inject_Z (Z.of_nat (length (url :: urls))) * RateLimiter.min_interval (rate_limiter s)
      <= RateLimiter.last_request_time
           (rate_limiter (fst (snd (scrape_loop tasks (S i) urls res (s1, c1)))))
      /\ (url :: urls <> [] ->
          RateLimiter.last_request_time
            (rate_limiter (fst (snd (scrape_loop tasks (S i) urls res (s1, c1)))))
          <= now (snd (snd (scrape_loop tasks (S i) urls res (s1, c1)))))).
    { intros res.
      destruct (IH (S i) res s1 c1 Ha ltac:(rewrite Hm; exact HI) Hok) as [H1 H2].
      rewrite Hm in H1.
      replace (length (url :: urls)) with (S (length urls)) by reflexivity.
      rewrite Nat2Z.inj_succ, <- Z.add_1_r, inject_Z_plus.
      change (inject_Z 1) with 1. split; [lra|]. intros _.
      destruct urls as [|u2 urls']; [simpl; exact Hclock | apply H2; discriminate]. }
    destruct o as [r|e]; apply Hnext.
Qed.

(** X23. The sequential scraper is paced by its rate limiter: in fixed
    mode at rate [r > 0], scraping [N >= 1] URLs one after the other takes
    at least [(N-1)/r] seconds, however fast the fetches are. *)
Theorem sequential_scrape_is_paced
  (r : Q) (tasks : nat -> task) (urls : list string) (s : t) (c : clock) :
  0 < r -> RateLimiter.adaptive_mode (rate_limiter s) = false ->
  RateLimiter.min_interval (rate_limiter s) == 1 / r ->
  (forall j, task_ok (tasks j)) -> urls <> [] ->
  let c' := snd (snd (scrape_multiple tasks urls (s, c))) in
  (inject_Z (Z.of_nat (length urls)) - 1) / r <= now c' - now c.
Proof.
  intros Hr Hfix Hmin Hok Hne. cbn zeta. unfold scrape_multiple.
  destruct urls as [|url urls]; [congruence|]. cbn [scrape_loop].
  assert (HI : 0 <= RateLimiter.min_interval (rate_limiter s)).
  { rewrite Hmin. unfold Qdiv. rewrite Qmult_1_l.
    apply Qlt_le_weak, Qinv_lt_0_compat, Hr. }
  pose proof (scrape_fixed (tasks 0%nat) url s c Hfix (Hok 0%nat))
    as (Ha & Hm & _ & Hstart & Hclock).
  destruct (scrape (tasks 0%nat) url (s, c)) as [o [s1 c1]].
  simpl in Ha, Hm, Hstart, Hclock.
  assert (Hall : forall res,
    (inject_Z (Z.of_nat (length (url :: urls))) - 1) / r
    <= now (snd (snd (scrape_loop tasks 1 urls res (s1, c1)))) - now c).
  { intros res.
    destruct (scrape_loop_paced tasks urls 1 res s1 c1 Ha
                ltac:(rewrite Hm; exact HI) Hok) as [H1 H2].
    rewrite Hm in H1.
    assert (Heq : (inject_Z (Z.of_nat (length (url :: urls))) - 1) / r
                  == inject_Z (Z.of_nat (length urls))
                     * RateLimiter.min_interval (rate_limiter s)).
    { replace (length (url :: urls)) with (S (length urls)) by reflexivity.
      rewrite Nat2Z.inj_succ, <- Z.add_1_r, inject_Z_plus, Hmin.
      change (inject_Z 1) with 1. unfold Qdiv. ring. }
    rewrite Heq. destruct urls as [|u2 urls'].
    - simpl. change (inject_Z (Z.of_nat 0)) with 0. lra.
    - specialize (H2 ltac:(discriminate)). lra. }
  destruct o as [r0|e]; apply Hall.
Qed.

Lemma sequential_scrape_is_paced_witness :
  let quick := {| latencies := RateLimiter.no_latency;
                  fetched := Raise (Exception "refused"); duration := 0 |} in
  let s := {| rate_limiter := RateLimiter.fresh 4 5; use_browser := false |} in
  let c' := snd (snd (scrape_multiple (fun _ => quick) ["u1"; "u2"; "u3"] (s, midnight))) in
  (inject_Z (Z.of_nat 3) - 1) / 4 <= now c' - now midnight.
Proof.
  cbn zeta.
  apply (sequential_scrape_is_paced 4
           (fun _ => {| latencies := RateLimiter.no_latency;
                        fetched := Raise (Exception "refused"); duration := 0 |})
           ["u1"; "u2"; "u3"]
           {| rate_limiter := RateLimiter.fresh 4 5; use_browser := false |} midnight).
  - reflexivity.
  - reflexivity.
  - vm_compute. reflexivity.
  - intros j. repeat split; vm_compute; discriminate.
  - discriminate.
Defined.

End SequentialScraper.

(** ** User agent rotator *)

Section RotatorFacts.
Import UserAgentRotator.

Lemma zero_all_lookup agents : forall (stats : gmap string Z) a,
  zero_all agents stats !! a = if decide (a ∈ agents) then Some 0%Z else stats !! a.
Proof.
  unfold zero_all. induction agents as [|x agents IH]; intros stats a; simpl.
  - destruct (decide (a ∈ [])) as [H|_]; [inversion H | reflexivity].
  - rewrite IH. destruct (decide (a ∈ agents)) as [Hin|Hnot].
    + rewrite decide_True by (right; exact Hin). reflexivity.
    + destruct (decide (a = x)) as [->|Hne].
      * rewrite lookup_insert_eq, decide_True by left. reflexivity.
      * rewrite lookup_insert_ne by congruence.
        rewrite decide_False; [reflexivity|].
        rewrite elem_of_cons. tauto.
Qed.

Lemma counted_init custom : counted (__init__ custom).
Proof.
  intros a Ha. unfold __init__ in *. cbn [all_agents usage_stats] in *.
  rewrite zero_all_lookup, decide_True by exact Ha. eauto.
Qed.

Lemma pick_spec rnd agents s :
  counted s -> agents <> [] -> (forall a, a ∈ agents -> a ∈ all_agents s) ->
  exists a n, pick rnd agents s = (Ok a, used a n s)
              /\ a ∈ agents /\ usage_stats s !! a = Some n.
Proof.
  intros Hc Hne Hsub. unfold pick.
  destruct (ProxyHandler.random_choice rnd agents) as [a|e] eqn:E.
  - pose proof (random_choice_member rnd agents a E) as Ha.
    destruct (Hc a (Hsub a Ha)) as [n Hn].
    exists a, n. unfold count_use. rewrite Hn. auto.
  - destruct agents; [congruence | discriminate].
Qed.

Lemma filter_family family (l : list string) a :
  a ∈ List.filter family l <-> a ∈ l /\ family a = true.
Proof. rewrite !list_elem_of_In. apply filter_In. Qed.

Lemma getters_pick (family : string -> bool) (rnd : nat) (s : t) :
  counted s -> all_agents s <> [] ->
  (exists a n, get_random_agent rnd s = (Ok a, used a n s)
               /\ a ∈ all_agents s /\ usage_stats s !! a = Some n)
  /\ (exists a n, get_family_agent family rnd s = (Ok a, used a n s)
                  /\ a ∈ all_agents s /\ usage_stats s !! a = Some n
                  /\ ((exists b, b ∈ all_agents s /\ family b = true) -> family a = true)).
Proof.
  intros Hc Hne. split.
  - apply pick_spec; auto.
  - unfold get_family_agent.
    destruct (List.filter family (all_agents s)) as [|x rest] eqn:E.
    + destruct (pick_spec rnd (all_agents s) s Hc Hne ltac:(auto)) as (a & n & H1 & H2 & H3).
      exists a, n. repeat split; try assumption.
      intros (b & Hb & Hfb). exfalso.
      assert (Hin : b ∈ List.filter family (all_agents s)) by (apply filter_family; auto).
      rewrite E in Hin. inversion Hin.
    + destruct (pick_spec rnd (x :: rest) s Hc ltac:(discriminate)) as (a & n & H1 & H2 & H3).
      { intros a Ha. rewrite <- E in Ha. apply filter_family in Ha. tauto. }
      rewrite <- E in H2. apply filter_family in H2 as [H2 Hf].
      exists a, n. repeat split; auto.
Qed.

(** X24. On a rotator in which every agent has a counter and at least one
    agent is left, each getter returns an agent of the rotation and adds
    exactly one to that agent's counter, leaving everything else alone.
    A family getter returns an agent of its family whenever the rotation
    holds one, and falls back to any agent otherwise. *)
Theorem getter_counts_its_pick (family : string -> bool) (rnd : nat) (s : t) :
  counted s -> all_agents s <> [] ->
  (exists a n, get_random_agent rnd s = (Ok a, used a n s)
               /\ a ∈ all_agents s /\ usage_stats s !! a = Some n)
  /\ (exists a n, get_family_agent family rnd s = (Ok a, used a n s)
                  /\ a ∈ all_agents s /\ usage_stats s !! a = Some n
                  /\ ((exists b, b ∈ all_agents s /\ family b = true) -> family a = true)).
Proof. exact (getters_pick family rnd s). Qed.

Lemma getter_counts_its_pick_witness :
  exists a n, get_family_agent is_firefox 7 (__init__ None)
              = (Ok a, used a n (__init__ None))
              /\ is_firefox a = true.
Proof.
  destruct (getter_counts_its_pick is_firefox 7 (__init__ None) (counted_init None)
              ltac:(discriminate)) as (_ & a & n & H1 & _ & _ & H4).
  exists a, n. split; [exact H1|]. apply H4.
  exists "Mozilla/5.0 (Windows NT 10.0; Win64; x64; rv:121.0) Gecko/20100101 Firefox/121.0".
  split; [|vm_compute; reflexivity].
  apply list_elem_of_In. vm_compute. tauto.
Defined.

Lemma used_agents a n s : all_agents (used a n s) = all_agents s.
Proof. reflexivity. Qed.

Lemma pick_state rnd agents s :
  snd (pick rnd agents s) = s
  \/ exists a n, usage_stats s !! a = Some n /\ snd (pick rnd agents s) = used a n s.
Proof.
  unfold pick. destruct (ProxyHandler.random_choice rnd agents) as [a|e]; [|auto].
  unfold count_use. destruct (usage_stats s !! a) as [n|] eqn:E; [|auto].
  right. exists a, n. auto.
Qed.

Lemma getter_state k s :
  match k with GetRandomAgent _ | GetFamilyAgent _ _ => True | _ => False end ->
  perform k s = s
  \/ exists a n, usage_stats s !! a = Some n /\ perform k s = used a n s.
Proof.
  destruct k as [rnd|family rnd|ua|ua|]; try contradiction; intros _; simpl.
  - apply pick_state.
  - unfold get_family_agent. destruct (List.filter family (all_agents s)); apply pick_state.
Qed.

Lemma counted_used a n s : counted s -> counted (used a n s).
Proof.
  intros Hc b Hb. simpl in *. destruct (decide (a = b)) as [->|Hne].
  - rewrite lookup_insert_eq. eauto.
  - rewrite lookup_insert_ne by exact Hne. apply Hc, Hb.
Qed.

Lemma counted_perform k s : keeps_agents k -> counted s -> counted (perform k s).
Proof.
  intros Hk Hc. destruct k as [rnd|family rnd|ua|ua|]; try contradiction.
  - destruct (getter_state (GetRandomAgent rnd) s I) as [-> | (a & n & _ & ->)];
      [exact Hc | apply counted_used, Hc].
  - destruct (getter_state (GetFamilyAgent family rnd) s I) as [-> | (a & n & _ & ->)];
      [exact Hc | apply counted_used, Hc].
  - simpl. unfold add_custom_agent.
    destruct (bool_decide (ua ∈ all_agents s)); [exact Hc|].
    intros b Hb. simpl in *. destruct (decide (ua = b)) as [->|Hne].
    + rewrite lookup_insert_eq. eauto.
    + rewrite lookup_insert_ne by exact Hne. apply Hc.
      apply elem_of_app in Hb as [Hb|Hb]; [exact Hb|].
      apply list_elem_of_singleton in Hb. congruence.
  - intros b Hb. simpl in *. rewrite zero_all_lookup, decide_True by exact Hb. eauto.
Qed.

Lemma defaults_stay k s :
  keeps_agents k ->
  (forall a, a ∈ default_agent_list -> a ∈ all_agents s) ->
  forall a, a ∈ default_agent_list -> a ∈ all_agents (perform k s).
Proof.
  intros Hk Hd a Ha. specialize (Hd a Ha).
  destruct k as [rnd|family rnd|ua|ua|]; try contradiction.
  - destruct (getter_state (GetRandomAgent rnd) s I) as [-> | (b & n & _ & ->)]; exact Hd.
  - destruct (getter_state (GetFamilyAgent family rnd) s I) as [-> | (b & n & _ & ->)];
      exact Hd.
  - simpl. unfold add_custom_agent. destruct (bool_decide _); [exact Hd|].
    simpl. apply elem_of_app. auto.
  - exact Hd.
Qed.

(** X25. A rotator built with any custom list, or none, and from which no
    agent is removed afterwards never fails to hand out an agent: after
    any getters, additions and resets, [get_random_agent] and every
    family getter return an agent of the rotation. *)
Theorem rotator_always_has_an_agent
  (custom : option (list string)) (ks : list call) (family : string -> bool) (rnd : nat) :
  Forall keeps_agents ks ->
  let s := perform_all ks (__init__ custom) in
  (exists a, fst (get_random_agent rnd s) = Ok a /\ a ∈ all_agents s)
  /\ (exists a, fst (get_family_agent family rnd s) = Ok a /\ a ∈ all_agents s).
Proof.
  intros Hks. cbn zeta.
  assert (H : counted (perform_all ks (__init__ custom))
              /\ forall a, a ∈ default_agent_list ->
                           a ∈ all_agents (perform_all ks (__init__ custom))).
  { induction ks as [|k ks IH] using rev_ind.
    - split; [apply counted_init|]. intros a Ha.
      unfold perform_all, __init__. cbn [fold_left all_agents]. apply elem_of_app. auto.
    - apply Forall_app in Hks as [Hks Hk]. inversion Hk as [|? ? Hk1 _]; subst.
      destruct (IH Hks) as [Hc Hd].
      unfold perform_all. rewrite fold_left_app. simpl.
      split; [apply counted_perform | apply defaults_stay]; assumption. }
  destruct H as [Hc Hd].
  assert (Hne : all_agents (perform_all ks (__init__ custom)) <> []).
  { intros Hnil.
    assert (Hin : "Mozilla/5.0 (X11; Linux x86_64) AppleWebKit/537.36 (KHTML, like Gecko) Chrome/120.0.0.0 Safari/537.36"
                  ∈ all_agents (perform_all ks (__init__ custom))).
    { apply Hd. apply list_elem_of_In. vm_compute. tauto. }
    rewrite Hnil in Hin. inversion Hin. }
  destruct (getters_pick family rnd _ Hc Hne)
    as [(a & n & H1 & H2 & _) (b & n' & H3 & H4 & _)].
  split; [exists a; rewrite H1 | exists b; rewrite H3]; auto.
Qed.

Lemma rotator_always_has_an_agent_witness :
  let s := perform_all [AddCustomAgent "curl/8.0"; GetRandomAgent 3; ResetStats]
             (__init__ (Some [])) in
  exists a, fst (get_family_agent is_safari 5 s) = Ok a /\ a ∈ all_agents s.
Proof.
  cbn zeta.
  apply (rotator_always_has_an_agent (Some [])
           [AddCustomAgent "curl/8.0"; GetRandomAgent 3; ResetStats] is_safari 5).
  repeat constructor.
Defined.

End RotatorFacts.

(** ** User agent rotator: counters and rotation stay in step *)

Section RotatorCounters.
Import UserAgentRotator.

Lemma elem_of_discard_nodup a b (l : list string) :
  NoDup l -> b ∈ ProxyHandler.discard a l <-> b ∈ l /\ b <> a.
Proof.
  intros Hn. rewrite occ_NoDup in Hn. specialize (Hn b).
  rewrite !occ_elem_of, occ_discard.
  destruct (decide (a = b)) as [->|Hne]; split; intros H; try lia; intuition congruence.
Qed.

Lemma nodup_discard a (l : list string) : NoDup l -> NoDup (ProxyHandler.discard a l).
Proof.
  rewrite !occ_NoDup. intros Hn p. specialize (Hn p).
  rewrite occ_discard. destruct (decide (a = p)); lia.
Qed.

Lemma match_used a n s :
  usage_stats s !! a = Some n -> counters_match s -> counters_match (used a n s).
Proof.
  intros Hn Hm b. simpl. destruct (decide (a = b)) as [->|Hne].
  - rewrite lookup_insert_eq. split; [eauto|]. intros _. apply Hm. eauto.
  - rewrite lookup_insert_ne by exact Hne. apply Hm.
Qed.

Lemma match_perform k s :
  NoDup (all_agents s) /\ counters_match s ->
  NoDup (all_agents (perform k s)) /\ counters_match (perform k s).
Proof.
  intros [Hn Hm]. destruct k as [rnd|family rnd|ua|ua|].
  - destruct (getter_state (GetRandomAgent rnd) s I) as [-> | (a & n & Ha & ->)];
      [auto | split; [exact Hn | apply match_used; assumption]].
  - destruct (getter_state (GetFamilyAgent family rnd) s I) as [-> | (a & n & Ha & ->)];
      [auto | split; [exact Hn | apply match_used; assumption]].
  - simpl. unfold add_custom_agent.
    destruct (bool_decide (ua ∈ all_agents s)) eqn:E; [auto|].
    apply bool_decide_eq_false in E. simpl. split.
    + apply NoDup_app. split; [exact Hn|]. split; [|apply NoDup_singleton].
      intros x Hx Hx'. apply list_elem_of_singleton in Hx'. congruence.
    + intros b. simpl. rewrite elem_of_app, list_elem_of_singleton.
      destruct (decide (ua = b)) as [->|Hne].
      * rewrite lookup_insert_eq. split; eauto.
      * rewrite lookup_insert_ne by exact Hne. rewrite (Hm b).
        split; [intros [H|H]; [exact H | congruence] | auto].
  - simpl. split; [apply nodup_discard, Hn|].
    intros b. simpl. rewrite (elem_of_discard_nodup ua b _ Hn), (Hm b).
    destruct (decide (ua = b)) as [->|Hne].
    + rewrite lookup_delete_eq. split; [intros [_ H]; congruence | intros [x Hx]; discriminate].
    + rewrite lookup_delete_ne by exact Hne. split; [tauto | intros H; split; [exact H | congruence]].
  - simpl. split; [exact Hn|]. intros b. simpl. rewrite zero_all_lookup.
    destruct (decide (b ∈ all_agents s)) as [Hin|Hnot].
    + split; eauto.
    + rewrite <- (Hm b). tauto.
Qed.

(** X26. On a rotator built from a custom list that repeats no agent,
    its own or a default one, the rotation and the usage counters stay in
    step through every call: the rotation never holds an agent twice, and
    an agent has a counter exactly when it is in the rotation (no orphan
    counter after [remove_agent], no agent without counter). *)
Theorem counters_follow_rotation (custom : option (list string)) (ks : list call) :
  NoDup (default_agent_list ++ default [] custom) ->
  let s := perform_all ks (__init__ custom) in
  NoDup (all_agents s)
  /\ forall a, a ∈ all_agents s <-> is_Some (usage_stats s !! a).
Proof.
  intros Hn. cbn zeta. induction ks as [|k ks IH] using rev_ind.
  - split; [exact Hn|]. intros a. unfold perform_all, __init__.
    cbn [fold_left all_agents usage_stats]. rewrite zero_all_lookup.
    destruct (decide (a ∈ default_agent_list ++ default [] custom)) as [Hin|Hnot].
    + split; eauto.
    + rewrite lookup_empty. split; [tauto | intros [x Hx]; discriminate].
  - unfold perform_all in *. rewrite fold_left_app. simpl.
    apply match_perform, IH.
Qed.

Lemma counters_follow_rotation_witness :
  let s := perform_all [AddCustomAgent "curl/8.0"; GetRandomAgent 16; RemoveAgent "curl/8.0"]
             (__init__ (Some ["wget/1.21"])) in
  NoDup (all_agents s)
  /\ forall a, a ∈ all_agents s <-> is_Some (usage_stats s !! a).
Proof.
  cbn zeta.
  apply (counters_follow_rotation (Some ["wget/1.21"])
           [AddCustomAgent "curl/8.0"; GetRandomAgent 16; RemoveAgent "curl/8.0"]).
  apply (bool_decide_unpack _). vm_compute. exact I.
Defined.

(** X27. An agent that sits twice in the rotation (a custom agent equal
    to a default one, or given twice) does not survive its removal in one
    piece: [remove_agent] drops one occurrence and the counter, so the
    agent stays in the rotation without a counter, and a getter that
    draws it raises [KeyError]. *)
Theorem duplicate_agent_loses_counter (a : string) (rnd : nat) (s : t) :
  (2 <= occ a (all_agents s))%nat ->
  let s' := remove_agent a s in
  a ∈ all_agents s'
  /\ usage_stats s' !! a = None
  /\ (ProxyHandler.random_choice rnd (all_agents s') = Ok a ->
      get_random_agent rnd s' = (Raise (key_error a), s')).
Proof.
  intros H2. cbn zeta. split; [|split].
  - simpl. apply occ_elem_of. rewrite occ_discard.
    destruct (decide (a = a)); [lia | congruence].
  - simpl. apply lookup_delete_eq.
  - intros Hpick. unfold get_random_agent, pick. rewrite Hpick.
    unfold count_use. simpl. rewrite lookup_delete_eq. reflexivity.
Qed.

Lemma duplicate_agent_loses_counter_witness :
  let a := "Mozilla/5.0 (Windows NT 10.0; Win64; x64) AppleWebKit/537.36 (KHTML, like Gecko) Chrome/120.0.0.0 Safari/537.36" in
  let s' := remove_agent a (__init__ (Some [a])) in
  a ∈ all_agents s' /\ usage_stats s' !! a = None
  /\ get_random_agent 15 s' = (Raise (key_error a), s').
Proof.
  cbn zeta.
  destruct (duplicate_agent_loses_counter
              "Mozilla/5.0 (Windows NT 10.0; Win64; x64) AppleWebKit/537.36 (KHTML, like Gecko) Chrome/120.0.0.0 Safari/537.36"
              15
              (__init__ (Some ["Mozilla/5.0 (Windows NT 10.0; Win64; x64) AppleWebKit/537.36 (KHTML, like Gecko) Chrome/120.0.0.0 Safari/537.36"])))
    as (H1 & H2 & H3).
  - vm_compute. lia.
  - split; [exact H1|]. split; [exact H2|]. apply H3. vm_compute. reflexivity.
Defined.

End RotatorCounters.

(** ** User agent rotator: usage accounting *)

Section RotatorUsage.
Import UserAgentRotator.

Lemma total_usage_fresh a v (m : gmap string Z) :
  m !! a = None -> total_usage (<[a := v]> m) = (v + total_usage m)%Z.
Proof.
  intros Hn. unfold total_usage. apply map_fold_insert_L; [|exact Hn].
  intros. lia.
Qed.

Lemma total_usage_update a n v (m : gmap string Z) :
  m !! a = Some n -> total_usage (<[a := v]> m) = (total_usage m - n + v)%Z.
Proof.
  intros Hn. rewrite <- (insert_delete_eq m a v).
  rewrite total_usage_fresh by apply lookup_delete_eq.
  unfold total_usage at 2.
  rewrite (map_fold_delete_L _ _ a n m); [fold (total_usage (delete a m)); lia | | exact Hn].
  intros. lia.
Qed.

Lemma total_usage_zeros (m : gmap string Z) :
  map_Forall (fun _ v => v = 0%Z) m -> total_usage m = 0%Z.
Proof.
  induction m as [|a v m Hn IH] using map_ind; intros Hz.
  - reflexivity.
  - rewrite total_usage_fresh by exact Hn.
    rewrite (Hz a v) by apply lookup_insert_eq.
    rewrite IH; [reflexivity|].
    intros b w Hb. apply (Hz b). rewrite lookup_insert_ne; [exact Hb|].
    intros ->. congruence.
Qed.

Lemma match_init custom : counters_match (__init__ custom).
Proof.
  intros a. unfold __init__. cbn [all_agents usage_stats]. rewrite zero_all_lookup.
  destruct (decide (a ∈ default_agent_list ++ default [] custom)) as [Hin|Hnot].
  - split; eauto.
  - rewrite lookup_empty. split; [tauto | intros [x Hx]; discriminate].
Qed.

Lemma match_add ua s : counters_match s -> counters_match (add_custom_agent ua s).
Proof.
  intros Hm. unfold add_custom_agent.
  destruct (bool_decide (ua ∈ all_agents s)); [exact Hm|].
  intros b. simpl. rewrite elem_of_app, list_elem_of_singleton.
  destruct (decide (ua = b)) as [->|Hne].
  - rewrite lookup_insert_eq. split; eauto.
  - rewrite lookup_insert_ne by exact Hne. rewrite (Hm b).
    split; [intros [H|H]; [exact H | congruence] | auto].
Qed.

(** X28. As long as no agent is removed and the counters are not reset,
    the usage counters of a rotator add up to the number of agents it has
    handed out: every getter call counts exactly once. *)
Theorem usage_adds_up (custom : option (list string)) (ks : list call) :
  Forall keeps_counts ks ->
  total_usage (usage_stats (perform_all ks (__init__ custom)))
  = Z.of_nat (length (List.filter is_getter ks)).
Proof.
  intros Hks.
  assert (H : counters_match (perform_all ks (__init__ custom))
              /\ (forall a, a ∈ default_agent_list ->
                            a ∈ all_agents (perform_all ks (__init__ custom)))
              /\ total_usage (usage_stats (perform_all ks (__init__ custom)))
                 = Z.of_nat (length (List.filter is_getter ks))).
  { induction ks as [|k ks IH] using rev_ind.
    - split; [apply match_init|]. split.
      + intros a Ha. unfold perform_all, __init__. cbn [fold_left all_agents].
        apply elem_of_app. auto.
      + unfold perform_all, __init__. cbn [fold_left usage_stats].
        apply total_usage_zeros. intros a v Hv. rewrite zero_all_lookup in Hv.
        destruct (decide _); [congruence | rewrite lookup_empty in Hv; discriminate].
    - apply Forall_app in Hks as [Hks Hk]. inversion Hk as [|? ? Hk1 _]; subst.
      destruct (IH Hks) as (Hm & Hd & Ht).
      unfold perform_all in *. rewrite fold_left_app, List.filter_app, length_app.
      set (s := fold_left (fun acc k0 => perform k0 acc) ks (__init__ custom)) in *.
      assert (Hc : counted s) by (intros a Ha; apply Hm, Ha).
      assert (Hne : all_agents s <> []).
      { intros Hnil.
        assert (Hin : "Mozilla/5.0 (X11; Linux x86_64) AppleWebKit/537.36 (KHTML, like Gecko) Chrome/120.0.0.0 Safari/537.36"
                      ∈ all_agents s).
        { apply Hd. apply list_elem_of_In. vm_compute. tauto. }
        rewrite Hnil in Hin. inversion Hin. }
      assert (Hk2 : keeps_agents k) by (destruct k; simpl in *; tauto).
      split; [|split; [apply defaults_stay; assumption|]].
      + destruct k as [rnd|family rnd|ua|ua|]; try contradiction; cbn [fold_left].
        * destruct (getters_pick (fun _ => true) rnd s Hc Hne)
            as [(a & n & H1 & H2 & H3) _].
          cbn [perform]. rewrite H1. apply match_used; assumption.
        * destruct (getters_pick family rnd s Hc Hne)
            as [_ (a & n & H1 & H2 & H3 & _)].
          cbn [perform]. rewrite H1. apply match_used; assumption.
        * apply match_add, Hm.
      + destruct k as [rnd|family rnd|ua|ua|]; try contradiction; cbn [fold_left].
        * destruct (getters_pick (fun _ => true) rnd s Hc Hne)
            as [(a & n & H1 & H2 & H3) _].
          cbn [perform]. rewrite H1. cbn [snd used usage_stats].
          rewrite (total_usage_update a n _ _ H3), Ht. simpl. lia.
        * destruct (getters_pick family rnd s Hc Hne)
            as [_ (a & n & H1 & H2 & H3 & _)].
          cbn [perform]. rewrite H1. cbn [snd used usage_stats].
          rewrite (total_usage_update a n _ _ H3), Ht. simpl. lia.
        * cbn [perform]. unfold add_custom_agent.
          destruct (bool_decide (ua ∈ all_agents s)) eqn:E; [rewrite Ht; simpl; lia|].
          apply bool_decide_eq_false in E. cbn [usage_stats].
          rewrite total_usage_fresh, Ht; [simpl; lia|].
          destruct (usage_stats s !! ua) eqn:Eu; [|reflexivity].
          exfalso. apply E, Hm. eauto. }
  apply H.
Qed.

Lemma usage_adds_up_witness :
  total_usage (usage_stats
                 (perform_all [GetRandomAgent 3; AddCustomAgent "curl/8.0";
                               GetFamilyAgent is_mobile 1; GetRandomAgent 16]
                              (__init__ None)))
  = 3%Z.
Proof.
  apply (usage_adds_up None [GetRandomAgent 3; AddCustomAgent "curl/8.0";
                             GetFamilyAgent is_mobile 1; GetRandomAgent 16]).
  repeat constructor.
Defined.

End RotatorUsage.

(** ** Synchronous manager: closing all sessions *)

Section SyncCloseAll.
Import SessionManager.

Lemma close_each_all_ok ss :
  Forall (fun s => close s = Ok tt) ss -> close_each ss = Ok tt.
Proof.
  induction 1 as [|s ss Hs _ IH]; simpl; [reflexivity|]. rewrite Hs. exact IH.
Qed.

Lemma close_each_first_error pre s post e :
  Forall (fun s0 => close s0 = Ok tt) pre -> close s = Raise e ->
  close_each (pre ++ s :: post) = Raise e.
Proof.
  induction 1 as [|s0 pre Hs0 _ IH]; simpl; intros Hs.
  - rewrite Hs. reflexivity.
  - rewrite Hs0. apply IH, Hs.
Qed.

(** X30. The synchronous [close_all] is all or nothing for the
    dictionary: when every session closes, every session is forgotten;
    when a session's [close()] raises, [close_all] raises the error of
    the first such session in insertion order and forgets none, not even
    the sessions it has already closed. *)
Theorem sync_close_all_first_error (m : t) :
  (Forall (fun s => close s = Ok tt) (dict_values (sessions m)) ->
   fst (close_all m) = Ok tt /\ sessions (snd (close_all m)) = [])
  /\ (forall pre s post e,
        dict_values (sessions m) = pre ++ s :: post ->
        Forall (fun s0 => close s0 = Ok tt) pre -> close s = Raise e ->
        close_all m = (Raise e, m)).
Proof.
  unfold close_all. split.
  - intros Hall. rewrite (close_each_all_ok _ Hall). auto.
  - intros pre s post e Hsplit Hpre Hs.
    rewrite Hsplit, (close_each_first_error pre s post e Hpre Hs). reflexivity.
Qed.

End SyncCloseAll.
